(** * Batch reconciliation service: a shallow embedding and its properties

    The development follows [BatchDataService] (service-1.ts) and the T-SQL
    objects it drives ([RecordDataType], [YourTableName],
    [sp_UpdateOpenRecords]).

    - JavaScript [number]s are IEEE binary64 values: Rocq's primitive floats.
    - Strings are Rocq [string]s, a character standing for a code unit
      below 256.
    - Row counts and array lengths are integers; they live in [Z].
    - Built-ins of the JavaScript host and of the SQL driver that the service
      calls but does not define (number printing, [parseFloat], string to
      number coercion, date parsing, parameter binding) are the fields of a
      [Host]; every general theorem holds for every host.
    - Effects are explicit: a computation takes the system state (the table
      and the log of outgoing calls) and returns an outcome, which is a value
      or a thrown error, with the state it leaves behind. *)

From Stdlib Require Import ZArith List String Ascii Bool Lia.
From Stdlib Require Import Floats DecimalString DecimalZ.
From Stdlib Require Import Sorted Permutation.
Import ListNotations.

Local Open Scope Z_scope.
Local Open Scope string_scope.
Local Open Scope list_scope.

(* ================================================================= *)
(** ** JavaScript values used by the service *)

Definition number := float.

Definition isNaN (x : number) : bool := PrimFloat.is_nan x.

(** ToBoolean on a number: [NaN], [+0] and [-0] are falsy. *)
Definition truthy_number (x : number) : bool :=
  negb (PrimFloat.is_nan x || PrimFloat.is_zero x).

(** ToBoolean on a string: only the empty string is falsy. *)
Definition truthy_string (s : string) : bool :=
  match s with
  | EmptyString => false
  | String _ _ => true
  end.

(** [s || d] on strings. *)
Definition str_or (s d : string) : string :=
  if truthy_string s then s else d.

(** [x || d] on numbers. *)
Definition num_or (x d : number) : number :=
  if truthy_number x then x else d.

(** A value as it may arrive in a JSON body. *)
Inductive JsValue : Type :=
| JsUndefined
| JsNull
| JsBool (b : bool)
| JsNumber (x : number)
| JsString (s : string).

(** A [Date] object: a time value in milliseconds, or the invalid date whose
    time value is [NaN]. *)
Inductive JsDate : Type :=
| DateAt (ms : Z)
| InvalidDate.

(** An integer-valued number or [NaN], the range of [parseInt]. *)
Definition int_or_nan := option Z.

Definition int_add (a b : int_or_nan) : int_or_nan :=
  match a, b with
  | Some x, Some y => Some (x + y)
  | _, _ => None
  end.

(** *** String built-ins *)

Definition is_white (c : ascii) : bool :=
  let n := nat_of_ascii c in
  (((9 <=? n) && (n <=? 13)) || (n =? 32) || (n =? 160))%nat.

Fixpoint trimStart (s : string) : string :=
  match s with
  | EmptyString => EmptyString
  | String c s' => if is_white c then trimStart s' else s
  end.

Fixpoint trimEnd (s : string) : string :=
  match s with
  | EmptyString => EmptyString
  | String c s' =>
      match trimEnd s' with
      | EmptyString => if is_white c then EmptyString else String c EmptyString
      | t => String c t
      end
  end.

Definition trim (s : string) : string := trimEnd (trimStart s).

(** [hay.includes(needle)] *)
Fixpoint includes (hay needle : string) : bool :=
  String.prefix needle hay
  || match hay with
     | EmptyString => false
     | String _ hay' => includes hay' needle
     end.

(** The one-character string holding a double quote. *)
Definition dquote : string := String (ascii_of_nat 34) EmptyString.

(** [xs.join(sep)] *)
Definition join (sep : string) (xs : list string) : string :=
  String.concat sep xs.

(** Template-literal rendering of an array index or length. *)
Definition nat_toString (n : nat) : string :=
  NilZero.string_of_uint (Nat.to_uint n).

(** [n.toString()] for an integer [n]. *)
Definition Z_toString (z : Z) : string :=
  NilZero.string_of_int (Z.to_int z).

(** *** parseInt, radix 10 by default, radix 16 after [0x] *)

Definition is_digit (c : ascii) : bool :=
  let n := nat_of_ascii c in ((48 <=? n) && (n <=? 57))%nat.

Definition hex_val (c : ascii) : option Z :=
  let n := nat_of_ascii c in
  if ((48 <=? n) && (n <=? 57))%nat then Some (Z.of_nat n - 48)
  else if ((97 <=? n) && (n <=? 102))%nat then Some (Z.of_nat n - 87)
  else if ((65 <=? n) && (n <=? 70))%nat then Some (Z.of_nat n - 55)
  else None.

Fixpoint take_digits (s : string) : string :=
  match s with
  | EmptyString => EmptyString
  | String c s' => if is_digit c then String c (take_digits s') else EmptyString
  end.

Fixpoint hex_prefix (s : string) (seen : bool) (acc : Z) : int_or_nan :=
  match s with
  | EmptyString => if seen then Some acc else None
  | String c s' =>
      match hex_val c with
      | Some d => hex_prefix s' true (16 * acc + d)
      | None => if seen then Some acc else None
      end
  end.

Definition parse_magnitude (s : string) : int_or_nan :=
  match s with
  | String "0" (String "x" s') => hex_prefix s' false 0
  | String "0" (String "X" s') => hex_prefix s' false 0
  | _ =>
      match take_digits s with
      | EmptyString => None
      | ds => option_map Z.of_uint (NilEmpty.uint_of_string ds)
      end
  end.

(** The result is exact; the sign of a zero result is not tracked. *)
Definition parseInt (s : string) : int_or_nan :=
  match trimStart s with
  | String "-" s' => option_map Z.opp (parse_magnitude s')
  | String "+" s' => parse_magnitude s'
  | s' => parse_magnitude s'
  end.

(* ================================================================= *)
(** ** Host built-ins *)

(** One row handed to [table.rows.add]. *)
Record TableRow : Type := mkTableRow
  { tr_id : int_or_nan;
    tr_name : string;
    tr_value : number;
    tr_status : string;
    tr_updatedAt : JsDate }.

(** One row of the table type [RecordDataType].  [DECIMAL(10,2)] values are
    counted in hundredths, [DATETIME2] values in milliseconds. *)
Record RecordDataType : Type := mkRecordDataType
  { src_Id : Z;
    src_Name : string;
    src_Value : Z;
    src_Status : string;
    src_UpdatedAt : Z }.

Class Host : Type := mkHost
  { (** [x.toString()] and template-literal rendering of a number *)
    Number_toString : number -> string;
    (** [parseFloat(s)] *)
    parseFloat : string -> number;
    (** [Number(s)] for a string [s] *)
    StringToNumber : string -> number;
    (** [Date.parse(s)]; [None] stands for [NaN] *)
    Date_parse : string -> option Z;
    (** The driver's conversion of a row to the column types declared on
        the table parameter; [inl msg] when a value does not fit. *)
    bind_row : TableRow -> string + RecordDataType }.

(** [Number(v)] *)
Definition ToNumber `{Host} (v : JsValue) : number :=
  match v with
  | JsUndefined => PrimFloat.nan
  | JsNull => PrimFloat.zero
  | JsBool true => PrimFloat.one
  | JsBool false => PrimFloat.zero
  | JsNumber x => x
  | JsString s => StringToNumber s
  end.

(** [new Date(s)] *)
Definition new_Date_of `{Host} (s : string) : JsDate :=
  match Date_parse s with
  | Some ms => DateAt ms
  | None => InvalidDate
  end.

(* ================================================================= *)
(** ** Records *)

Module ExternalApiRecord.
(** A field the code guards with [?.] or [!] may be absent. *)
Record t : Type := mk
  { id : option number;
    name : option string;
    value : JsValue;
    status : option string;
    lastModified : option string }.
End ExternalApiRecord.

Module RecordData.
Record t : Type := mk
  { id : option number;
    name : string;
    value : number;
    status : string;
    updatedAt : option JsDate }.
End RecordData.

(* ================================================================= *)
(** ** transformExternalData *)

Section Transform.
Context `{Host}.

(** [now] is the clock reading taken by [new Date()] for this element. *)
Definition transformRecord (now : Z) (record : ExternalApiRecord.t)
  : RecordData.t :=
  {| RecordData.id := ExternalApiRecord.id record;
     RecordData.name :=
       str_or (match ExternalApiRecord.name record with
               | Some s => trim s
               | None => ""
               end) "";
     RecordData.value :=
       num_or (ToNumber (ExternalApiRecord.value record)) PrimFloat.zero;
     RecordData.status :=
       str_or (match ExternalApiRecord.status record with
               | Some s => trim s
               | None => ""
               end) "Unknown";
     RecordData.updatedAt :=
       Some (match ExternalApiRecord.lastModified record with
             | Some s => if truthy_string s then new_Date_of s else DateAt now
             | None => DateAt now
             end) |}.

(** [externalRecords.map(...)]; [clock i] is the time at which element
    [i] is mapped. *)
Fixpoint transform_from (clock : nat -> Z) (i : nat)
         (externalRecords : list ExternalApiRecord.t) : list RecordData.t :=
  match externalRecords with
  | [] => []
  | record :: rest =>
      transformRecord (clock i) record :: transform_from clock (S i) rest
  end.

Definition transformExternalData (clock : nat -> Z)
           (externalRecords : list ExternalApiRecord.t) : list RecordData.t :=
  transform_from clock 0 externalRecords.

End Transform.

(* ================================================================= *)
(** ** validateRecords *)

(** [a === b] where either side may be [undefined]. *)
Definition id_strict_eq (a b : option number) : bool :=
  match a, b with
  | Some x, Some y => PrimFloat.eqb x y
  | None, None => true
  | _, _ => false
  end.

(** [!record.id || record.id <= 0] *)
Definition id_invalid (i : option number) : bool :=
  match i with
  | None => true
  | Some x => negb (truthy_number x) || PrimFloat.leb x PrimFloat.zero
  end.

(** [xs.findIndex(p)]; [None] stands for [-1]. *)
Fixpoint findIndex {A} (p : A -> bool) (xs : list A) : option nat :=
  match xs with
  | [] => None
  | x :: xs' => if p x then Some O else option_map S (findIndex p xs')
  end.

Definition push_if (c : bool) (msg : string) (errs : list string) : list string :=
  if c then errs ++ [msg] else errs.

(** The checks on the fields of one record, in source order. *)
Definition fieldErrors (record : RecordData.t) : list string :=
  let e0 := [] in
  let e1 := push_if (id_invalid (RecordData.id record))
                    "Invalid or missing ID" e0 in
  let e2 := push_if (negb (truthy_string (RecordData.name record))
                     || (String.length (RecordData.name record) =? 0)%nat)
                    "Name is required" e1 in
  let e3 := push_if (truthy_string (RecordData.name record)
                     && (255 <? String.length (RecordData.name record))%nat)
                    "Name exceeds maximum length (255 characters)" e2 in
  let e4 := push_if (isNaN (RecordData.value record))
                    "Invalid value format" e3 in
  push_if (negb (truthy_string (RecordData.status record)))
          "Status is required" e4.

(** [recordErrors] at the end of one iteration, given the records accepted
    so far. *)
Definition recordErrors (validRecords : list RecordData.t)
           (record : RecordData.t) : list string :=
  let errs := fieldErrors record in
  match findIndex (fun r => id_strict_eq (RecordData.id r) (RecordData.id record))
                  validRecords with
  | Some duplicateIndex =>
      errs ++ [("Duplicate ID found at index " ++ nat_toString duplicateIndex)%string]
  | None => errs
  end.

Section Validate.
Context `{Host}.

(** [`${record.id}`] *)
Definition id_toString (i : option number) : string :=
  match i with
  | Some x => Number_toString x
  | None => "undefined"
  end.

Definition rejection (index : nat) (record : RecordData.t)
           (errs : list string) : string :=
  ("Record " ++ nat_toString (index + 1) ++ " (ID: "
     ++ id_toString (RecordData.id record) ++ "): " ++ join ", " errs)%string.

(** One iteration of the [forEach]; the state is [validRecords] and the
    caller's [errors] array. *)
Definition validateStep (st : list RecordData.t * list string)
           (index : nat) (record : RecordData.t)
  : list RecordData.t * list string :=
  let '(validRecords, errors) := st in
  match recordErrors validRecords record with
  | [] => (validRecords ++ [record], errors)
  | errs => (validRecords, errors ++ [rejection index record errs])
  end.

Fixpoint validate_from (index : nat) (records : list RecordData.t)
         (st : list RecordData.t * list string)
  : list RecordData.t * list string :=
  match records with
  | [] => st
  | record :: rest => validate_from (S index) rest (validateStep st index record)
  end.

(** Returns [validRecords] and the [errors] array after the call. *)
Definition validateRecords (records : list RecordData.t) (errors : list string)
  : list RecordData.t * list string :=
  validate_from 0 records ([], errors).

End Validate.

(* ================================================================= *)
(** ** Errors and outcomes *)

(** A thrown value, with the properties the service inspects:
    [error.message], [error.code] and [error.response.status] together with
    [error.response.statusText]. *)
Record JsError : Type := mkError
  { message : string;
    code : option string;
    response : option (Z * string) }.

(** [new Error(msg)] *)
Definition Error (msg : string) : JsError :=
  {| message := msg; code := None; response := None |}.

Definition Outcome (A : Type) : Type := (JsError + A)%type.

(* ================================================================= *)
(** ** The store: [YourTableName] and [sp_UpdateOpenRecords] *)

(** One row of [YourTableName]. *)
Record Row : Type := mkRow
  { Id : Z;
    Name : string;
    Value : Z;
    Status : string;
    isOpen : bool;
    CreatedAt : option Z;
    UpdatedAt : option Z }.

(** A session of the database engine: the table as the session sees it,
    and for every open transaction the table as it was at its
    [BEGIN TRANSACTION], innermost first. *)
Record Session : Type := mkSession
  { table : list Row;
    open_tran : list (list Row) }.

(** A T-SQL statement: it may raise, and it leaves a session behind either
    way. *)
Definition Sql (A : Type) : Type := Session -> Outcome A * Session.

Definition sql_ret {A} (a : A) : Sql A := fun s => (inr a, s).

Definition sql_bind {A B} (c : Sql A) (k : A -> Sql B) : Sql B :=
  fun s =>
    match c s with
    | (inr a, s') => k a s'
    | (inl e, s') => (inl e, s')
    end.

Definition THROW {A} (e : JsError) : Sql A := fun s => (inl e, s).

(** [BEGIN TRY c END TRY BEGIN CATCH h END CATCH] *)
Definition TRY_CATCH {A} (c : Sql A) (h : JsError -> Sql A) : Sql A :=
  fun s =>
    match c s with
    | (inr a, s') => (inr a, s')
    | (inl e, s') => h e s'
    end.

Declare Scope sql_scope.
Delimit Scope sql_scope with sql.
Notation "x <- c ;; k" := (sql_bind c (fun x => k))
  (at level 61, c at next level, right associativity) : sql_scope.
Notation "c ;; k" := (sql_bind c (fun _ => k))
  (at level 61, right associativity) : sql_scope.

(** Where the engine fails during a call of the procedure, if it does:
    inside the [UPDATE], when it reaches the row at a given position, or at
    the [COMMIT]. *)
Inductive Fault : Type :=
| NoFault
| FailsAtRow (index : nat) (e : JsError)
| FailsAtCommit (e : JsError).

Definition strikes (fault : Fault) (index : nat) : option JsError :=
  match fault with
  | FailsAtRow k e => if (k =? index)%nat then Some e else None
  | NoFault | FailsAtCommit _ => None
  end.

Definition BEGIN_TRANSACTION : Sql unit :=
  fun s => (inr tt, {| table := table s; open_tran := table s :: open_tran s |}).

(** A [COMMIT] that fails leaves the transaction open. *)
Definition COMMIT_TRANSACTION (fault : Fault) : Sql unit :=
  fun s =>
    match fault with
    | FailsAtCommit e => (inl e, s)
    | NoFault | FailsAtRow _ _ =>
        match open_tran s with
        | [] =>
            (inl (Error "The COMMIT TRANSACTION request has no corresponding BEGIN TRANSACTION."), s)
        | _ :: outer => (inr tt, {| table := table s; open_tran := outer |})
        end
    end.

(** [ROLLBACK TRANSACTION] undoes every open transaction of the session. *)
Definition ROLLBACK_TRANSACTION : Sql unit :=
  fun s => (inr tt, {| table := last (open_tran s) (table s); open_tran := [] |}).

(** [@@TRANCOUNT] *)
Definition TRANCOUNT : Sql Z :=
  fun s => (inr (Z.of_nat (List.length (open_tran s))), s).

(** The [SET] clause: the four listed columns come from [source], the
    others stay. *)
Definition set_columns (target : Row) (source : RecordDataType) : Row :=
  {| Id := Id target;
     Name := src_Name source;
     Value := src_Value source;
     Status := src_Status source;
     isOpen := isOpen target;
     CreatedAt := CreatedAt target;
     UpdatedAt := Some (src_UpdatedAt source) |}.

(** [INNER JOIN ... ON target.Id = source.Id]: the source row used for
    [target].  When several rows of the batch match, T-SQL leaves the
    choice to the engine; this engine takes the first one.  The properties
    that depend on the row taken are stated for batches with unique ids,
    where there is no choice (see [engine_may_write]). *)
Definition joined (RecordData : list RecordDataType) (target : Row)
  : option RecordDataType :=
  find (fun source => Z.eqb (Id target) (src_Id source)) RecordData.

(** What the [UPDATE] does to one row, and whether the row counts in
    [@@ROWCOUNT]. *)
Definition update_row (RecordData : list RecordDataType) (target : Row)
  : Row * bool :=
  if isOpen target then
    match joined RecordData target with
    | Some source => (set_columns target source, true)
    | None => (target, false)
    end
  else (target, false).

(** The [UPDATE] over the rows from position [index] on.  Rows are written
    in place as they are reached, so a failure leaves the rows before it
    written; the result is [@@ROWCOUNT]. *)
Fixpoint update_from (fault : Fault) (RecordData : list RecordDataType)
         (index : nat) (rows : list Row) : Outcome Z * list Row :=
  match rows with
  | [] => (inr 0, [])
  | target :: rest =>
      match strikes fault index with
      | Some e => (inl e, rows)
      | None =>
          let '(row', hit) := update_row RecordData target in
          let '(res, rest') := update_from fault RecordData (S index) rest in
          (match res with
           | inr n => inr ((if hit then 1 else 0) + n)
           | inl e => inl e
           end, row' :: rest')
      end
  end.

Definition UPDATE_target (fault : Fault) (RecordData : list RecordDataType)
  : Sql Z :=
  fun s =>
    let '(res, rows') := update_from fault RecordData 0 (table s) in
    (res, {| table := rows'; open_tran := open_tran s |}).

(** The row the procedure selects at its end. *)
Record Stats : Type := mkStats
  { UpdatedCount : Z;
    SkippedCount : Z;
    TotalInputRecords : Z }.

(** [sp_UpdateOpenRecords @RecordData]; the result is its record set. *)
Definition sp_UpdateOpenRecords (fault : Fault)
           (RecordData : list RecordDataType) : Sql (list Stats) :=
  TRY_CATCH
    (BEGIN_TRANSACTION ;;
     let TotalInputRecords := Z.of_nat (List.length RecordData) in
     rowcount <- UPDATE_target fault RecordData ;;
     let UpdatedCount := rowcount in
     let SkippedCount := TotalInputRecords - UpdatedCount in
     COMMIT_TRANSACTION fault ;;
     sql_ret [ {| UpdatedCount := UpdatedCount;
                  SkippedCount := SkippedCount;
                  TotalInputRecords := TotalInputRecords |} ])%sql
    (fun e =>
       (trancount <- TRANCOUNT ;;
        (if Z.ltb 0 trancount then ROLLBACK_TRANSACTION else sql_ret tt) ;;
        THROW e)%sql).

(** The table after an [UPDATE] that ran to its end. *)
Definition updated_table (RecordData : list RecordDataType) (rows : list Row)
  : list Row :=
  map (fun target => fst (update_row RecordData target)) rows.

(** The number of rows such an [UPDATE] reports. *)
Definition updated_count (RecordData : list RecordDataType) (rows : list Row)
  : Z :=
  Z.of_nat (List.length (filter (fun target => snd (update_row RecordData target)) rows)).

(* ================================================================= *)
(** ** The service and its collaborators *)

(** Calls that leave the process. *)
Inductive Event : Type :=
| CatalogQuery (n : nat)
| HttpGet (url : string)
| Execute (procedure : string).

(** What a run can change: the table, and the calls made so far, oldest
    first. *)
Record Sys : Type := mkSys
  { store : list Row;
    calls : list Event }.

Record ProcParameter : Type := mkProcParameter
  { p_name : string;
    p_type_name : string }.

Record Procedure : Type := mkProcedure
  { proc_name : string;
    proc_params : list ProcParameter }.

(** [sys.table_types], and [sys.procedures] with, for each procedure, its
    [sys.parameters] joined to the name of their type in [sys.types]. *)
Record Catalog : Type := mkCatalog
  { table_types : list string;
    procedures : list Procedure }.

Inductive Body : Type :=
| NotAnArray
| RecordsArray (externalRecords : list ExternalApiRecord.t).

(** What a run cannot change. *)
Record World : Type := mkWorld
  { catalog : Catalog;
    (** the failure, if any, of the n-th catalog query of a verification *)
    query_fault : nat -> option JsError;
    (** the reply to a GET of a URL with headers: an error or [response.data] *)
    feed : string -> list (string * string) -> Outcome Body;
    (** the reading of [new Date()] while element [i] of the array in hand
        is processed *)
    clock : nat -> Z;
    (** a failure of [request.execute] before the procedure body runs *)
    exec_fault : option JsError;
    (** a failure of the engine inside the procedure *)
    update_fault : Fault }.

Definition M (A : Type) : Type := Sys -> Outcome A * Sys.

Definition ret {A} (a : A) : M A := fun sys => (inr a, sys).

Definition bind {A B} (c : M A) (k : A -> M B) : M B :=
  fun sys =>
    match c sys with
    | (inr a, sys') => k a sys'
    | (inl e, sys') => (inl e, sys')
    end.

Definition throw {A} (e : JsError) : M A := fun sys => (inl e, sys).

(** [try { c } catch (error) { h error }] *)
Definition try_catch {A} (c : M A) (h : JsError -> M A) : M A :=
  fun sys =>
    match c sys with
    | (inr a, sys') => (inr a, sys')
    | (inl e, sys') => h e sys'
    end.

Definition lift {A} (o : Outcome A) : M A := fun sys => (o, sys).

Definition emit (ev : Event) : M unit :=
  fun sys => (inr tt, {| store := store sys; calls := calls sys ++ [ev] |}).

Declare Scope js_scope.
Delimit Scope js_scope with js.
Notation "x <- c ;; k" := (bind c (fun x => k))
  (at level 61, c at next level, right associativity) : js_scope.
Notation "c ;; k" := (bind c (fun _ => k))
  (at level 61, right associativity) : js_scope.

Record UpdateResult : Type := mkUpdateResult
  { updated : int_or_nan;
    skipped : int_or_nan }.

Record Verification : Type := mkVerification
  { tableTypeExists : bool;
    storedProcExists : bool;
    issues : list string }.

Record Report : Type := mkReport
  { fetched : Z;
    report_updated : int_or_nan;
    report_skipped : int_or_nan;
    errors : list string }.

Record HttpException : Type := mkHttpException
  { http_message : string;
    http_status : Z }.

(** [apiHeaders || {}] *)
Definition headers_or_empty (apiHeaders : option (list (string * string)))
  : list (string * string) :=
  match apiHeaders with
  | Some h => h
  | None => []
  end.

Section Service.
Context `{Host}.
Variable world : World.

(** *** updateOpenRecords *)

(** The body of the [forEach] callback: the row added for [record], or the
    error it throws. *)
Definition tableRow (index : nat) (record : RecordData.t) : Outcome TableRow :=
  let id := parseInt (match RecordData.id record with
                      | Some x => str_or (Number_toString x) "0"
                      | None => "0"
                      end) in
  let name := trim (str_or (RecordData.name record) "") in
  let value := parseFloat (str_or (Number_toString (RecordData.value record)) "0") in
  let status := trim (str_or (RecordData.status record) "") in
  let updatedAt := match RecordData.updatedAt record with
                   | Some d => d
                   | None => DateAt (clock world index)
                   end in
  let checked : Outcome TableRow :=
    if match id with Some z => Z.leb z 0 | None => false end then
      inl (Error ("Invalid ID: " ++ id_toString (RecordData.id record)))
    else if negb (truthy_string name) then
      inl (Error ("Empty name for record ID: " ++ match id with
                                                  | Some z => Z_toString z
                                                  | None => "NaN"
                                                  end))
    else if isNaN value then
      inl (Error ("Invalid value for record ID: " ++ match id with
                                                     | Some z => Z_toString z
                                                     | None => "NaN"
                                                     end))
    else if negb (truthy_string status) then
      inl (Error ("Empty status for record ID: " ++ match id with
                                                    | Some z => Z_toString z
                                                    | None => "NaN"
                                                    end))
    else
      inr {| tr_id := id; tr_name := name; tr_value := value;
             tr_status := status; tr_updatedAt := updatedAt |} in
  match checked with
  | inr row => inr row
  | inl error =>
      inl (Error ("Invalid data in record " ++ nat_toString (index + 1) ++ ": "
                    ++ message error))
  end.

(** [records.forEach(...)]: the rows of the table parameter, or the first
    error thrown. *)
Fixpoint tableRows (index : nat) (records : list RecordData.t)
  : Outcome (list TableRow) :=
  match records with
  | [] => inr []
  | record :: rest =>
      match tableRow index record with
      | inl e => inl e
      | inr row =>
          match tableRows (S index) rest with
          | inl e => inl e
          | inr rows => inr (row :: rows)
          end
      end
  end.

(** The driver's encoding of the table parameter. *)
Fixpoint bind_rows (rows : list TableRow) : Outcome (list RecordDataType) :=
  match rows with
  | [] => inr []
  | row :: rest =>
      match bind_row row with
      | inl msg => inl (Error msg)
      | inr r =>
          match bind_rows rest with
          | inl e => inl e
          | inr rs => inr (r :: rs)
          end
      end
  end.

(** [request.execute('sp_UpdateOpenRecords')] with the table parameter as
    input: the call runs in a session of its own, on the stored table. *)
Definition execute_sp_UpdateOpenRecords (rows : list TableRow)
  : M (list Stats) :=
  (emit (Execute "sp_UpdateOpenRecords") ;;
   RecordData <- lift (bind_rows rows) ;;
   match exec_fault world with
   | Some e => throw e
   | None =>
       fun sys =>
         let '(res, session) :=
           sp_UpdateOpenRecords (update_fault world) RecordData
                                {| table := store sys; open_tran := [] |} in
         (res, {| store := table session; calls := calls sys |})
   end)%js.

(** The [catch] block of [updateOpenRecords]. *)
Definition updateOpenRecords_catch {A} (error : JsError) : M A :=
  if includes (message error) "RecordDataType" then
    throw (Error ("Table type 'RecordDataType' not found. Please ensure it exists in your database. Original error: "
                    ++ message error))
  else if includes (message error) "sp_UpdateOpenRecords" then
    throw (Error ("Stored procedure 'sp_UpdateOpenRecords' not found or has incorrect parameters. Original error: "
                    ++ message error))
  else
    throw (Error ("Failed to update records: " ++ message error)).

(** [records] is [None] when the caller passes [null] or [undefined]. *)
Definition updateOpenRecords (records : option (list RecordData.t))
  : M UpdateResult :=
  match records with
  | None | Some [] => ret {| updated := Some 0; skipped := Some 0 |}
  | Some records =>
      try_catch
        (rows <- lift (tableRows 0 records) ;;
         recordset <- execute_sp_UpdateOpenRecords rows ;;
         match recordset with
         | [] => throw (Error "Stored procedure did not return expected results")
         | stats :: _ =>
             let updatedCount :=
               parseInt (str_or (Z_toString (UpdatedCount stats)) "0") in
             let skippedCount :=
               parseInt (str_or (Z_toString (SkippedCount stats)) "0") in
             ret {| updated := updatedCount; skipped := skippedCount |}
         end)%js
        updateOpenRecords_catch
  end.

(** *** verifyDatabaseObjects *)

(** [request.query(...)] against the catalog: the n-th query of the
    verification, answering with [answer] unless it fails. *)
Definition query {A} (n : nat) (answer : A) : M A :=
  (emit (CatalogQuery n) ;;
   match query_fault world n with
   | Some e => throw e
   | None => ret answer
   end)%js.

(** [SELECT COUNT( * ) ... WHERE name = ...] *)
Definition count_named (name : string) (names : list string) : Z :=
  Z.of_nat (List.length (filter (String.eqb name) names)).

(** The parameters of the procedure [OBJECT_ID] resolves the name to. *)
Definition parameters_of (name : string) : list ProcParameter :=
  match find (fun p => String.eqb (proc_name p) name) (procedures (catalog world)) with
  | Some p => proc_params p
  | None => []
  end.

Definition verification_failed (v : Verification) (error : JsError)
  : M Verification :=
  ret {| tableTypeExists := tableTypeExists v;
         storedProcExists := storedProcExists v;
         issues := issues v
                   ++ [("Error during verification: " ++ message error)%string] |}.

(** Runs [c] and hands its outcome to the continuation as a value. *)
Definition attempt {A} (c : M A) : M (Outcome A) :=
  fun sys => let '(o, sys') := c sys in (inr o, sys').

(** The locals [tableTypeExists], [storedProcExists] and [issues] are
    carried in a [Verification]; when a query fails, the [catch] block sees
    them as they were at that point. *)
Definition verifyDatabaseObjects : M Verification :=
  (let v0 := {| tableTypeExists := false; storedProcExists := false;
                issues := [] |} in
   tableTypeResult <-
     attempt (query 0 (count_named "RecordDataType"
                                   (table_types (catalog world)))) ;;
   match tableTypeResult with
   | inl error => verification_failed v0 error
   | inr count =>
       let v1 :=
         {| tableTypeExists := Z.ltb 0 count;
            storedProcExists := false;
            issues :=
              push_if (negb (Z.ltb 0 count))
                      ("User-defined table type " ++ dquote ++ "RecordDataType"
                         ++ dquote ++ " does not exist")%string
                      (issues v0) |} in
       spResult <-
         attempt (query 1 (count_named "sp_UpdateOpenRecords"
                             (map proc_name (procedures (catalog world))))) ;;
       match spResult with
       | inl error => verification_failed v1 error
       | inr count =>
           let v2 :=
             {| tableTypeExists := tableTypeExists v1;
                storedProcExists := Z.ltb 0 count;
                issues :=
                  push_if (negb (Z.ltb 0 count))
                          ("Stored procedure " ++ dquote
                             ++ "sp_UpdateOpenRecords" ++ dquote
                             ++ " does not exist")%string
                          (issues v1) |} in
           if storedProcExists v2 then
             paramResult <-
               attempt (query 2 (parameters_of "sp_UpdateOpenRecords")) ;;
             match paramResult with
             | inl error => verification_failed v2 error
             | inr params =>
                 match find (fun p => String.eqb (p_name p) "@RecordData")
                            params with
                 | None =>
                     ret {| tableTypeExists := tableTypeExists v2;
                            storedProcExists := storedProcExists v2;
                            issues :=
                              issues v2
                              ++ ["Stored procedure missing @RecordData parameter"] |}
                 | Some recordDataParam =>
                     ret {| tableTypeExists := tableTypeExists v2;
                            storedProcExists := storedProcExists v2;
                            issues :=
                              push_if
                                (negb (String.eqb (p_type_name recordDataParam)
                                                  "RecordDataType"))
                                ("@RecordData parameter type is "
                                   ++ p_type_name recordDataParam
                                   ++ ", expected RecordDataType")%string
                                (issues v2) |}
                 end
             end
           else ret v2
       end
   end)%js.

(** *** fetchAndUpdateRecords *)

(** The [catch] block of [fetchAndUpdateRecords]: every thrown value
    leaves as an [HttpException]. *)
Definition fetch_catch (error : JsError) : HttpException :=
  match code error with
  | Some "ECONNABORTED"%string =>
      {| http_message := "API request timeout"; http_status := 408 |}
  | _ =>
      match response error with
      | Some (status, statusText) =>
          if Z.eqb status 0 then
            {| http_message := "Failed to fetch and update records";
               http_status := 500 |}
          else
            {| http_message :=
                 ("External API error: " ++ Z_toString status ++ " - "
                    ++ statusText)%string;
               http_status := 502 |}
      | None =>
          {| http_message := "Failed to fetch and update records";
             http_status := 500 |}
      end
  end.

(** The [try] block.  The [HttpException] thrown for a body that is not an
    array carries no [code], and its [response] is a string, so that
    [error.response?.status] is [undefined]. *)
Definition fetch_try (apiUrl : string)
           (apiHeaders : option (list (string * string))) : M Report :=
  (let errors : list string := [] in
   verification <- verifyDatabaseObjects ;;
   match issues verification with
   | _ :: _ =>
       ret {| fetched := 0;
              report_updated := Some 0;
              report_skipped := Some 0;
              errors := errors ++ issues verification |}
   | [] =>
       emit (HttpGet apiUrl) ;;
       data <- lift (feed world apiUrl (headers_or_empty apiHeaders)) ;;
       match data with
       | NotAnArray => throw (Error "Invalid API response format")
       | RecordsArray externalRecords =>
           let transformedRecords :=
             transformExternalData (clock world) externalRecords in
           let '(validRecords, errors) :=
             validateRecords transformedRecords errors in
           let n := Z.of_nat (List.length externalRecords) in
           if (List.length validRecords =? 0)%nat then
             ret {| fetched := n;
                    report_updated := Some 0;
                    report_skipped := Some n;
                    errors := errors |}
           else
             updateResult <- updateOpenRecords (Some validRecords) ;;
             ret {| fetched := n;
                    report_updated := updated updateResult;
                    report_skipped :=
                      int_add (skipped updateResult)
                              (Some (n - Z.of_nat (List.length validRecords)));
                    errors := errors |}
       end
   end)%js.

Definition fetchAndUpdateRecords (apiUrl : string)
           (apiHeaders : option (list (string * string)))
  : Sys -> (HttpException + Report) * Sys :=
  fun sys =>
    match fetch_try apiUrl apiHeaders sys with
    | (inr report, sys') => (inr report, sys')
    | (inl error, sys') => (inl (fetch_catch error), sys')
    end.

End Service.

(* ================================================================= *)
(** ** Vocabulary of the properties *)

(** What one [UPDATE] may do to a row: a closed row is kept as it is; a
    row that changes was open and is joined to a row of the batch; the key
    and the flag are never written. *)
Definition row_frame (RecordData : list RecordDataType) (old new : Row) : Prop :=
  (isOpen old = false -> new = old)
  /\ isOpen new = isOpen old
  /\ Id new = Id old
  /\ CreatedAt new = CreatedAt old
  /\ (new <> old ->
      isOpen old = true
      /\ exists source, In source RecordData /\ src_Id source = Id old).

(** A closed row is kept, whatever the batch was. *)
Definition closed_kept (old new : Row) : Prop :=
  (isOpen old = false -> new = old) /\ isOpen new = isOpen old.

(** The error the engine raises during a call of the procedure on [rows],
    if it raises one. *)
Definition engine_failure (fault : Fault) (RecordData : list RecordDataType)
           (rows : list Row) : option JsError :=
  match fst (update_from fault RecordData 0 rows) with
  | inl e => Some e
  | inr _ =>
      match fault with
      | FailsAtCommit e => Some e
      | NoFault | FailsAtRow _ _ => None
      end
  end.

(** The statistics of an [UPDATE] that ran to its end on [rows]. *)
Definition stats_of (RecordData : list RecordDataType) (rows : list Row) : Stats :=
  {| UpdatedCount := updated_count RecordData rows;
     SkippedCount :=
       Z.of_nat (List.length RecordData) - updated_count RecordData rows;
     TotalInputRecords := Z.of_nat (List.length RecordData) |}.

(** Calls that can write to the table. *)
Definition mutating (ev : Event) : bool :=
  match ev with
  | Execute _ => true
  | CatalogQuery _ | HttpGet _ => false
  end.

(** Reads of the catalog. *)
Definition is_catalog_query (ev : Event) : bool :=
  match ev with
  | CatalogQuery _ => true
  | HttpGet _ | Execute _ => false
  end.

(** [sys] after the calls [evs], the table untouched. *)
Definition logged (sys : Sys) (evs : list Event) : Sys :=
  {| store := store sys; calls := calls sys ++ evs |}.

Section Outcomes.
Context `{Host}.
Variable world : World.

(** The batch [records] was applied between [sys] and [sys']: the call of
    the procedure did not fail, every row of the table that is open and
    joined to the batch is written, the others are kept, and [result]
    reports the store's counts. *)
Definition batch_applied (records : list RecordData.t) (sys sys' : Sys)
           (result : UpdateResult) : Prop :=
  exists rows RecordData,
    tableRows world 0 records = inr rows
    /\ bind_rows rows = inr RecordData
    /\ exec_fault world = None
    /\ engine_failure (update_fault world) RecordData (store sys) = None
    /\ store sys' = updated_table RecordData (store sys)
    /\ calls sys' = calls sys ++ [Execute "sp_UpdateOpenRecords"]
    /\ updated result = Some (updated_count RecordData (store sys))
    /\ skipped result
       = Some (Z.of_nat (List.length records)
               - updated_count RecordData (store sys)).

End Outcomes.

(** The list of accepted records after one more record. *)
Definition accepted_step (validRecords : list RecordData.t)
           (record : RecordData.t) : list RecordData.t :=
  match recordErrors validRecords record with
  | [] => validRecords ++ [record]
  | _ :: _ => validRecords
  end.

(** [errs.length === 0] *)
Definition no_errors (errs : list string) : bool :=
  match errs with
  | [] => true
  | _ :: _ => false
  end.

(** Some record accepted so far has the id of [record]. *)
Definition already_accepted (validRecords : list RecordData.t)
           (record : RecordData.t) : bool :=
  existsb (fun r => id_strict_eq (RecordData.id r) (RecordData.id record))
          validRecords.

(** Two records, the earlier first, whose ids are not [===]. *)
Definition distinct_ids (earlier later : RecordData.t) : Prop :=
  id_strict_eq (RecordData.id earlier) (RecordData.id later) = false.

(* ================================================================= *)
(** ** A host to run examples on

    [example_host] evaluates the built-ins on the fragment the examples
    need.  It agrees with ECMAScript on integers below 10^21, on the
    fractions whose exact decimal expansion is also the shortest one, on
    decimal literals without an exponent whose digits fit a binary64
    mantissa, and on the ISO date forms [YYYY-MM-DD] and
    [YYYY-MM-DDTHH:mm:ssZ]. *)

Module ExampleHost.

Definition digit_char (d : Z) : ascii := ascii_of_nat (48 + Z.to_nat d).

Fixpoint fraction_digits (fuel : nat) (r d : Z) : string :=
  match fuel with
  | O => EmptyString
  | S fuel' =>
      if Z.eqb r 0 then EmptyString
      else String (digit_char ((10 * r) / d))
                  (fraction_digits fuel' ((10 * r) mod d) d)
  end.

Definition Number_toString (x : number) : string :=
  match Prim2SF x with
  | S754_nan => "NaN"
  | S754_infinity false => "Infinity"
  | S754_infinity true => "-Infinity"
  | S754_zero _ => "0"
  | S754_finite s m e =>
      let sign := if s then "-" else "" in
      if Z.leb 0 e then (sign ++ Z_toString (Zpos m * 2 ^ e))%string
      else
        let d := 2 ^ (- e) in
        let q := Zpos m / d in
        let r := Zpos m mod d in
        if Z.eqb r 0 then (sign ++ Z_toString q)%string
        else (sign ++ Z_toString q ++ "."
                ++ fraction_digits (Z.to_nat (- e)) r d)%string
  end.

Definition float_of_Z (z : Z) : number :=
  if Z.ltb z 0 then PrimFloat.opp (PrimFloat.of_uint63 (Uint63.of_Z (- z)))
  else PrimFloat.of_uint63 (Uint63.of_Z z).

Definition digits_value (ds : string) : Z :=
  match NilEmpty.uint_of_string ds with
  | Some u => Z.of_uint u
  | None => 0
  end.

Fixpoint drop (n : nat) (s : string) : string :=
  match n, s with
  | O, _ => s
  | S n', String _ s' => drop n' s'
  | S _, EmptyString => EmptyString
  end.

(** An unsigned decimal literal at the head of [s]: its value and the rest
    of [s]; [None] when [s] does not start with one. *)
Definition unsigned_literal (s : string) : option (number * string) :=
  if String.prefix "Infinity" s then Some (PrimFloat.infinity, drop 8 s)
  else
    let int_part := take_digits s in
    let after_int := drop (String.length int_part) s in
    match after_int with
    | String "." after_dot =>
        let frac := take_digits after_dot in
        if ((String.length int_part =? 0) && (String.length frac =? 0))%nat
        then None
        else
          Some (PrimFloat.div
                  (float_of_Z (digits_value (int_part ++ frac)%string))
                  (float_of_Z (10 ^ Z.of_nat (String.length frac))),
                drop (String.length frac) after_dot)
    | _ =>
        if (String.length int_part =? 0)%nat then None
        else Some (float_of_Z (digits_value int_part), after_int)
    end.

Definition signed_literal (s : string) : option (number * string) :=
  match s with
  | String "-" s' =>
      option_map (fun '(x, rest) => (PrimFloat.opp x, rest)) (unsigned_literal s')
  | String "+" s' => unsigned_literal s'
  | _ => unsigned_literal s
  end.

Definition parseFloat (s : string) : number :=
  match signed_literal (trimStart s) with
  | Some (x, _) => x
  | None => PrimFloat.nan
  end.

Definition StringToNumber (s : string) : number :=
  match trim s with
  | EmptyString => PrimFloat.zero
  | t =>
      match signed_literal t with
      | Some (x, EmptyString) => x
      | _ => PrimFloat.nan
      end
  end.

(** Days from 1970-01-01 to the given civil date. *)
Definition days_from_civil (y m d : Z) : Z :=
  let y' := if Z.leb m 2 then y - 1 else y in
  let era := y' / 400 in
  let yoe := y' - era * 400 in
  let mp := (m + 9) mod 12 in
  let doy := (153 * mp + 2) / 5 + d - 1 in
  let doe := yoe * 365 + yoe / 4 - yoe / 100 + doy in
  era * 146097 + doe - 719468.

Definition days_in_month (y m : Z) : Z :=
  if Z.eqb m 2 then
    if (Z.eqb (y mod 4) 0 && negb (Z.eqb (y mod 100) 0)) || Z.eqb (y mod 400) 0
    then 29 else 28
  else if Z.eqb m 4 || Z.eqb m 6 || Z.eqb m 9 || Z.eqb m 11 then 30
  else 31.

(** Exactly [n] digits at the head of [s]. *)
Definition fixed_digits (n : nat) (s : string) : option (Z * string) :=
  let ds := take_digits (String.substring 0 n s) in
  if (String.length ds =? n)%nat then Some (digits_value ds, drop n s) else None.

Definition expect (c : ascii) (s : string) : option string :=
  match s with
  | String c' s' => if Ascii.eqb c c' then Some s' else None
  | EmptyString => None
  end.

Definition time_of_day (s : string) : option Z :=
  match fixed_digits 2 s with
  | Some (hh, s1) =>
      match expect ":" s1 with
      | Some s2 =>
          match fixed_digits 2 s2 with
          | Some (mm, s3) =>
              match expect ":" s3 with
              | Some s4 =>
                  match fixed_digits 2 s4 with
                  | Some (ss, String "Z" EmptyString) =>
                      if Z.ltb hh 24 && Z.ltb mm 60 && Z.ltb ss 60
                      then Some (((hh * 60 + mm) * 60 + ss) * 1000)
                      else None
                  | _ => None
                  end
              | None => None
              end
          | None => None
          end
      | None => None
      end
  | None => None
  end.

Definition Date_parse (s : string) : option Z :=
  match fixed_digits 4 s with
  | Some (y, s1) =>
      match expect "-" s1 with
      | Some s2 =>
          match fixed_digits 2 s2 with
          | Some (m, s3) =>
              match expect "-" s3 with
              | Some s4 =>
                  match fixed_digits 2 s4 with
                  | Some (d, rest) =>
                      if Z.leb 1 m && Z.leb m 12 && Z.leb 1 d
                         && Z.leb d (days_in_month y m)
                      then
                        let day_ms := days_from_civil y m d * 86400000 in
                        match rest with
                        | EmptyString => Some day_ms
                        | String "T" t =>
                            option_map (Z.add day_ms) (time_of_day t)
                        | _ => None
                        end
                      else None
                  | None => None
                  end
              | None => None
              end
          | None => None
          end
      | None => None
      end
  | None => None
  end.

(** [x * 100] rounded to the nearest integer, ties away from zero; [None]
    when [x] is not finite. *)
Definition hundredths (x : number) : option Z :=
  match Prim2SF x with
  | S754_nan | S754_infinity _ => None
  | S754_zero _ => Some 0
  | S754_finite s m e =>
      let magnitude :=
        if Z.leb 0 e then 100 * Zpos m * 2 ^ e
        else (2 * 100 * Zpos m + 2 ^ (- e)) / (2 * 2 ^ (- e)) in
      Some (if s then - magnitude else magnitude)
  end.

Definition bind_row (row : TableRow) : string + RecordDataType :=
  match tr_id row with
  | None => inl "Invalid number."
  | Some id =>
      if negb (Z.leb (- 2 ^ 31) id && Z.ltb id (2 ^ 31)) then
        inl "Invalid number."
      else if (255 <? String.length (tr_name row))%nat then
        inl "Invalid string."
      else if (50 <? String.length (tr_status row))%nat then
        inl "Invalid string."
      else
        match hundredths (tr_value row) with
        | None => inl "Invalid number."
        | Some v =>
            if Z.leb (10 ^ 10) (Z.abs v) then inl "Invalid number."
            else
              match tr_updatedAt row with
              | InvalidDate => inl "Invalid date."
              | DateAt ms =>
                  inr {| src_Id := id;
                         src_Name := tr_name row;
                         src_Value := v;
                         src_Status := tr_status row;
                         src_UpdatedAt := ms |}
              end
        end
  end.

End ExampleHost.

#[export] Instance example_host : Host :=
  {| Number_toString := ExampleHost.Number_toString;
     parseFloat := ExampleHost.parseFloat;
     StringToNumber := ExampleHost.StringToNumber;
     Date_parse := ExampleHost.Date_parse;
     bind_row := ExampleHost.bind_row |}.

(* ================================================================= *)
(** ** Worlds and inputs for the examples *)

Definition scenario_first : RecordData.t :=
  {| RecordData.id := Some 1%float;
     RecordData.name := "A";
     RecordData.value := 10%float;
     RecordData.status := "Active";
     RecordData.updatedAt := None |}.

Definition scenario_second : RecordData.t :=
  {| RecordData.id := Some 1%float;
     RecordData.name := "B";
     RecordData.value := 20%float;
     RecordData.status := "Active";
     RecordData.updatedAt := None |}.

(** The first occurrence of id 1 has no name. *)
Definition nameless_first : RecordData.t :=
  {| RecordData.id := Some 1%float;
     RecordData.name := "";
     RecordData.value := 10%float;
     RecordData.status := "Active";
     RecordData.updatedAt := None |}.

Definition external (id : number) (name : string) (value : JsValue)
           (lastModified : option string) : ExternalApiRecord.t :=
  {| ExternalApiRecord.id := Some id;
     ExternalApiRecord.name := Some name;
     ExternalApiRecord.value := value;
     ExternalApiRecord.status := Some "Active";
     ExternalApiRecord.lastModified := lastModified |}.

Definition example_feed : list ExternalApiRecord.t :=
  [ external 1%float "Updated Record 1" (JsNumber 150.75%float)
             (Some "2024-02-29T12:00:00Z");
    external 2%float "Updated Record 2" (JsString "250.25") None;
    external 2%float "Second Record 2" (JsNumber 1%float) None;
    external 7%float "Nowhere" JsNull None ].

Definition example_store : list Row :=
  [ {| Id := 1; Name := "Record 1"; Value := 10000; Status := "Pending";
       isOpen := true; CreatedAt := Some 0; UpdatedAt := Some 0 |};
    {| Id := 2; Name := "Record 2"; Value := 20000; Status := "Pending";
       isOpen := false; CreatedAt := Some 0; UpdatedAt := Some 0 |};
    {| Id := 3; Name := "Record 3"; Value := 30000; Status := "Pending";
       isOpen := true; CreatedAt := Some 0; UpdatedAt := None |} ].

Definition example_sys : Sys := {| store := example_store; calls := [] |}.

Definition deployed_catalog : Catalog :=
  {| table_types := ["RecordDataType"];
     procedures :=
       [ {| proc_name := "sp_UpdateOpenRecords";
            proc_params := [ {| p_name := "@RecordData";
                                p_type_name := "RecordDataType" |} ] |} ] |}.

(** The table type is there, the procedure is not. *)
Definition catalog_without_procedure : Catalog :=
  {| table_types := ["RecordDataType"]; procedures := [] |}.

Definition world_with (c : Catalog) (fault : Fault) : World :=
  {| catalog := c;
     query_fault := fun _ => None;
     feed := fun _ _ => inr (RecordsArray example_feed);
     clock := fun i => 1700000000000 + Z.of_nat i;
     exec_fault := None;
     update_fault := fault |}.

Definition example_world : World := world_with deployed_catalog NoFault.

(** The engine fails when the [UPDATE] reaches the third row. *)
Definition failing_world : World :=
  world_with deployed_catalog (FailsAtRow 2 (Error "Arithmetic overflow error")).

Definition unprepared_world : World :=
  world_with catalog_without_procedure NoFault.

(* ================================================================= *)
(** ** Vocabulary of the further properties *)

(** [xs] is [ys] with some elements left out, the order kept. *)
Inductive subsequence {A : Type} : list A -> list A -> Prop :=
| subsequence_nil : subsequence [] []
| subsequence_skip (y : A) (xs ys : list A) :
    subsequence xs ys -> subsequence xs (y :: ys)
| subsequence_keep (x : A) (xs ys : list A) :
    subsequence xs ys -> subsequence (x :: xs) (x :: ys).

(** Every character of [s] is white space. *)
Fixpoint all_white (s : string) : bool :=
  match s with
  | EmptyString => true
  | String c s' => is_white c && all_white s'
  end.

(** [s] does not start with white space. *)
Definition starts_clean (s : string) : Prop :=
  match s with
  | EmptyString => True
  | String c _ => is_white c = false
  end.

(** [s] does not end with white space. *)
Fixpoint ends_clean (s : string) : Prop :=
  match s with
  | EmptyString => True
  | String c s' =>
      match s' with
      | EmptyString => is_white c = false
      | String _ _ => ends_clean s'
      end
  end.

(** The fields of a record pass the validator's checks on id, name and
    status. *)
Definition well_formed (r : RecordData.t) : Prop :=
  (exists x,
      RecordData.id r = Some x
      /\ truthy_number x = true
      /\ PrimFloat.leb x PrimFloat.zero = false)
  /\ RecordData.name r <> ""
  /\ (String.length (RecordData.name r) <= 255)%nat
  /\ RecordData.status r <> "".

(** The catalog answers every query of the verification and holds the
    table type, the procedure, and the procedure's [@RecordData] parameter
    with the table type as its type. *)
Definition verification_clean (world : World) : Prop :=
  query_fault world 0 = None
  /\ 0 < count_named "RecordDataType" (table_types (catalog world))
  /\ query_fault world 1 = None
  /\ 0 < count_named "sp_UpdateOpenRecords"
                     (map proc_name (procedures (catalog world)))
  /\ query_fault world 2 = None
  /\ exists p,
      find (fun p => String.eqb (p_name p) "@RecordData")
           (parameters_of world "sp_UpdateOpenRecords") = Some p
      /\ p_type_name p = "RecordDataType".

(** The three catalog queries of a verification, in the order they are
    made. *)
Definition verification_queries : list Event :=
  [CatalogQuery 0; CatalogQuery 1; CatalogQuery 2].

(** The exception every failure inside the run ends as, unless the feed
    timed out or answered with an error status. *)
Definition internal_server_error : HttpException :=
  {| http_message := "Failed to fetch and update records";
     http_status := 500 |}.

(** The feed answers with a body that is not an array. *)
Definition garbled_world : World :=
  {| catalog := deployed_catalog;
     query_fault := fun _ => None;
     feed := fun _ _ => inr NotAnArray;
     clock := fun i => 1700000000000 + Z.of_nat i;
     exec_fault := None;
     update_fault := NoFault |}.

(** The feed times out. *)
Definition timeout_world : World :=
  {| catalog := deployed_catalog;
     query_fault := fun _ => None;
     feed := fun _ _ =>
               inl {| message := "timeout of 30000ms exceeded";
                      code := Some "ECONNABORTED";
                      response := None |};
     clock := fun i => 1700000000000 + Z.of_nat i;
     exec_fault := None;
     update_fault := NoFault |}.

(** Every record of the feed is rejected. *)
Definition rejected_feed : list ExternalApiRecord.t :=
  [ external 0%float "Zero" (JsNumber 1%float) None;
    external 1%float "   " (JsNumber 1%float) None ].

Definition rejecting_world : World :=
  {| catalog := deployed_catalog;
     query_fault := fun _ => None;
     feed := fun _ _ => inr (RecordsArray rejected_feed);
     clock := fun i => 1700000000000 + Z.of_nat i;
     exec_fault := None;
     update_fault := NoFault |}.

(** The report of a run on [rejecting_world]. *)
Definition rejecting_report : Report :=
  {| fetched := 2;
     report_updated := Some 0;
     report_skipped := Some 2;
     errors := ["Record 1 (ID: 0): Invalid or missing ID";
                "Record 2 (ID: 1): Name is required"] |}.

(** A row that passed the checks of [updateOpenRecords]: its id is [NaN]
    or positive, its name and status are trimmed and not empty, and its
    value is not [NaN]. *)
Definition row_checked (row : TableRow) : Prop :=
  (tr_id row = None \/ exists z, tr_id row = Some z /\ 0 < z)
  /\ tr_name row <> ""
  /\ starts_clean (tr_name row) /\ ends_clean (tr_name row)
  /\ isNaN (tr_value row) = false
  /\ tr_status row <> ""
  /\ starts_clean (tr_status row) /\ ends_clean (tr_status row).

(** A batch whose second record has a blank status. *)
Definition blank_status_batch : list RecordData.t :=
  [ scenario_first;
    {| RecordData.id := Some 2%float;
       RecordData.name := "B";
       RecordData.value := 20%float;
       RecordData.status := "  ";
       RecordData.updatedAt := None |} ].

(** A batch of three rows for the table type: ids 1, 2 and 7. *)
Definition example_batch : list RecordDataType :=
  [ {| src_Id := 1; src_Name := "Updated Record 1"; src_Value := 15075;
       src_Status := "Active"; src_UpdatedAt := 1709208000000 |};
    {| src_Id := 2; src_Name := "Updated Record 2"; src_Value := 25025;
       src_Status := "Active"; src_UpdatedAt := 1700000000001 |};
    {| src_Id := 7; src_Name := "Nowhere"; src_Value := 0;
       src_Status := "Active"; src_UpdatedAt := 1700000000003 |} ].

(* ================================================================= *)
(** ** Paginated reads: [sp_GetRecordsPaged], [sp_GetOpenRecords] and
    [getOpenRecords] *)

(** [ORDER BY Id], ascending. *)
Fixpoint insert_by_Id (r : Row) (sorted : list Row) : list Row :=
  match sorted with
  | [] => [r]
  | x :: rest =>
      if Z.leb (Id r) (Id x) then r :: sorted else x :: insert_by_Id r rest
  end.

Definition ORDER_BY_Id (rows : list Row) : list Row :=
  fold_right insert_by_Id [] rows.

Definition INT_MIN : Z := - 2 ^ 31.
Definition INT_MAX : Z := 2 ^ 31 - 1.

(** The value of an [INT] expression: arithmetic that leaves the 32-bit
    range raises. *)
Definition to_INT (z : Z) : Outcome Z :=
  if Z.leb INT_MIN z && Z.leb z INT_MAX then inr z
  else inl (Error "Arithmetic overflow error converting expression to data type int.").

(** [DECLARE @Offset INT = (@Page - 1) * @PageSize] *)
Definition Offset_of (Page PageSize : Z) : Outcome Z :=
  match to_INT (Page - 1) with
  | inl e => inl e
  | inr d => to_INT (d * PageSize)
  end.

(** [OFFSET @Offset ROWS FETCH NEXT @PageSize ROWS ONLY]: the engine
    refuses a negative offset and a row count that is not positive. *)
Definition OFFSET_FETCH {A} (Offset PageSize : Z) (rows : list A)
  : Outcome (list A) :=
  if Z.ltb Offset 0 then
    inl (Error "The offset specified in a OFFSET clause may not be negative.")
  else if Z.leb PageSize 0 then
    inl (Error "The number of rows provided for a FETCH clause must be greater then zero.")
  else inr (firstn (Z.to_nat PageSize) (skipn (Z.to_nat Offset) rows)).

(** The page [Page] of [selected], a list already in order. *)
Definition paged {A} (Page PageSize : Z) (selected : list A)
  : Outcome (list A) :=
  match Offset_of Page PageSize with
  | inl e => inl e
  | inr Offset => OFFSET_FETCH Offset PageSize selected
  end.

(** The columns [sp_GetRecordsPaged] selects. *)
Record PagedRecord : Type := mkPagedRecord
  { pr_Id : Z;
    pr_Name : string;
    pr_Value : Z;
    pr_Status : string;
    pr_CreatedAt : option Z;
    pr_UpdatedAt : option Z }.

Definition paged_columns (r : Row) : PagedRecord :=
  {| pr_Id := Id r;
     pr_Name := Name r;
     pr_Value := Value r;
     pr_Status := Status r;
     pr_CreatedAt := CreatedAt r;
     pr_UpdatedAt := UpdatedAt r |}.

(** [sp_GetRecordsPaged @Page, @PageSize]: its two record sets, the page
    and the total. *)
Definition sp_GetRecordsPaged (Page PageSize : Z) (rows : list Row)
  : Outcome (list PagedRecord * Z) :=
  match paged Page PageSize (map paged_columns (ORDER_BY_Id rows)) with
  | inl e => inl e
  | inr page => inr (page, Z.of_nat (List.length rows))
  end.

(** [sp_GetOpenRecords @Page, @PageSize]: all seven columns of the open
    rows. *)
Definition sp_GetOpenRecords (Page PageSize : Z) (rows : list Row)
  : Outcome (list Row * Z) :=
  match paged Page PageSize (ORDER_BY_Id (filter isOpen rows)) with
  | inl e => inl e
  | inr page => inr (page, Z.of_nat (List.length (filter isOpen rows)))
  end.

Module OpenRecordsPage.
(** What [getOpenRecords] resolves to. *)
Record t : Type := mk
  { data : list Row;
    total : Z;
    page : number;
    pageSize : number }.
End OpenRecordsPage.

Section Reads.
(** The driver's conversion of a number to [sql.Int]; [inl msg] when it
    refuses the value. *)
Variable bind_Int : number -> string + Z.
Variable world : World.

Definition input_Int (x : number) : M Z :=
  match bind_Int x with
  | inl msg => throw (Error msg)
  | inr z => ret z
  end.

(** A parameter with a default value: the default stands in for an
    argument that is left out. *)
Definition or_default (x : option number) (d : number) : number :=
  match x with
  | Some v => v
  | None => d
  end.

(** [getOpenRecords(page = 1, pageSize = 100)]; an argument is [None] when
    the caller leaves it out. *)
Definition getOpenRecords (page pageSize : option number)
  : M OpenRecordsPage.t :=
  let page := or_default page 1%float in
  let pageSize := or_default pageSize 100%float in
  try_catch
    (emit (Execute "sp_GetOpenRecords") ;;
     Page <- input_Int page ;;
     PageSize <- input_Int pageSize ;;
     match exec_fault world with
     | Some e => throw e
     | None =>
         recordsets <-
           (fun sys => (sp_GetOpenRecords Page PageSize (store sys), sys)) ;;
         ret {| OpenRecordsPage.data := fst recordsets;
                OpenRecordsPage.total := snd recordsets;
                OpenRecordsPage.page := page;
                OpenRecordsPage.pageSize := pageSize |}
     end)%js
    (fun error => throw error).

End Reads.

(** The rows of the pages [first], [first + 1], ... ([count] of them) of
    the open records, one call of the procedure per page, put end to
    end. *)
Fixpoint walk_open_pages (PageSize : Z) (rows : list Row) (first : Z)
         (count : nat) : Outcome (list Row) :=
  match count with
  | O => inr []
  | S count' =>
      match sp_GetOpenRecords first PageSize rows with
      | inl e => inl e
      | inr (page, _) =>
          match walk_open_pages PageSize rows (first + 1) count' with
          | inl e => inl e
          | inr rest => inr (page ++ rest)
          end
      end
  end.

(** The same walk over [sp_GetRecordsPaged]. *)
Fixpoint walk_pages (PageSize : Z) (rows : list Row) (first : Z)
         (count : nat) : Outcome (list PagedRecord) :=
  match count with
  | O => inr []
  | S count' =>
      match sp_GetRecordsPaged first PageSize rows with
      | inl e => inl e
      | inr (page, _) =>
          match walk_pages PageSize rows (first + 1) count' with
          | inl e => inl e
          | inr rest => inr (page ++ rest)
          end
      end
  end.

(** In [Id] order. *)
Definition by_Id (a b : Row) : Prop := Id a <= Id b.

(** A driver for the examples: a number is cut to its integer part, and
    refused when it is not finite or leaves the 32-bit range. *)
Definition example_bind_Int (x : number) : string + Z :=
  match Prim2SF x with
  | S754_nan | S754_infinity _ => inl "Invalid number."
  | S754_zero _ => inr 0
  | S754_finite s m e =>
      let magnitude :=
        if Z.leb 0 e then Zpos m * 2 ^ e else Zpos m / 2 ^ (- e) in
      let z := if s then - magnitude else magnitude in
      if Z.leb INT_MIN z && Z.leb z INT_MAX then inr z
      else inl "Invalid number."
  end.

(* ================================================================= *)
(** ** [sp_GetUpdatableRecords] *)

(** [STRING_SPLIT(s, sep)]: the pieces of [s] between separators. *)
Fixpoint STRING_SPLIT (s : string) (sep : ascii) : list string :=
  match s with
  | EmptyString => [EmptyString]
  | String c s' =>
      if Ascii.eqb c sep then EmptyString :: STRING_SPLIT s' sep
      else
        match STRING_SPLIT s' sep with
        | piece :: pieces => String c piece :: pieces
        | [] => [String c EmptyString]
        end
  end.

(** [RTRIM(value) <> ''] is false exactly when [value] is made of spaces
    only. *)
Fixpoint all_spaces (s : string) : bool :=
  match s with
  | EmptyString => true
  | String c s' => Ascii.eqb c " " && all_spaces s'
  end.

(** A row of the result: the five columns of [r], [NULL] when the left
    join found no row, and the computed [UpdateStatus]. *)
Record UpdatableRecord : Type := mkUpdatableRecord
  { ur_Id : option Z;
    ur_Name : option string;
    ur_Value : option Z;
    ur_Status : option string;
    ur_isOpen : option bool;
    UpdateStatus : string }.

(** The [CASE] expression on [r.isOpen]. *)
Definition update_status (r_isOpen : option bool) : string :=
  match r_isOpen with
  | Some true => "Can Update"
  | Some false => "Cannot Update - Record Closed"
  | None => "Record Not Found"
  end.

Definition found (r : Row) : UpdatableRecord :=
  {| ur_Id := Some (Id r);
     ur_Name := Some (Name r);
     ur_Value := Some (Value r);
     ur_Status := Some (Status r);
     ur_isOpen := Some (isOpen r);
     UpdateStatus := update_status (Some (isOpen r)) |}.

Definition not_found : UpdatableRecord :=
  {| ur_Id := None;
     ur_Name := None;
     ur_Value := None;
     ur_Status := None;
     ur_isOpen := None;
     UpdateStatus := update_status None |}.

(** [rl LEFT JOIN YourTableName r ON rl.Id = r.Id], for one [rl]. *)
Definition left_join (rows : list Row) (rl_Id : Z) : list UpdatableRecord :=
  match filter (fun r => Z.eqb rl_Id (Id r)) rows with
  | [] => [not_found]
  | matches => map found matches
  end.

(** The order of [ORDER BY r.Id]: [NULL] comes first. *)
Definition r_Id_leb (a b : option Z) : bool :=
  match a, b with
  | None, _ => true
  | Some _, None => false
  | Some x, Some y => Z.leb x y
  end.

Fixpoint insert_by_r_Id (u : UpdatableRecord) (sorted : list UpdatableRecord)
  : list UpdatableRecord :=
  match sorted with
  | [] => [u]
  | x :: rest =>
      if r_Id_leb (ur_Id u) (ur_Id x) then u :: sorted
      else x :: insert_by_r_Id u rest
  end.

Definition ORDER_BY_r_Id (us : list UpdatableRecord) : list UpdatableRecord :=
  fold_right insert_by_r_Id [] us.

Section Updatable.
(** [CAST(value AS INT)], which raises when [value] is not a number. *)
Variable CAST_INT : string -> Outcome Z.

Fixpoint cast_all (values : list string) : Outcome (list Z) :=
  match values with
  | [] => inr []
  | value :: rest =>
      match CAST_INT value with
      | inl e => inl e
      | inr z =>
          match cast_all rest with
          | inl e => inl e
          | inr zs => inr (z :: zs)
          end
      end
  end.

(** The common table expression [RecordIdList]. *)
Definition RecordIdList (RecordIds : string) : Outcome (list Z) :=
  cast_all (filter (fun value => negb (all_spaces value))
                   (STRING_SPLIT RecordIds ",")).

(** [sp_GetUpdatableRecords @RecordIds]; the procedure has no [TRY] block,
    so a failed [CAST] is the outcome. *)
Definition sp_GetUpdatableRecords (RecordIds : string) (rows : list Row)
  : Outcome (list UpdatableRecord) :=
  match RecordIdList RecordIds with
  | inl e => inl e
  | inr ids => inr (ORDER_BY_r_Id (flat_map (left_join rows) ids))
  end.

End Updatable.

(** In the order of [ORDER BY r.Id]. *)
Definition by_r_Id (a b : UpdatableRecord) : Prop :=
  r_Id_leb (ur_Id a) (ur_Id b) = true.

(** A [CAST] for the examples: spaces around an optional sign and digits;
    the empty string is 0. *)
Definition example_CAST_INT (value : string) : Outcome Z :=
  match trim value with
  | EmptyString => inr 0
  | t =>
      let body := match t with
                  | String "-" b => b
                  | String "+" b => b
                  | _ => t
                  end in
      match parseInt t with
      | Some z =>
          if String.eqb (take_digits body) body then inr z
          else inl (Error ("Conversion failed when converting the nvarchar value '"
                             ++ value ++ "' to data type int."))
      | None =>
          inl (Error ("Conversion failed when converting the nvarchar value '"
                        ++ value ++ "' to data type int."))
      end
  end.

(* ================================================================= *)
(** ** The earlier revision of the service: [processJsonRecords] and its
    [updateOpenRecords]

    The repository keeps an earlier revision of [BatchDataService] beside
    the procedure.  Its [transformExternalData] and [validateRecords] are
    the ones above, word for word; its [updateOpenRecords] has no guard
    and no checks of its own. *)

Module Earlier.

(** What [processJsonRecords] throws on an input that is not an array or
    is an array of records shaped as [ExternalApiRecord]: the
    [HttpException] it creates, or the error of [updateOpenRecords],
    rethrown as it is.  An element whose name or status is neither a
    string nor missing makes [transformExternalData] throw a [TypeError];
    such an element has no value in [ExternalApiRecord.t]. *)
Inductive Thrown : Type :=
| ThrownHttp (e : HttpException)
| ThrownError (e : JsError).

(** One row handed to [table.rows.add]: the fields of the record as they
    are. *)
Record AddedRow : Type := mkAddedRow
  { ar_id : option number;
    ar_name : string;
    ar_value : number;
    ar_status : string;
    ar_updatedAt : JsDate }.

(** [{ updated: stats.UpdatedCount, skipped: stats.SkippedCount }] *)
Record Counts : Type := mkCounts
  { updated : Z;
    skipped : Z }.

Record ProcessReport : Type := mkProcessReport
  { processed : Z;
    process_updated : Z;
    process_skipped : Z;
    process_errors : list string }.

Section EarlierService.
Context `{Host}.
(** The driver's conversion of an added row to the column types of the
    table parameter. *)
Variable bind_added : AddedRow -> string + RecordDataType.
Variable world : World.

(** [record.updatedAt || new Date()]: a [Date] object is truthy, valid or
    not. *)
Definition added_row (index : nat) (record : RecordData.t) : AddedRow :=
  {| ar_id := RecordData.id record;
     ar_name := RecordData.name record;
     ar_value := RecordData.value record;
     ar_status := RecordData.status record;
     ar_updatedAt := match RecordData.updatedAt record with
                     | Some d => d
                     | None => DateAt (clock world index)
                     end |}.

Fixpoint added_rows (index : nat) (records : list RecordData.t)
  : list AddedRow :=
  match records with
  | [] => []
  | record :: rest => added_row index record :: added_rows (S index) rest
  end.

Fixpoint bind_added_rows (rows : list AddedRow)
  : Outcome (list RecordDataType) :=
  match rows with
  | [] => inr []
  | row :: rest =>
      match bind_added row with
      | inl msg => inl (Error msg)
      | inr r =>
          match bind_added_rows rest with
          | inl e => inl e
          | inr rs => inr (r :: rs)
          end
      end
  end.

Definition execute_sp_UpdateOpenRecords (rows : list AddedRow)
  : M (list Stats) :=
  (emit (Execute "sp_UpdateOpenRecords") ;;
   RecordData <- lift (bind_added_rows rows) ;;
   match exec_fault world with
   | Some e => throw e
   | None =>
       fun sys =>
         let '(res, session) :=
           sp_UpdateOpenRecords (update_fault world) RecordData
                                {| table := store sys; open_tran := [] |} in
         (res, {| store := table session; calls := calls sys |})
   end)%js.

(** Reading [stats.UpdatedCount] of a record set without a first row is a
    [TypeError], caught like any other error. *)
Definition updateOpenRecords (records : list RecordData.t) : M Counts :=
  try_catch
    (recordset <- execute_sp_UpdateOpenRecords (added_rows 0 records) ;;
     match recordset with
     | [] =>
         throw (Error "Cannot read properties of undefined (reading 'UpdatedCount')")
     | stats :: _ =>
         ret {| updated := UpdatedCount stats;
                skipped := SkippedCount stats |}
     end)%js
    (fun error =>
       throw (Error ("Failed to update records: " ++ message error))).

(** The [catch] block rethrows what it caught. *)
Definition processJsonRecords (jsonRecords : Body)
  : Sys -> (Thrown + ProcessReport) * Sys :=
  fun sys =>
    match jsonRecords with
    | NotAnArray =>
        (inl (ThrownHttp
                {| http_message := "Invalid input format - expected array";
                   http_status := 400 |}), sys)
    | RecordsArray records =>
        let errors : list string := [] in
        let transformedRecords :=
          transformExternalData (clock world) records in
        let '(validRecords, errors) :=
          validateRecords transformedRecords errors in
        let n := Z.of_nat (List.length records) in
        if (List.length validRecords =? 0)%nat then
          (inr {| processed := n;
                  process_updated := 0;
                  process_skipped := n;
                  process_errors := errors |}, sys)
        else
          match updateOpenRecords validRecords sys with
          | (inr updateResult, sys') =>
              (inr {| processed := n;
                      process_updated := updated updateResult;
                      process_skipped :=
                        skipped updateResult
                        + (n - Z.of_nat (List.length validRecords));
                      process_errors := errors |}, sys')
          | (inl error, sys') => (inl (ThrownError error), sys')
          end
    end.

End EarlierService.

End Earlier.

(** A driver for the examples of the earlier revision: the id must be an
    integer; the other columns are bound as [example_host] binds them. *)
Definition example_bind_added (row : Earlier.AddedRow)
  : string + RecordDataType :=
  match Earlier.ar_id row with
  | None => inl "Invalid number."
  | Some x =>
      match example_bind_Int x with
      | inl msg => inl msg
      | inr id =>
          ExampleHost.bind_row
            {| tr_id := Some id;
               tr_name := Earlier.ar_name row;
               tr_value := Earlier.ar_value row;
               tr_status := Earlier.ar_status row;
               tr_updatedAt := Earlier.ar_updatedAt row |}
      end
  end.


(** The report of the earlier revision on the example feed. *)
Definition example_process_report : Earlier.ProcessReport :=
  {| Earlier.processed := 4;
     Earlier.process_updated := 1;
     Earlier.process_skipped := 3;
     Earlier.process_errors :=
       ["Record 3 (ID: 2): Duplicate ID found at index 1"] |}.

(** ** What the engine may choose, and the failure of a call *)

(** What the engine may do to [target] in the [UPDATE]: a closed row and a
    row that joins no row of the batch are kept; an open row that joins
    takes the four columns from a row of the batch with its id.  When
    several rows of the batch have that id, which one is used is the
    engine's choice. *)
Definition engine_may_write (RecordData : list RecordDataType)
           (target new : Row) : Prop :=
  if isOpen target then
    (exists source,
        In source RecordData
        /\ src_Id source = Id target
        /\ new = set_columns target source)
    \/ ((forall source, In source RecordData -> src_Id source <> Id target)
        /\ new = target)
  else new = target.

(** A table an [UPDATE] that ran to its end may leave, whatever the engine
    chooses. *)
Definition engine_may_update (RecordData : list RecordDataType)
           (rows rows' : list Row) : Prop :=
  Forall2 (engine_may_write RecordData) rows rows'.

(** Two records for the id 1. *)
Definition shared_id_batch : list RecordDataType :=
  [ {| src_Id := 1; src_Name := "First"; src_Value := 100;
       src_Status := "Active"; src_UpdatedAt := 1700000000000 |};
    {| src_Id := 1; src_Name := "Second"; src_Value := 200;
       src_Status := "Active"; src_UpdatedAt := 1700000000001 |} ].

Definition one_open_row : Row :=
  {| Id := 1; Name := "Old"; Value := 0; Status := "New";
     isOpen := true; CreatedAt := Some 1600000000000; UpdatedAt := None |}.

(** The error with which the call of the procedure ends for the records
    [records] on the table of [sys], if it ends with one: the driver
    refuses a row, the call does not reach the procedure, or the engine
    fails inside it. *)
Definition earlier_call_failure
           (bind_added : Earlier.AddedRow -> string + RecordDataType)
           (world : World) (records : list RecordData.t) (sys : Sys)
  : option JsError :=
  match Earlier.bind_added_rows bind_added
          (Earlier.added_rows world 0 records) with
  | inl e => Some e
  | inr RecordData =>
      match exec_fault world with
      | Some e => Some e
      | None => engine_failure (update_fault world) RecordData (store sys)
      end
  end.

(* ================================================================= *)
(** * Properties *)

(** ** Printing an integer and reading it back *)

Lemma take_digits_string_of_uint (d : Decimal.uint) :
  take_digits (NilEmpty.string_of_uint d) = NilEmpty.string_of_uint d.
Proof.
  induction d; simpl; try rewrite IHd; reflexivity.
Qed.

Lemma string_of_uint_cons (d : Decimal.uint) :
  d <> Decimal.Nil ->
  exists c rest, NilEmpty.string_of_uint d = String c rest /\ is_digit c = true.
Proof.
  intros Hd. destruct d; try congruence; simpl; eauto.
Qed.

Lemma parse_magnitude_string_of_uint (d : Decimal.uint) :
  d <> Decimal.Nil ->
  parse_magnitude (NilEmpty.string_of_uint d) = Some (Z.of_uint d).
Proof.
  intros Hd.
  assert (Hdefault :
            match take_digits (NilEmpty.string_of_uint d) with
            | EmptyString => None
            | ds => option_map Z.of_uint (NilEmpty.uint_of_string ds)
            end = Some (Z.of_uint d)).
  { rewrite take_digits_string_of_uint.
    destruct (string_of_uint_cons d Hd) as (c & rest & Hs & _).
    rewrite Hs, <- Hs, NilEmpty.usu. reflexivity. }
  destruct d as [|d|d|d|d|d|d|d|d|d|d]; try congruence; try exact Hdefault.
  destruct d; exact Hdefault.
Qed.

Lemma parseInt_string_of_uint (d : Decimal.uint) :
  d <> Decimal.Nil ->
  parseInt (NilEmpty.string_of_uint d) = Some (Z.of_uint d).
Proof.
  intros Hd. rewrite <- (parse_magnitude_string_of_uint d Hd).
  destruct d; try congruence; reflexivity.
Qed.

Lemma Z_toString_pos (p : positive) :
  Z_toString (Zpos p) = NilEmpty.string_of_uint (Pos.to_uint p).
Proof.
  unfold Z_toString, NilZero.string_of_int, NilZero.string_of_uint. simpl.
  pose proof (DecimalPos.Unsigned.to_uint_nonnil p) as Hn.
  destruct (Pos.to_uint p); congruence.
Qed.

Lemma Z_toString_neg (p : positive) :
  Z_toString (Zneg p) = String "-" (NilEmpty.string_of_uint (Pos.to_uint p)).
Proof.
  unfold Z_toString, NilZero.string_of_int, NilZero.string_of_uint. simpl.
  pose proof (DecimalPos.Unsigned.to_uint_nonnil p) as Hn.
  destruct (Pos.to_uint p); congruence.
Qed.

Lemma Z_of_uint_to_uint (p : positive) : Z.of_uint (Pos.to_uint p) = Zpos p.
Proof.
  unfold Z.of_uint. rewrite DecimalPos.Unsigned.of_to. reflexivity.
Qed.

(** [parseInt(n.toString())] is [n] for every integer [n]. *)
Lemma parseInt_Z_toString (z : Z) : parseInt (Z_toString z) = Some z.
Proof.
  destruct z as [|p|p].
  - reflexivity.
  - rewrite Z_toString_pos, parseInt_string_of_uint
      by apply DecimalPos.Unsigned.to_uint_nonnil.
    now rewrite Z_of_uint_to_uint.
  - rewrite Z_toString_neg.
    unfold parseInt. simpl trimStart. cbv iota beta.
    rewrite parse_magnitude_string_of_uint
      by apply DecimalPos.Unsigned.to_uint_nonnil.
    simpl. now rewrite Z_of_uint_to_uint.
Qed.

Lemma Z_toString_truthy (z : Z) : str_or (Z_toString z) "0" = Z_toString z.
Proof.
  unfold str_or.
  destruct z as [|p|p]; [reflexivity | |].
  - rewrite Z_toString_pos.
    destruct (string_of_uint_cons _ (DecimalPos.Unsigned.to_uint_nonnil p))
      as (c & rest & -> & _).
    reflexivity.
  - rewrite Z_toString_neg. reflexivity.
Qed.

Lemma parseInt_count (z : Z) : parseInt (str_or (Z_toString z) "0") = Some z.
Proof.
  rewrite Z_toString_truthy. apply parseInt_Z_toString.
Qed.

(* ================================================================= *)
(** ** The bulk update on the table *)

Lemma update_row_frame (RecordData : list RecordDataType) (target : Row) :
  row_frame RecordData target (fst (update_row RecordData target)).
Proof.
  unfold row_frame, update_row, joined.
  destruct (isOpen target) eqn:Hopen.
  - destruct (find _ RecordData) as [source|] eqn:Hfind; simpl.
    + apply find_some in Hfind. destruct Hfind as [Hin Heq].
      apply Z.eqb_eq in Heq.
      repeat split; auto; try congruence.
      exists source. split; [assumption | congruence].
    + repeat split; auto; congruence.
  - simpl. repeat split; auto; congruence.
Qed.

Lemma updated_table_frame (RecordData : list RecordDataType) (rows : list Row) :
  Forall2 (row_frame RecordData) rows (updated_table RecordData rows).
Proof.
  induction rows as [|target rest IH]; simpl; constructor; auto.
  apply update_row_frame.
Qed.

Lemma row_frame_closed_kept RecordData old new :
  row_frame RecordData old new -> closed_kept old new.
Proof.
  unfold row_frame, closed_kept. tauto.
Qed.

Lemma closed_kept_refl (rows : list Row) : Forall2 closed_kept rows rows.
Proof.
  induction rows; constructor; auto. split; auto.
Qed.

Lemma updated_table_closed_kept RecordData rows :
  Forall2 closed_kept rows (updated_table RecordData rows).
Proof.
  eapply Forall2_impl; [| apply updated_table_frame].
  intros old new. apply row_frame_closed_kept.
Qed.

Lemma updated_count_cons RecordData target rest :
  updated_count RecordData (target :: rest)
  = (if snd (update_row RecordData target) then 1 else 0)
    + updated_count RecordData rest.
Proof.
  unfold updated_count. simpl.
  destruct (snd (update_row RecordData target)); simpl List.length; lia.
Qed.

(** An [UPDATE] that runs to its end writes every eligible row and reports
    their number; one that fails has written only rows before the failure,
    and the same frame holds for what it wrote. *)
Lemma update_from_spec fault RecordData rows : forall index,
  match update_from fault RecordData index rows with
  | (inr n, rows') =>
      rows' = updated_table RecordData rows
      /\ n = updated_count RecordData rows
  | (inl _, rows') => Forall2 (row_frame RecordData) rows rows'
  end.
Proof.
  induction rows as [|target rest IH]; intros index; simpl.
  - split; reflexivity.
  - destruct (strikes fault index) as [e|].
    + constructor.
      * unfold row_frame. repeat split; auto; congruence.
      * clear. induction rest; constructor; auto.
        unfold row_frame. repeat split; auto; congruence.
    + pose proof (update_row_frame RecordData target) as Hrow.
      destruct (update_row RecordData target) as [row' hit] eqn:Hu.
      specialize (IH (S index)).
      destruct (update_from fault RecordData (S index) rest) as [[e|n] rest'].
      * constructor; assumption.
      * destruct IH as [-> ->]. split.
        -- unfold updated_table. cbn [map]. reflexivity.
        -- rewrite updated_count_cons, Hu. reflexivity.
Qed.

(** The number of rows an [UPDATE] reports lies between zero and the size
    of the table. *)
Lemma updated_count_bounds RecordData rows :
  0 <= updated_count RecordData rows <= Z.of_nat (List.length rows).
Proof.
  unfold updated_count. split; [lia |].
  apply Nat2Z.inj_le, filter_length_le.
Qed.

(** The procedure, called in a session with no open transaction: either
    the engine did not fail, every eligible row is written, the
    transaction is committed and the statistics are returned; or the
    engine failed, the table is the one the procedure started from, no
    transaction is left open and the error is the one the engine raised. *)
Lemma sp_UpdateOpenRecords_spec fault RecordData rows :
  sp_UpdateOpenRecords fault RecordData {| table := rows; open_tran := [] |}
  = match engine_failure fault RecordData rows with
    | None =>
        (inr [stats_of RecordData rows],
         {| table := updated_table RecordData rows; open_tran := [] |})
    | Some e => (inl e, {| table := rows; open_tran := [] |})
    end.
Proof.
  unfold sp_UpdateOpenRecords, engine_failure, TRY_CATCH, sql_bind,
    BEGIN_TRANSACTION, UPDATE_target, COMMIT_TRANSACTION, TRANCOUNT,
    ROLLBACK_TRANSACTION, THROW, sql_ret.
  cbn [table open_tran].
  pose proof (update_from_spec fault RecordData rows 0%nat) as Hspec.
  destruct (update_from fault RecordData 0 rows) as [[e|n] rows'];
    cbn [fst table open_tran].
  - reflexivity.
  - destruct Hspec as [-> ->]. destruct fault; reflexivity.
Qed.

(* ================================================================= *)
(** ** The service on top of the store *)

Lemma logged_logged sys evs evs' :
  logged (logged sys evs) evs' = logged sys (evs ++ evs').
Proof.
  unfold logged. simpl. now rewrite app_assoc.
Qed.

Section ServiceFacts.
Context `{Host}.
Variable world : World.

Lemma tableRows_length records : forall index rows,
  tableRows world index records = inr rows ->
  List.length rows = List.length records.
Proof.
  induction records as [|record rest IH]; intros index rows; simpl.
  - intros [= <-]. reflexivity.
  - destruct (tableRow world index record); [discriminate |].
    destruct (tableRows world (S index) rest) eqn:Hrest; [discriminate |].
    intros [= <-]. simpl. f_equal. eauto.
Qed.

Lemma bind_rows_length rows : forall RecordData,
  bind_rows rows = inr RecordData ->
  List.length RecordData = List.length rows.
Proof.
  induction rows as [|row rest IH]; intros RecordData; simpl.
  - intros [= <-]. reflexivity.
  - destruct (bind_row row); [discriminate |].
    destruct (bind_rows rest); [discriminate |].
    intros [= <-]. simpl. f_equal. eauto.
Qed.

(** The call of the procedure through the driver. *)
Lemma execute_sp_UpdateOpenRecords_spec rows sys :
  execute_sp_UpdateOpenRecords world rows sys
  = let sys1 := logged sys [Execute "sp_UpdateOpenRecords"] in
    match bind_rows rows with
    | inl e => (inl e, sys1)
    | inr RecordData =>
        match exec_fault world with
        | Some e => (inl e, sys1)
        | None =>
            match engine_failure (update_fault world) RecordData (store sys) with
            | None =>
                (inr [stats_of RecordData (store sys)],
                 {| store := updated_table RecordData (store sys);
                    calls := calls sys1 |})
            | Some e => (inl e, sys1)
            end
        end
    end.
Proof.
  unfold execute_sp_UpdateOpenRecords, bind, emit, lift, throw, logged.
  cbn [store calls].
  destruct (bind_rows rows) as [e|RecordData]; [reflexivity |].
  destruct (exec_fault world); [reflexivity |].
  rewrite sp_UpdateOpenRecords_spec.
  destruct (engine_failure _ _ _); reflexivity.
Qed.

Lemma updateOpenRecords_catch_throws {A} error sys :
  exists e, @updateOpenRecords_catch A error sys = (inl e, sys).
Proof.
  unfold updateOpenRecords_catch, throw.
  destruct (includes _ "RecordDataType"); [eauto |].
  destruct (includes _ "sp_UpdateOpenRecords"); eauto.
Qed.

(** The [catch] block of [updateOpenRecords] has caught [e]: it throws,
    and the state is the one it found. *)
Ltac caught e :=
  match goal with
  | |- context [updateOpenRecords_catch e ?sys] =>
      let e' := fresh "e'" in
      destruct (@updateOpenRecords_catch_throws UpdateResult e sys)
        as [e' ->];
      auto
  end.

(** Every run of [updateOpenRecords] ends in exactly one of three ways. *)
Lemma updateOpenRecords_outcome records sys :
  match updateOpenRecords world records sys with
  | (inr result, sys') =>
      ((records = None \/ records = Some [])
       /\ sys' = sys
       /\ result = {| updated := Some 0; skipped := Some 0 |})
      \/ (exists batch,
             records = Some batch /\ batch <> []
             /\ batch_applied world batch sys sys' result)
  | (inl _, sys') =>
      store sys' = store sys
      /\ (sys' = sys \/ sys' = logged sys [Execute "sp_UpdateOpenRecords"])
  end.
Proof.
  destruct records as [[|record rest]|]; cbn [updateOpenRecords ret].
  - left. auto.
  - set (batch := record :: rest).
    unfold try_catch, bind, lift.
    destruct (tableRows world 0 batch) as [e|rows] eqn:Hrows.
    + caught e.
    + rewrite execute_sp_UpdateOpenRecords_spec. cbv zeta.
      destruct (bind_rows rows) as [e|RecordData] eqn:Hbind; [caught e |].
      destruct (exec_fault world) as [e|] eqn:Hexec; [caught e |].
      destruct (engine_failure _ _ _) as [e|] eqn:Hengine; [caught e |].
      cbn [ret stats_of UpdatedCount SkippedCount].
      rewrite !parseInt_count. right.
      exists batch. repeat split; [subst batch; discriminate |].
      exists rows, RecordData. cbn [store calls updated skipped logged].
      repeat split; auto.
      rewrite (bind_rows_length _ _ Hbind), (tableRows_length _ _ _ Hrows).
      reflexivity.
  - left. auto.
Qed.

End ServiceFacts.

Lemma queries_not_mutating (qs : list Event) :
  forallb is_catalog_query qs = true -> existsb mutating qs = false.
Proof.
  induction qs as [|q qs IH]; [reflexivity |].
  simpl. intros Hqs. apply andb_prop in Hqs. destruct Hqs as [Hq Hqs].
  destruct q; try discriminate. simpl. auto.
Qed.

Section PipelineFacts.
Context `{Host}.
Variable world : World.

Lemma query_spec {A} (n : nat) (answer : A) sys :
  query world n answer sys
  = (match query_fault world n with
     | Some e => inl e
     | None => inr answer
     end, logged sys [CatalogQuery n]).
Proof.
  unfold query, bind, emit, throw, ret, logged.
  destruct (query_fault world n); reflexivity.
Qed.

(** The verification never throws, never writes to the table, and makes
    catalog queries only. *)
Lemma verifyDatabaseObjects_total sys :
  exists v qs,
    verifyDatabaseObjects world sys = (inr v, logged sys qs)
    /\ forallb is_catalog_query qs = true.
Proof.
  unfold verifyDatabaseObjects, bind, attempt, verification_failed, ret.
  rewrite query_spec.
  destruct (query_fault world 0).
  { eexists _, _. split; reflexivity. }
  rewrite query_spec, logged_logged.
  destruct (query_fault world 1).
  { eexists _, _. split; reflexivity. }
  cbn [storedProcExists].
  destruct (Z.ltb 0 (count_named "sp_UpdateOpenRecords" _)).
  2:{ eexists _, _. split; reflexivity. }
  rewrite query_spec, logged_logged.
  destruct (query_fault world 2).
  { eexists _, _. split; reflexivity. }
  destruct (find _ (parameters_of world "sp_UpdateOpenRecords"));
    eexists _, _; split; reflexivity.
Qed.

(** A verification that found the table type or the procedure missing
    has an issue to report. *)
Lemma missing_objects_reported sys v sys1 :
  verifyDatabaseObjects world sys = (inr v, sys1) ->
  tableTypeExists v = false \/ storedProcExists v = false ->
  issues v <> [].
Proof.
  unfold verifyDatabaseObjects, bind, attempt, verification_failed, ret.
  rewrite query_spec.
  destruct (query_fault world 0).
  { intros [= <- _] _. discriminate. }
  rewrite query_spec.
  destruct (Z.ltb 0 (count_named "RecordDataType" _)) eqn:Etype;
    (destruct (query_fault world 1);
     [ intros [= <- _] _; cbn; try discriminate;
       intros E; apply app_eq_nil in E; destruct E; discriminate |]);
    cbn [storedProcExists tableTypeExists issues negb push_if];
    (destruct (Z.ltb 0 (count_named "sp_UpdateOpenRecords" _)) eqn:Eproc;
     [ rewrite query_spec; destruct (query_fault world 2);
       [| destruct (find _ (parameters_of world "sp_UpdateOpenRecords"))
            as [param|];
          [destruct (String.eqb (p_type_name param) "RecordDataType") |] ]
     |]);
    intros [= <- _]; cbn; intros [|]; try discriminate.
Qed.

(** The run, one case per way through [fetchAndUpdateRecords]. *)
Lemma fetchAndUpdateRecords_cases apiUrl apiHeaders sys :
  exists v qs,
    verifyDatabaseObjects world sys = (inr v, logged sys qs)
    /\ forallb is_catalog_query qs = true
    /\ fetchAndUpdateRecords world apiUrl apiHeaders sys
       = match issues v with
         | _ :: _ =>
             (inr {| fetched := 0;
                     report_updated := Some 0;
                     report_skipped := Some 0;
                     errors := issues v |}, logged sys qs)
         | [] =>
             let sys2 := logged sys (qs ++ [HttpGet apiUrl]) in
             match feed world apiUrl (headers_or_empty apiHeaders) with
             | inl e => (inl (fetch_catch e), sys2)
             | inr NotAnArray =>
                 (inl (fetch_catch (Error "Invalid API response format")), sys2)
             | inr (RecordsArray externalRecords) =>
                 let vr :=
                   validateRecords
                     (transformExternalData (clock world) externalRecords) [] in
                 let n := Z.of_nat (List.length externalRecords) in
                 if (List.length (fst vr) =? 0)%nat then
                   (inr {| fetched := n;
                           report_updated := Some 0;
                           report_skipped := Some n;
                           errors := snd vr |}, sys2)
                 else
                   match updateOpenRecords world (Some (fst vr)) sys2 with
                   | (inr updateResult, sys3) =>
                       (inr {| fetched := n;
                               report_updated := updated updateResult;
                               report_skipped :=
                                 int_add (skipped updateResult)
                                   (Some (n - Z.of_nat (List.length (fst vr))));
                               errors := snd vr |}, sys3)
                   | (inl e, sys3) => (inl (fetch_catch e), sys3)
                   end
             end
         end.
Proof.
  destruct (verifyDatabaseObjects_total sys) as (v & qs & Hv & Hqs).
  exists v, qs. split; [assumption |]. split; [assumption |].
  unfold fetchAndUpdateRecords, fetch_try, bind. rewrite Hv.
  destruct (issues v) as [|issue more].
  - unfold emit, lift. cbn [store calls].
    change {| store := store (logged sys qs);
              calls := calls (logged sys qs) ++ [HttpGet apiUrl] |}
      with (logged (logged sys qs) [HttpGet apiUrl]).
    rewrite logged_logged.
    destruct (feed world apiUrl (headers_or_empty apiHeaders)) as [e|[|ext]];
      try reflexivity.
    cbv zeta.
    destruct (validateRecords _ []) as [validRecords errs]. cbn [fst snd].
    destruct (List.length validRecords =? 0)%nat; [reflexivity |].
    destruct (updateOpenRecords world (Some validRecords) _) as [[e|r] sys3];
      reflexivity.
  - reflexivity.
Qed.

End PipelineFacts.

(* ================================================================= *)
(** ** The validator *)

Lemma findIndex_None {A} (p : A -> bool) (xs : list A) :
  findIndex p xs = None <-> existsb p xs = false.
Proof.
  induction xs as [|x xs IH]; simpl; [tauto |].
  destruct (p x); simpl; [split; discriminate |].
  destruct (findIndex p xs); simpl.
  - split; [discriminate |]. intros E. apply IH in E. discriminate.
  - tauto.
Qed.

Lemma push_if_nil c msg errs :
  push_if c msg errs = [] -> c = false /\ errs = [].
Proof.
  unfold push_if. destruct c; [| auto].
  intros E. apply app_eq_nil in E. destruct E; discriminate.
Qed.

Lemma In_push_if x c msg errs :
  In x (push_if c msg errs) -> In x errs \/ (c = true /\ x = msg).
Proof.
  unfold push_if. destruct c; [| auto].
  intros Hin. apply in_app_or in Hin. destruct Hin as [|[<-|[]]]; auto.
Qed.

Lemma recordErrors_nil validRecords record :
  recordErrors validRecords record = [] <->
  fieldErrors record = [] /\ already_accepted validRecords record = false.
Proof.
  unfold recordErrors, already_accepted.
  rewrite <- findIndex_None.
  destruct (findIndex _ validRecords) as [k|].
  - split.
    + intros E. apply app_eq_nil in E. destruct E; discriminate.
    + intros [_ E]. discriminate.
  - tauto.
Qed.

Lemma accepted_step_spec validRecords record :
  accepted_step validRecords record
  = validRecords
    ++ (if no_errors (fieldErrors record)
           && negb (already_accepted validRecords record)
        then [record] else []).
Proof.
  unfold accepted_step.
  destruct (recordErrors validRecords record) as [|e es] eqn:E.
  - apply recordErrors_nil in E. destruct E as [-> ->]. reflexivity.
  - destruct (fieldErrors record) eqn:Ef; simpl; [| now rewrite app_nil_r].
    destruct (already_accepted validRecords record) eqn:Ea; simpl;
      [now rewrite app_nil_r |].
    assert (recordErrors validRecords record = []) as E'
        by (apply recordErrors_nil; auto).
    congruence.
Qed.

Lemma fieldErrors_nil_value record :
  fieldErrors record = [] -> isNaN (RecordData.value record) = false.
Proof.
  unfold fieldErrors. intros E.
  apply push_if_nil in E. destruct E as [_ E].
  apply push_if_nil in E. tauto.
Qed.

Section ValidatorFacts.
Context `{Host}.

Lemma validateStep_fst st index record :
  fst (validateStep st index record) = accepted_step (fst st) record.
Proof.
  destruct st as [validRecords errors]. unfold validateStep, accepted_step.
  cbn [fst]. destruct (recordErrors validRecords record); reflexivity.
Qed.

(** The accepted records depend neither on the position counter nor on the
    errors collected so far. *)
Lemma validate_from_fst records : forall index st,
  fst (validate_from index records st)
  = fold_left accepted_step records (fst st).
Proof.
  induction records as [|record rest IH]; intros index st; simpl.
  - reflexivity.
  - rewrite IH, validateStep_fst. reflexivity.
Qed.

Lemma validateRecords_fst records errors :
  fst (validateRecords records errors) = fold_left accepted_step records [].
Proof.
  unfold validateRecords. now rewrite validate_from_fst.
Qed.

End ValidatorFacts.

(** Records are only ever added at the end of the accepted list. *)
Lemma fold_accepted_extends records : forall validRecords,
  exists rest,
    fold_left accepted_step records validRecords = validRecords ++ rest.
Proof.
  induction records as [|record more IH]; intros validRecords; simpl.
  - exists []. now rewrite app_nil_r.
  - destruct (IH (accepted_step validRecords record)) as [rest ->].
    rewrite accepted_step_spec, <- app_assoc. eauto.
Qed.

Lemma ForallOrdPairs_snoc {A} (R : A -> A -> Prop) (xs : list A) (x : A) :
  ForallOrdPairs R xs -> Forall (fun a => R a x) xs ->
  ForallOrdPairs R (xs ++ [x]).
Proof.
  induction 1 as [|a xs Ha Hxs IH]; intros Hx; simpl.
  - repeat constructor.
  - inversion Hx as [|? ? Hax Hrest]; subst.
    constructor; [| auto].
    apply Forall_app. split; [assumption |]. constructor; auto.
Qed.

Lemma fold_accepted_distinct records : forall validRecords,
  ForallOrdPairs distinct_ids validRecords ->
  ForallOrdPairs distinct_ids (fold_left accepted_step records validRecords).
Proof.
  induction records as [|record more IH]; intros validRecords Hv; simpl.
  - assumption.
  - apply IH. unfold accepted_step.
    destruct (recordErrors validRecords record) eqn:E; [| assumption].
    apply recordErrors_nil in E. destruct E as [_ E].
    apply ForallOrdPairs_snoc; [assumption |].
    unfold already_accepted in E.
    apply Forall_forall. intros a Ha.
    destruct (id_strict_eq (RecordData.id a) (RecordData.id record)) eqn:Eid;
      [| assumption].
    assert (existsb (fun r => id_strict_eq (RecordData.id r) (RecordData.id record))
                    validRecords = true) as Hex
        by (apply existsb_exists; eauto).
    congruence.
Qed.

Lemma fold_accepted_field_ok records : forall validRecords,
  Forall (fun r => fieldErrors r = []) validRecords ->
  Forall (fun r => fieldErrors r = [])
         (fold_left accepted_step records validRecords).
Proof.
  induction records as [|record more IH]; intros validRecords Hv; simpl.
  - assumption.
  - apply IH. unfold accepted_step.
    destruct (recordErrors validRecords record) eqn:E; [| assumption].
    apply recordErrors_nil in E. destruct E as [E _].
    apply Forall_app. split; [assumption |]. constructor; auto.
Qed.

(** ** Strict equality of ids *)

Lemma SFcompare_Eq_inv s1 m1 e1 s2 m2 e2 :
  SFcompare (S754_finite s1 m1 e1) (S754_finite s2 m2 e2) = Some Eq ->
  s1 = s2 /\ m1 = m2 /\ e1 = e2.
Proof.
  cbn [SFcompare].
  destruct s1, s2; try discriminate;
    destruct (Z.compare e1 e2) eqn:He; try discriminate;
    apply Z.compare_eq_iff in He;
    destruct (Pos.compare_cont Eq m1 m2) eqn:Hm; try discriminate;
    apply Pos.compare_eq in Hm; auto.
Qed.

Lemma SFcompare_refl_finite s m e :
  SFcompare (S754_finite s m e) (S754_finite s m e) = Some Eq.
Proof.
  cbn [SFcompare]. rewrite Z.compare_refl.
  change (Pos.compare_cont Eq m m) with (Pos.compare m m).
  rewrite Pos.compare_refl. destruct s; reflexivity.
Qed.

(** [==] on numbers is transitive: [NaN] equals nothing, the two zeros
    equal each other, and every other number equals itself only. *)
Lemma SFeqb_trans a b c :
  SFeqb a b = true -> SFeqb b c = true -> SFeqb a c = true.
Proof.
  unfold SFeqb.
  destruct (SFcompare a b) as [[| |]|] eqn:Hab; try discriminate.
  destruct (SFcompare b c) as [[| |]|] eqn:Hbc; try discriminate.
  intros _ _.
  destruct a as [sa|sa| |sa ma ea], b as [sb|sb| |sb mb eb];
    try (cbn in Hab; discriminate);
    try (cbn in Hab; destruct sa; discriminate);
    try (cbn in Hab; destruct sb; discriminate);
    destruct c as [sc|sc| |sc mc ec];
    try (cbn in Hbc; discriminate);
    try (cbn in Hbc; destruct sb; discriminate);
    try (cbn in Hbc; destruct sc; discriminate);
    try reflexivity.
  - destruct sa, sb, sc; cbn in *; try discriminate; reflexivity.
  - apply SFcompare_Eq_inv in Hab. apply SFcompare_Eq_inv in Hbc.
    destruct Hab as (-> & -> & ->). destruct Hbc as (-> & -> & ->).
    now rewrite SFcompare_refl_finite.
Qed.

Lemma id_strict_eq_trans a b c :
  id_strict_eq a b = true -> id_strict_eq b c = true ->
  id_strict_eq a c = true.
Proof.
  destruct a as [x|], b as [y|], c as [z|]; simpl; try discriminate; auto.
  rewrite !eqb_spec. apply SFeqb_trans.
Qed.

Lemma subsequence_In {A} (xs ys : list A) (x : A) :
  subsequence xs ys -> In x xs -> In x ys.
Proof.
  induction 1; simpl; intuition.
Qed.

Lemma already_accepted_app validRecords more record :
  already_accepted (validRecords ++ more) record
  = already_accepted validRecords record || already_accepted more record.
Proof.
  unfold already_accepted. apply existsb_app.
Qed.

Lemma already_accepted_true validRecords record :
  already_accepted validRecords record = true <->
  exists r, In r validRecords
            /\ id_strict_eq (RecordData.id r) (RecordData.id record) = true.
Proof.
  unfold already_accepted. apply existsb_exists.
Qed.

Lemma no_errors_true errs : no_errors errs = true <-> errs = [].
Proof.
  destruct errs; simpl; split; congruence.
Qed.

(** An id is taken after the records [records] exactly when it was taken
    before them or one of them, with passing fields, has it. *)
Lemma fold_accepted_taken records : forall validRecords record,
  already_accepted (fold_left accepted_step records validRecords) record
  = true
  <-> already_accepted validRecords record = true
      \/ exists earlier,
          In earlier records
          /\ fieldErrors earlier = []
          /\ id_strict_eq (RecordData.id earlier) (RecordData.id record)
             = true.
Proof.
  induction records as [|r more IH]; intros validRecords record; simpl.
  - split; [auto | intros [E | (e & [] & _)]; exact E].
  - rewrite IH, accepted_step_spec, already_accepted_app.
    rewrite orb_true_iff.
    destruct (no_errors (fieldErrors r)) eqn:Hok; cbn [andb].
    + apply no_errors_true in Hok.
      destruct (already_accepted validRecords r) eqn:Hdup; cbn [negb].
      * split.
        -- intros [[E | E] | (e & Hin & He)]; [auto | discriminate |].
           right. exists e. tauto.
        -- intros [E | (e & [<- | Hin] & Hf & Hid)]; [auto | |].
           ++ left. left. apply already_accepted_true.
              apply already_accepted_true in Hdup.
              destruct Hdup as (a & Ha & Har). exists a.
              split; [assumption |].
              eapply id_strict_eq_trans; eassumption.
           ++ right. exists e. auto.
      * unfold already_accepted at 2. cbn [existsb]. rewrite orb_false_r.
        split.
        -- intros [[E | E] | (e & Hin & He)]; [auto | |].
           ++ right. exists r. auto.
           ++ right. exists e. tauto.
        -- intros [E | (e & [<- | Hin] & Hf & Hid)]; [auto | auto |].
           right. exists e. auto.
    + assert (fieldErrors r <> []) as Hbad
          by (intros E; apply no_errors_true in E; congruence).
      split.
      * intros [[E | E] | (e & Hin & He)]; [auto | discriminate |].
        right. exists e. tauto.
      * intros [E | (e & [<- | Hin] & Hf & Hid)]; [auto | contradiction |].
        right. exists e. auto.
Qed.

Lemma subsequence_refl {A} (xs : list A) : subsequence xs xs.
Proof.
  induction xs; constructor; assumption.
Qed.

Lemma fold_accepted_subsequence records : forall validRecords,
  exists kept,
    fold_left accepted_step records validRecords = validRecords ++ kept
    /\ subsequence kept records.
Proof.
  induction records as [|record more IH]; intros validRecords; simpl.
  - exists []. rewrite app_nil_r. split; [reflexivity | constructor].
  - destruct (IH (accepted_step validRecords record)) as (kept & -> & Hsub).
    rewrite accepted_step_spec, <- app_assoc.
    destruct (no_errors (fieldErrors record)
              && negb (already_accepted validRecords record)).
    + exists (record :: kept). split; [reflexivity | now constructor].
    + exists kept. split; [reflexivity | now constructor].
Qed.

(* ================================================================= *)
(** * The specification's claims, C1 to C10 *)

Lemma row_frame_refl RecordData (rows : list Row) :
  Forall2 (row_frame RecordData) rows rows.
Proof.
  induction rows; constructor; auto.
  unfold row_frame. repeat split; auto; congruence.
Qed.

(** C1.  The bulk update only writes open rows.  For the procedure, run
    in a session of its own on any table, with any batch and whether or
    not the engine fails: every row is related to the row at its position
    afterwards by [row_frame], so a row whose [isOpen] is false is the
    same row afterwards, [isOpen] and [Id] are never written, and a row
    that did change was open and is joined to the batch.  For
    [updateOpenRecords], whatever the records and however the call ends:
    every closed row of the table is the same row afterwards. *)
Theorem bulk_update_keeps_closed_rows `{Host} (world : World) :
  (forall fault RecordData rows,
      Forall2 (row_frame RecordData) rows
        (table (snd (sp_UpdateOpenRecords fault RecordData
                       {| table := rows; open_tran := [] |}))))
  /\ (forall records sys,
         Forall2 closed_kept (store sys)
           (store (snd (updateOpenRecords world records sys)))).
Proof.
  split.
  - intros fault RecordData rows. rewrite sp_UpdateOpenRecords_spec.
    destruct (engine_failure fault RecordData rows); cbn [snd table].
    + apply row_frame_refl.
    + apply updated_table_frame.
  - intros records sys.
    pose proof (updateOpenRecords_outcome world records sys) as Hout.
    destruct (updateOpenRecords world records sys) as [[e|result] sys'];
      cbn [snd].
    + destruct Hout as [-> _]. apply closed_kept_refl.
    + destruct Hout as [(_ & -> & _) | (batch & _ & _ & Happlied)].
      * apply closed_kept_refl.
      * destruct Happlied as (rows & RecordData & _ & _ & _ & _ & -> & _).
        apply updated_table_closed_kept.
Qed.

(** C2.  The bulk update is all or nothing.  The engine may fail at any
    row of the [UPDATE], having written the rows before it, or at the
    [COMMIT].  The procedure either writes every eligible row, commits and
    returns its statistics, or, when the engine fails, leaves the table it
    started from, leaves no transaction open and raises the engine's
    error.
    [updateOpenRecords] returns only when there was nothing to do, the
    state being as it was, or when the call of the procedure did not fail
    and the whole batch is applied; otherwise it throws, with the table as
    it was.  [fetchAndUpdateRecords] returns a report only when no
    mutating call was made or when one whole batch is applied; otherwise
    it throws, with the table as it was.  So a failure of the store is
    never answered with a result. *)
Theorem bulk_update_atomic `{Host} (world : World) :
  (forall fault RecordData rows,
      let run := sp_UpdateOpenRecords fault RecordData
                   {| table := rows; open_tran := [] |} in
      (engine_failure fault RecordData rows = None
       /\ fst run = inr [stats_of RecordData rows]
       /\ snd run = {| table := updated_table RecordData rows;
                       open_tran := [] |})
      \/ (exists e,
             engine_failure fault RecordData rows = Some e
             /\ fst run = inl e
             /\ snd run = {| table := rows; open_tran := [] |}))
  /\ (forall records sys,
         match updateOpenRecords world records sys with
         | (inr result, sys') =>
             ((records = None \/ records = Some []) /\ sys' = sys)
             \/ (exists batch,
                    records = Some batch
                    /\ batch_applied world batch sys sys' result)
         | (inl _, sys') => store sys' = store sys
         end)
  /\ (forall apiUrl apiHeaders sys,
         match fetchAndUpdateRecords world apiUrl apiHeaders sys with
         | (inr report, sys') =>
             (exists evs, sys' = logged sys evs /\ existsb mutating evs = false)
             \/ (exists batch sys2 result,
                    store sys2 = store sys
                    /\ batch_applied world batch sys2 sys' result
                    /\ report_updated report = updated result)
         | (inl _, sys') => store sys' = store sys
         end).
Proof.
  split; [| split].
  - intros fault RecordData rows run. subst run.
    rewrite sp_UpdateOpenRecords_spec.
    destruct (engine_failure fault RecordData rows) as [e|].
    + right. exists e. auto.
    + left. auto.
  - intros records sys.
    pose proof (updateOpenRecords_outcome world records sys) as Hout.
    destruct (updateOpenRecords world records sys) as [[e|result] sys'].
    + tauto.
    + destruct Hout as [(Hnone & -> & _) | (batch & -> & _ & Happlied)]; eauto.
  - intros apiUrl apiHeaders sys.
    destruct (fetchAndUpdateRecords_cases world apiUrl apiHeaders sys)
      as (v & qs & _ & Hqs & ->).
    apply queries_not_mutating in Hqs.
    assert (Hget : existsb mutating (qs ++ [HttpGet apiUrl]) = false)
      by (rewrite existsb_app, Hqs; reflexivity).
    destruct (issues v); [| left; eauto].
    cbv zeta.
    destruct (feed world apiUrl (headers_or_empty apiHeaders)) as [e|[|ext]];
      try reflexivity.
    destruct (List.length _ =? 0)%nat; [left; eauto |].
    set (sys2 := logged sys (qs ++ [HttpGet apiUrl])).
    pose proof (updateOpenRecords_outcome world
                  (Some (fst (validateRecords
                                (transformExternalData (clock world) ext) [])))
                  sys2) as Hout.
    destruct (updateOpenRecords world _ sys2) as [[e|result] sys3].
    + destruct Hout as [-> _]. reflexivity.
    + destruct Hout as [(_ & -> & _) | (batch & _ & _ & Happlied)].
      * left. exists (qs ++ [HttpGet apiUrl]). auto.
      * right. exists batch, sys2, result. auto.
Qed.

(** C3.  After a run that returns a report, the report's [updated] and
    [skipped] add up to its [fetched]; and [fetched] is the number of
    records the feed returned, unless the run stopped at the verification,
    where it is 0. *)
Theorem report_counts_add_up `{Host} (world : World) apiUrl apiHeaders sys
        report sys' :
  fetchAndUpdateRecords world apiUrl apiHeaders sys = (inr report, sys') ->
  int_add (report_updated report) (report_skipped report)
  = Some (fetched report)
  /\ (fetched report = 0
      \/ exists externalRecords,
          feed world apiUrl (headers_or_empty apiHeaders)
          = inr (RecordsArray externalRecords)
          /\ fetched report = Z.of_nat (List.length externalRecords)).
Proof.
  destruct (fetchAndUpdateRecords_cases world apiUrl apiHeaders sys)
    as (v & qs & _ & _ & ->).
  destruct (issues v).
  2:{ intros [= <- <-]. cbn. auto. }
  cbv zeta.
  destruct (feed world apiUrl (headers_or_empty apiHeaders)) as [e|[|ext]];
    try discriminate.
  destruct (List.length _ =? 0)%nat eqn:Hlen.
  { intros [= <- <-]. cbn. split; [f_equal; lia | eauto]. }
  set (sys2 := logged sys (qs ++ [HttpGet apiUrl])).
  set (validRecords :=
         fst (validateRecords (transformExternalData (clock world) ext) [])) in *.
  pose proof (updateOpenRecords_outcome world (Some validRecords) sys2) as Hout.
  destruct (updateOpenRecords world (Some validRecords) sys2)
    as [[e|result] sys3]; [discriminate |].
  intros [= <- <-]. cbn [report_updated report_skipped fetched].
  split; [| eauto].
  destruct Hout as [([[=] | [= Hnil]] & _) | (batch & [= <-] & _ & Happlied)].
  - rewrite Hnil in Hlen. discriminate.
  - destruct Happlied
      as (rows & RecordData & _ & _ & _ & _ & _ & _ & -> & ->).
    cbn. f_equal. lia.
Qed.

(** The run of [run_example] below returns a report; its counts add up to
    the four records of the feed. *)
Lemma report_counts_add_up_witness :
  exists report sys',
    fetchAndUpdateRecords example_world "https://feed.example/records" None
                          example_sys = (inr report, sys')
    /\ int_add (report_updated report) (report_skipped report)
       = Some (fetched report)
    /\ fetched report = 4.
Proof.
  eexists _, _.
  assert (E : fetchAndUpdateRecords example_world
                "https://feed.example/records" None example_sys
              = (fst (fetchAndUpdateRecords example_world
                        "https://feed.example/records" None example_sys),
                 snd (fetchAndUpdateRecords example_world
                        "https://feed.example/records" None example_sys)))
    by (destruct (fetchAndUpdateRecords _ _ _ _); reflexivity).
  revert E. vm_compute. intros E.
  split; [exact E |].
  split; [| reflexivity].
  exact (proj1 (report_counts_add_up example_world _ None example_sys _ _ E)).
Defined.


(** C4, as the code has it.  No two accepted records have the same id
    (for every pair, the earlier one's id is not [===] the later one's).
    A record is compared with the records accepted before it, not with
    the whole batch.  Nothing is accepted of an empty batch; when a
    record's turn comes it is accepted exactly when its own fields pass
    and no record accepted so far has its id; what was accepted before
    stays, and what is accepted later comes from the later records.  An
    id is taken by the accepted records exactly when a record of the
    batch so far with passing fields has it.  So at most one occurrence
    of an id is accepted, and it is the first one whose fields pass. *)
Theorem accepted_ids_unique `{Host} :
  (forall records errors,
      ForallOrdPairs distinct_ids (fst (validateRecords records errors)))
  /\ (forall errors, fst (validateRecords [] errors) = [])
  /\ (forall before record after errors,
         let validRecords := fst (validateRecords before errors) in
         exists rest,
           fst (validateRecords (before ++ record :: after) errors)
           = validRecords
             ++ (if no_errors (fieldErrors record)
                    && negb (already_accepted validRecords record)
                 then [record] else [])
             ++ rest
           /\ subsequence rest after)
  /\ (forall before record errors,
         already_accepted (fst (validateRecords before errors)) record = true
         <-> exists earlier,
             In earlier before
             /\ fieldErrors earlier = []
             /\ id_strict_eq (RecordData.id earlier) (RecordData.id record)
                = true).
Proof.
  split; [| split; [| split]].
  - intros records errors. rewrite validateRecords_fst.
    apply fold_accepted_distinct. constructor.
  - reflexivity.
  - intros before record after errors validRecords. subst validRecords.
    rewrite !validateRecords_fst, fold_left_app. cbn [fold_left].
    destruct (fold_accepted_subsequence
                after (accepted_step (fold_left accepted_step before []) record))
      as (rest & -> & Hsub).
    exists rest. rewrite accepted_step_spec, <- app_assoc. auto.
  - intros before record errors. rewrite validateRecords_fst.
    rewrite fold_accepted_taken. unfold already_accepted at 1.
    cbn [existsb]. split; [intros [E | E]; [discriminate | exact E] | auto].
Qed.

(** C4, as the specification states it, fails: when the first occurrence of an id is rejected for
    another reason, a later occurrence of the same id is accepted. *)
Lemma later_occurrence_accepted :
  id_strict_eq (RecordData.id nameless_first) (RecordData.id scenario_second)
  = true
  /\ validateRecords [nameless_first; scenario_second] []
     = ([scenario_second], ["Record 1 (ID: 1): Name is required"]).
Proof.
  split; reflexivity.
Qed.

(** C6, as the code has it.  For the two records with id 1, the first is
    accepted and the second is rejected with the reason
    "Duplicate ID found at index 0": the index is the zero-based position
    of the accepted record in the list of accepted records.  The message
    pushed to [errors] names the rejected record by its one-based
    position in the batch. *)
Theorem duplicate_scenario `{Host} :
  recordErrors [scenario_first] scenario_second
  = ["Duplicate ID found at index 0"]
  /\ validateRecords [scenario_first; scenario_second] []
     = ([scenario_first],
        [("Record 2 (ID: " ++ Number_toString 1%float
            ++ "): Duplicate ID found at index 0")%string]).
Proof.
  split; reflexivity.
Qed.

(** C6, as the specification states it, fails: the reason does not name index 1. *)
Lemma duplicate_scenario_index_is_not_1 :
  recordErrors [scenario_first] scenario_second
  <> ["Duplicate ID found at index 1"]
  /\ snd (validateRecords [scenario_first; scenario_second] [])
     = ["Record 2 (ID: 1): Duplicate ID found at index 0"].
Proof.
  split; [intros E; vm_compute in E; discriminate | reflexivity].
Qed.

Lemma transform_from_nth `{Host} clock externalRecords : forall k i,
  nth_error (transform_from clock k externalRecords) i
  = option_map (transformRecord (clock (k + i)%nat))
               (nth_error externalRecords i).
Proof.
  induction externalRecords as [|record rest IH]; intros k i.
  - destruct i; reflexivity.
  - destruct i as [|i]; simpl.
    + now rewrite Nat.add_0_r.
    + rewrite IH. now rewrite Nat.add_succ_r.
Qed.

(** C7, as the code has it.  The record at position [i] gets, as
    [updatedAt], the time at which it is normalized when [lastModified] is
    absent or the empty string; otherwise it gets [new Date(lastModified)],
    which is the parsed time when the string parses and the invalid date
    when it does not. *)
Theorem updatedAt_of_lastModified `{Host} clock externalRecords i record :
  nth_error externalRecords i = Some record ->
  exists canonical,
    nth_error (transformExternalData clock externalRecords) i = Some canonical
    /\ RecordData.updatedAt canonical
       = Some (match ExternalApiRecord.lastModified record with
               | None => DateAt (clock i)
               | Some EmptyString => DateAt (clock i)
               | Some s =>
                   match Date_parse s with
                   | Some ms => DateAt ms
                   | None => InvalidDate
                   end
               end).
Proof.
  intros Hnth. unfold transformExternalData.
  rewrite transform_from_nth, Hnth. cbn [option_map Nat.add].
  eexists. split; [reflexivity |].
  cbn [transformRecord RecordData.updatedAt].
  destruct (ExternalApiRecord.lastModified record) as [[|c s]|]; reflexivity.
Qed.

(** The second record of the example feed has no [lastModified]; it is
    stamped with the clock reading at position 1. *)
Lemma updatedAt_of_lastModified_witness :
  exists canonical,
    nth_error (transformExternalData (clock example_world) example_feed) 1
    = Some canonical
    /\ RecordData.updatedAt canonical = Some (DateAt 1700000000001).
Proof.
  exact (updatedAt_of_lastModified (clock example_world) example_feed 1
           (external 2%float "Updated Record 2" (JsString "250.25") None)
           eq_refl).
Defined.

(** C7, as the specification states it, fails: a [lastModified] that does not parse yields the
    invalid date, not the time of normalization. *)
Lemma unparsable_lastModified_gives_invalid_date :
  Date_parse "not-a-date" = None
  /\ map RecordData.updatedAt
         (transformExternalData (fun _ => 1700000000000)
            [external 1%float "A" (JsNumber 10%float) (Some "not-a-date")])
     = [Some InvalidDate]
  /\ Some InvalidDate <> Some (DateAt 1700000000000).
Proof.
  split; [reflexivity |]. split; [reflexivity | discriminate].
Qed.

(** C8, as the code has it.  Every accepted record has a [value] that is
    not [NaN].  The validator has no check on infinite values. *)
Theorem accepted_value_not_NaN `{Host} records errors :
  Forall (fun r => isNaN (RecordData.value r) = false)
         (fst (validateRecords records errors)).
Proof.
  rewrite validateRecords_fst.
  eapply Forall_impl; [| apply fold_accepted_field_ok; constructor].
  intros r. apply fieldErrors_nil_value.
Qed.

(** C8, as the specification states it, fails: raw values [Infinity] and [-Infinity] pass the
    normalizer unchanged and the validator accepts them. *)
Lemma infinite_values_accepted :
  map (fun r => PrimFloat.is_infinity (RecordData.value r))
      (fst (validateRecords
              (transformExternalData (fun _ => 1700000000000)
                 [ external 1%float "A" (JsNumber PrimFloat.infinity) None;
                   external 2%float "B" (JsNumber PrimFloat.neg_infinity) None ])
              []))
  = [true; true].
Proof.
  reflexivity.
Qed.

Lemma num_or_not_NaN (x : number) : isNaN (num_or x PrimFloat.zero) = false.
Proof.
  unfold num_or, truthy_number, isNaN.
  destruct (PrimFloat.is_nan x) eqn:E; simpl; [reflexivity |].
  destruct (PrimFloat.is_zero x); simpl; [reflexivity | assumption].
Qed.

Lemma num_or_NaN (x : number) :
  isNaN x = true -> num_or x PrimFloat.zero = PrimFloat.zero.
Proof.
  unfold num_or, truthy_number, isNaN. intros ->. reflexivity.
Qed.

Lemma transform_from_Forall2 `{Host}
      (P : ExternalApiRecord.t -> RecordData.t -> Prop) clock externalRecords :
  (forall now record, P record (transformRecord now record)) ->
  forall k, Forall2 P externalRecords (transform_from clock k externalRecords).
Proof.
  intros HP. induction externalRecords; intros k; simpl; constructor; auto.
Qed.

(** C9.  After normalization no record has a [NaN] value, whatever the raw
    value was: a raw value whose coercion to a number is [NaN] (a missing
    value, a string that is not numeric) becomes 0.  So the validator
    never gives a normalized record the reason "Invalid value format",
    whatever has been accepted before it. *)
Theorem normalized_value_not_NaN `{Host} clock externalRecords :
  Forall2 (fun raw r =>
             isNaN (RecordData.value r) = false
             /\ (isNaN (ToNumber (ExternalApiRecord.value raw)) = true ->
                 RecordData.value r = PrimFloat.zero)
             /\ forall validRecords,
                 ~ In "Invalid value format" (recordErrors validRecords r))
          externalRecords (transformExternalData clock externalRecords).
Proof.
  apply transform_from_Forall2. intros now record.
  assert (Hv : isNaN (RecordData.value (transformRecord now record)) = false)
    by apply num_or_not_NaN.
  split; [exact Hv |]. split; [apply num_or_NaN |].
  intros validRecords Hin. unfold recordErrors in Hin.
  assert (Hfield : ~ In "Invalid value format"
                     (fieldErrors (transformRecord now record))).
  { unfold fieldErrors. intros Hf.
    apply In_push_if in Hf. destruct Hf as [Hf | [_ Hf]]; [| discriminate].
    apply In_push_if in Hf. destruct Hf as [Hf | [Hf _]]; [| congruence].
    apply In_push_if in Hf. destruct Hf as [Hf | [_ Hf]]; [| discriminate].
    apply In_push_if in Hf. destruct Hf as [Hf | [_ Hf]]; [| discriminate].
    apply In_push_if in Hf. destruct Hf as [[] | [_ Hf]]. discriminate. }
  destruct (findIndex _ validRecords); [| auto].
  apply in_app_or in Hin. destruct Hin as [Hin | [Hin | []]]; [auto |].
  discriminate.
Qed.

(** C10.  Called with [null] or with an empty list, [updateOpenRecords]
    returns zero counts and leaves the system as it was: the table is the
    same and no call has been made. *)
Theorem updateOpenRecords_nothing_to_do `{Host} (world : World) sys :
  updateOpenRecords world None sys
  = (inr {| updated := Some 0; skipped := Some 0 |}, sys)
  /\ updateOpenRecords world (Some []) sys
     = (inr {| updated := Some 0; skipped := Some 0 |}, sys).
Proof.
  split; reflexivity.
Qed.

(** C5, as the code has it.  When the verification reports any issue, the
    run returns at once with [fetched], [updated] and [skipped] all 0 and
    the issues as its [errors]; the feed has not been asked, so the
    records it holds are not counted; the table is as it was, and the only
    calls made are the catalog queries of the verification. *)
Theorem preflight_failure_short_circuits `{Host} (world : World)
        apiUrl apiHeaders sys v sys1 :
  verifyDatabaseObjects world sys = (inr v, sys1) ->
  issues v <> [] ->
  fetchAndUpdateRecords world apiUrl apiHeaders sys
  = (inr {| fetched := 0;
            report_updated := Some 0;
            report_skipped := Some 0;
            errors := issues v |}, sys1)
  /\ store sys1 = store sys
  /\ exists qs,
      calls sys1 = calls sys ++ qs
      /\ forallb is_catalog_query qs = true
      /\ existsb mutating qs = false.
Proof.
  intros Hv Hissues.
  destruct (fetchAndUpdateRecords_cases world apiUrl apiHeaders sys)
    as (v' & qs & Hv' & Hqs & ->).
  rewrite Hv in Hv'. injection Hv' as <- ->.
  destruct (issues v) as [|issue more] eqn:E; [congruence |].
  split; [reflexivity |]. split; [reflexivity |].
  exists qs. split; [reflexivity |]. split; [assumption |].
  now apply queries_not_mutating.
Qed.

(** With the procedure missing from the catalog the run stops after two
    catalog queries. *)
Lemma preflight_failure_short_circuits_witness :
  fetchAndUpdateRecords unprepared_world "https://feed.example/records" None
                        example_sys
  = (inr {| fetched := 0;
            report_updated := Some 0;
            report_skipped := Some 0;
            errors := [("Stored procedure " ++ dquote ++ "sp_UpdateOpenRecords"
                          ++ dquote ++ " does not exist")%string] |},
     {| store := example_store;
        calls := [CatalogQuery 0; CatalogQuery 1] |}).
Proof.
  exact (proj1 (preflight_failure_short_circuits
                  unprepared_world "https://feed.example/records" None
                  example_sys
                  {| tableTypeExists := true;
                     storedProcExists := false;
                     issues := [("Stored procedure " ++ dquote
                                   ++ "sp_UpdateOpenRecords" ++ dquote
                                   ++ " does not exist")%string] |}
                  {| store := example_store;
                     calls := [CatalogQuery 0; CatalogQuery 1] |}
                  eq_refl
                  ltac:(discriminate))).
Defined.

(** C5, as the specification states it, fails: with the procedure missing and four records
    waiting in the feed, [skipped] is 0, not 4. *)
Lemma preflight_failure_skipped_is_not_input_length :
  feed unprepared_world "https://feed.example/records" []
  = inr (RecordsArray example_feed)
  /\ List.length example_feed = 4%nat
  /\ exists report sys',
      fetchAndUpdateRecords unprepared_world "https://feed.example/records"
                            None example_sys = (inr report, sys')
      /\ report_skipped report = Some 0
      /\ report_skipped report
         <> Some (Z.of_nat (List.length example_feed)).
Proof.
  split; [reflexivity |]. split; [reflexivity |].
  eexists _, _. split; [reflexivity |].
  split; [reflexivity | discriminate].
Qed.

(** Missing and non-numeric raw values become 0. *)
Example coerced_values :
  map RecordData.value
      (transformExternalData (fun _ => 0)
         [ external 1%float "A" JsUndefined None;
           external 2%float "B" (JsString "abc") None;
           external 3%float "C" (JsNumber PrimFloat.nan) None;
           external 4%float "D" (JsString " 42 ") None ])
  = [0%float; 0%float; 0%float; 42%float].
Proof.
  reflexivity.
Qed.

(** ** The examples, run *)

(** A run on a deployed store: record 1 is written, record 2 is closed and
    kept, the second record with id 2 is rejected, id 7 is nowhere. *)
Example run_example :
  let '(result, sys') :=
    fetchAndUpdateRecords example_world "https://feed.example/records" None
                          example_sys in
  result = inr {| fetched := 4;
                  report_updated := Some 1;
                  report_skipped := Some 3;
                  errors := ["Record 3 (ID: 2): Duplicate ID found at index 1"] |}
  /\ map Name (store sys') = ["Updated Record 1"; "Record 2"; "Record 3"]
  /\ map Value (store sys') = [15075; 20000; 30000]
  /\ calls sys' = [CatalogQuery 0; CatalogQuery 1; CatalogQuery 2;
                   HttpGet "https://feed.example/records";
                   Execute "sp_UpdateOpenRecords"].
Proof.
  vm_compute. repeat split.
Qed.

(** A failure of the engine at the third row: the [UPDATE] had written the
    first row by then; the procedure's [ROLLBACK] restores it, and the run
    ends in an error. *)
Example run_failing :
  map Name (snd (update_from (update_fault failing_world)
                   [ {| src_Id := 1; src_Name := "Updated Record 1";
                        src_Value := 15075; src_Status := "Active";
                        src_UpdatedAt := 1709208000000 |} ]
                   0 example_store))
  = ["Updated Record 1"; "Record 2"; "Record 3"]
  /\ fetchAndUpdateRecords failing_world "https://feed.example/records" None
                           example_sys
     = (inl {| http_message := "Failed to fetch and update records";
               http_status := 500 |},
        {| store := example_store;
           calls := [CatalogQuery 0; CatalogQuery 1; CatalogQuery 2;
                     HttpGet "https://feed.example/records";
                     Execute "sp_UpdateOpenRecords"] |}).
Proof.
  split; reflexivity.
Qed.

(** A failure of the engine at the [COMMIT]: every eligible row had been
    written; the [ROLLBACK] restores the table. *)
Example run_failing_at_commit :
  sp_UpdateOpenRecords (FailsAtCommit (Error "The transaction log is full"))
    [ {| src_Id := 1; src_Name := "Updated Record 1"; src_Value := 15075;
         src_Status := "Active"; src_UpdatedAt := 1709208000000 |} ]
    {| table := example_store; open_tran := [] |}
  = (inl (Error "The transaction log is full"),
     {| table := example_store; open_tran := [] |}).
Proof.
  reflexivity.
Qed.

(* ================================================================= *)
(** * Further properties of the validator and the normalizer *)

Lemma validate_from_partition `{Host} records : forall index st,
  exists rejections,
    snd (validate_from index records st) = snd st ++ rejections
    /\ (List.length (fst (validate_from index records st))
        + List.length rejections
        = List.length (fst st) + List.length records)%nat.
Proof.
  induction records as [|record rest IH]; intros index st; simpl.
  - exists []. rewrite app_nil_r. split; [reflexivity | simpl; lia].
  - destruct (IH (S index) (validateStep st index record))
      as (rejections & Hsnd & Hlen).
    destruct st as [validRecords errors]. unfold validateStep in *.
    destruct (recordErrors validRecords record) as [|e es]; cbn [fst snd] in *.
    + exists rejections. split; [assumption |].
      rewrite Hlen, length_app. simpl. lia.
    + exists (rejection index record (e :: es) :: rejections).
      rewrite Hsnd, <- app_assoc. split; [reflexivity |].
      simpl. lia.
Qed.

(** X1.  [validateRecords] splits the batch in two: the errors it is given
    are kept, in front; it adds one message per record it does not
    accept; and the accepted records and the added messages together are
    as many as the records. *)
Theorem validateRecords_partition `{Host} records errors :
  exists rejections,
    snd (validateRecords records errors) = errors ++ rejections
    /\ (List.length (fst (validateRecords records errors))
        + List.length rejections
        = List.length records)%nat.
Proof.
  unfold validateRecords.
  destruct (validate_from_partition records 0%nat ([], errors))
    as (rejections & Hsnd & Hlen).
  exists rejections. split; assumption.
Qed.

Lemma fieldErrors_nil_well_formed record :
  fieldErrors record = [] -> well_formed record.
Proof.
  unfold fieldErrors, well_formed. intros E.
  apply push_if_nil in E. destruct E as [Hstatus E].
  apply push_if_nil in E. destruct E as [_ E].
  apply push_if_nil in E. destruct E as [Hlong E].
  apply push_if_nil in E. destruct E as [Hname E].
  apply push_if_nil in E. destruct E as [Hid _].
  apply orb_false_iff in Hname. destruct Hname as [Hname _].
  apply negb_false_iff in Hname.
  rewrite Hname in Hlong. cbn [andb] in Hlong.
  apply negb_false_iff in Hstatus.
  repeat split.
  - unfold id_invalid in Hid.
    destruct (RecordData.id record) as [x|]; [| discriminate].
    apply orb_false_iff in Hid. destruct Hid as [Ht Hle].
    apply negb_false_iff in Ht. eauto.
  - intros E. rewrite E in Hname. discriminate.
  - apply Nat.ltb_ge in Hlong. assumption.
  - intros E. rewrite E in Hstatus. discriminate.
Qed.

(** X2.  Every record the validator accepts is well formed: its id is
    present, is neither [NaN] nor zero and is not [<= 0]; its name is not
    empty and has at most 255 characters; its status is not empty. *)
Theorem accepted_records_well_formed `{Host} records errors :
  Forall well_formed (fst (validateRecords records errors)).
Proof.
  rewrite validateRecords_fst.
  eapply Forall_impl; [| apply fold_accepted_field_ok; constructor].
  intros r. apply fieldErrors_nil_well_formed.
Qed.

(** X3.  The accepted records are records of the batch, in the order of
    the batch: the validator leaves records out, and does nothing else to
    the list. *)
Theorem accepted_is_subsequence `{Host} records errors :
  subsequence (fst (validateRecords records errors)) records.
Proof.
  rewrite validateRecords_fst.
  destruct (fold_accepted_subsequence records []) as (kept & -> & Hsub).
  exact Hsub.
Qed.

Lemma str_or_not_empty (s d : string) : d <> "" -> str_or s d <> "".
Proof.
  unfold str_or. destruct s; simpl; [auto | discriminate].
Qed.

Lemma fieldErrors_status record :
  In "Status is required" (fieldErrors record) ->
  RecordData.status record = "".
Proof.
  unfold fieldErrors. intros Hf.
  apply In_push_if in Hf. destruct Hf as [Hf | [Hs _]].
  - apply In_push_if in Hf. destruct Hf as [Hf | [_ Hf]]; [| discriminate].
    apply In_push_if in Hf. destruct Hf as [Hf | [_ Hf]]; [| discriminate].
    apply In_push_if in Hf. destruct Hf as [Hf | [_ Hf]]; [| discriminate].
    apply In_push_if in Hf. destruct Hf as [[] | [_ Hf]]. discriminate.
  - apply negb_true_iff in Hs.
    destruct (RecordData.status record); [reflexivity | discriminate].
Qed.


Lemma trimStart_all_white s : all_white s = true -> trimStart s = "".
Proof.
  induction s as [|c s IH]; simpl; [reflexivity |].
  intros E. apply andb_prop in E. destruct E as [-> E]. auto.
Qed.

Lemma trimStart_starts_clean s : starts_clean (trimStart s).
Proof.
  induction s as [|c s IH]; simpl; [exact I |].
  destruct (is_white c) eqn:E; [assumption | exact E].
Qed.

Lemma trimStart_empty s : trimStart s = "" -> all_white s = true.
Proof.
  induction s as [|c s IH]; simpl; [reflexivity |].
  destruct (is_white c); [auto | discriminate].
Qed.

Lemma trimEnd_starts_clean s : starts_clean s -> starts_clean (trimEnd s).
Proof.
  destruct s as [|c s]; simpl; [auto |].
  intros Hc. destruct (trimEnd s); [rewrite Hc |]; exact Hc.
Qed.

Lemma trimEnd_ends_clean s : ends_clean (trimEnd s).
Proof.
  induction s as [|c s IH]; simpl; [exact I |].
  destruct (trimEnd s) as [|c' t] eqn:E.
  - destruct (is_white c) eqn:Ec; simpl; auto.
  - exact IH.
Qed.

Lemma trimEnd_clean_not_empty s :
  starts_clean s -> s <> "" -> trimEnd s <> "".
Proof.
  destruct s as [|c s]; simpl; [congruence |].
  intros Hc _. destruct (trimEnd s); [rewrite Hc |]; discriminate.
Qed.

Lemma trim_empty_iff s : trim s = "" <-> all_white s = true.
Proof.
  unfold trim. split.
  - intros E. apply trimStart_empty.
    destruct (trimStart s) as [|c t] eqn:Et; [reflexivity |].
    exfalso. revert E. apply trimEnd_clean_not_empty; [| discriminate].
    rewrite <- Et. apply trimStart_starts_clean.
  - intros E. now rewrite trimStart_all_white.
Qed.

Lemma trim_clean s : starts_clean (trim s) /\ ends_clean (trim s).
Proof.
  unfold trim. split.
  - apply trimEnd_starts_clean, trimStart_starts_clean.
  - apply trimEnd_ends_clean.
Qed.

(** X4.  The status of a normalized record is "Unknown" when the raw
    status is missing or made of white space only, and the raw status
    without the white space at its ends otherwise.  So it is never empty,
    and the validator never gives a normalized record the reason "Status
    is required".  The raw id is copied, and [updatedAt] is always set. *)
Theorem normalized_status_present `{Host} clock externalRecords :
  Forall2 (fun raw r =>
             RecordData.id r = ExternalApiRecord.id raw
             /\ RecordData.status r
                = match ExternalApiRecord.status raw with
                  | Some s => if all_white s then "Unknown" else trim s
                  | None => "Unknown"
                  end
             /\ RecordData.status r <> ""
             /\ RecordData.updatedAt r <> None
             /\ forall validRecords,
                 ~ In "Status is required" (recordErrors validRecords r))
          externalRecords (transformExternalData clock externalRecords).
Proof.
  apply transform_from_Forall2. intros now record.
  assert (Hs : RecordData.status (transformRecord now record) <> "")
    by (apply str_or_not_empty; discriminate).
  split; [reflexivity |]. split; [| split; [exact Hs |]].
  - cbn [transformRecord RecordData.status].
    destruct (ExternalApiRecord.status record) as [s|]; [| reflexivity].
    unfold str_or. destruct (all_white s) eqn:Hw.
    + apply trim_empty_iff in Hw. rewrite Hw. reflexivity.
    + destruct (trim s) eqn:Ht; [| reflexivity].
      apply trim_empty_iff in Ht. congruence.
  - split; [discriminate |].
    intros validRecords Hin. unfold recordErrors in Hin.
    destruct (findIndex _ validRecords).
    + apply in_app_or in Hin. destruct Hin as [Hin | [Hin | []]].
      * apply Hs, fieldErrors_status, Hin.
      * discriminate.
    + apply Hs, fieldErrors_status, Hin.
Qed.

(** X5.  The name of a normalized record neither starts nor ends with
    white space.  It is empty exactly when the raw name is missing or
    made of white space only, and then the validator gives the record the
    reason "Name is required", whatever has been accepted before. *)
Theorem normalized_name_trimmed `{Host} now raw :
  let r := transformRecord now raw in
  starts_clean (RecordData.name r)
  /\ ends_clean (RecordData.name r)
  /\ (RecordData.name r = ""
      <-> match ExternalApiRecord.name raw with
          | Some s => all_white s = true
          | None => True
          end)
  /\ (RecordData.name r = "" ->
      forall validRecords,
        In "Name is required" (recordErrors validRecords r)).
Proof.
  cbn zeta.
  assert (Hname : RecordData.name (transformRecord now raw)
                  = match ExternalApiRecord.name raw with
                    | Some s => trim s
                    | None => ""
                    end).
  { cbn [transformRecord RecordData.name]. unfold str_or.
    destruct (match ExternalApiRecord.name raw with
              | Some s => trim s
              | None => ""
              end); reflexivity. }
  repeat split.
  - rewrite Hname. destruct (ExternalApiRecord.name raw); [| exact I].
    apply trim_clean.
  - rewrite Hname. destruct (ExternalApiRecord.name raw); [| exact I].
    apply trim_clean.
  - rewrite Hname. destruct (ExternalApiRecord.name raw); [| auto].
    apply trim_empty_iff.
  - rewrite Hname. destruct (ExternalApiRecord.name raw); [| auto].
    apply trim_empty_iff.
  - intros E validRecords. unfold recordErrors.
    assert (Hf : In "Name is required" (fieldErrors (transformRecord now raw))).
    { unfold fieldErrors. rewrite E. cbn [truthy_string negb orb andb].
      unfold push_if at 1 2 3. cbn [String.length Nat.ltb Nat.leb].
      destruct (isNaN _);
        destruct (negb (truthy_string _));
        destruct (id_invalid _); simpl; auto 10. }
    destruct (findIndex _ validRecords); [apply in_or_app |]; auto.
Qed.

(* ================================================================= *)
(** * Further properties of the verification and of the run *)

Section VerificationFacts.
Context `{Host}.
Variable world : World.

(** X6.  The verification never throws.  It reports no issue exactly when
    every catalog query is answered, the table type and the procedure
    exist, and the procedure has a parameter [@RecordData] whose type is
    the table type; and then both of its flags are true. *)
Theorem verification_passes_iff sys :
  match fst (verifyDatabaseObjects world sys) with
  | inr v =>
      (issues v = [] <-> verification_clean world)
      /\ (issues v = [] ->
          tableTypeExists v = true /\ storedProcExists v = true)
  | inl _ => False
  end.
Proof.
  unfold verifyDatabaseObjects, verification_clean, bind, attempt,
    verification_failed, ret.
  rewrite query_spec.
  destruct (query_fault world 0).
  { cbn. repeat split; try discriminate. intros (E & _). discriminate. }
  rewrite query_spec.
  destruct (Z.ltb 0 (count_named "RecordDataType" _)) eqn:Etype;
    (destruct (query_fault world 1);
     [ cbn; repeat split; try discriminate;
       try (intros (_ & _ & E & _); discriminate);
       intros E; apply app_eq_nil in E; destruct E; discriminate |]);
    cbn [storedProcExists tableTypeExists issues negb push_if];
    (destruct (Z.ltb 0 (count_named "sp_UpdateOpenRecords" _)) eqn:Eproc;
     [ rewrite query_spec; destruct (query_fault world 2);
       [| destruct (find _ (parameters_of world "sp_UpdateOpenRecords"))
            as [param|] eqn:Efind;
          [destruct (String.eqb (p_type_name param) "RecordDataType")
             eqn:Ename |] ]
     |]);
    cbn; repeat split; try discriminate; try reflexivity;
    try apply Z.ltb_lt in Etype; try apply Z.ltb_lt in Eproc;
    try apply Z.ltb_ge in Etype; try apply Z.ltb_ge in Eproc;
    try assumption;
    try (intros (_ & Ht & _ & Hp & Hq & (p & Hf & Hn)); try lia;
         try discriminate;
         injection Hf as <-; rewrite Hn, String.eqb_refl in Ename;
         discriminate).
  exists param. split; [reflexivity |]. now apply String.eqb_eq.
Qed.

(** X7.  The verification reads and never writes: the table is the same
    afterwards, and the calls it makes are the first one, two or three of
    its catalog queries, in order. *)
Theorem verification_reads_only sys :
  exists k,
    (1 <= k <= 3)%nat
    /\ snd (verifyDatabaseObjects world sys)
       = logged sys (firstn k verification_queries)
    /\ store (snd (verifyDatabaseObjects world sys)) = store sys.
Proof.
  unfold verifyDatabaseObjects, bind, attempt, verification_failed, ret.
  rewrite query_spec.
  destruct (query_fault world 0).
  { exists 1%nat. cbn. repeat split; lia. }
  rewrite query_spec, logged_logged.
  destruct (query_fault world 1).
  { exists 2%nat. cbn. repeat split; lia. }
  cbn [storedProcExists].
  destruct (Z.ltb 0 (count_named "sp_UpdateOpenRecords" _)).
  2:{ exists 2%nat. cbn. repeat split; lia. }
  rewrite query_spec, logged_logged.
  exists 3%nat.
  destruct (query_fault world 2);
    [| destruct (find _ (parameters_of world "sp_UpdateOpenRecords"))];
    cbn; repeat split; lia.
Qed.

End VerificationFacts.

(** The [catch] block of [fetchAndUpdateRecords], by the [code] of what it
    caught. *)
Lemma fetch_catch_cases (e : JsError) :
  (code e = Some "ECONNABORTED"
   /\ fetch_catch e
      = {| http_message := "API request timeout"; http_status := 408 |})
  \/ (code e <> Some "ECONNABORTED"
      /\ fetch_catch e
         = match response e with
           | Some (status, statusText) =>
               if Z.eqb status 0 then internal_server_error
               else
                 {| http_message :=
                      ("External API error: " ++ Z_toString status ++ " - "
                         ++ statusText)%string;
                    http_status := 502 |}
           | None => internal_server_error
           end).
Proof.
  unfold fetch_catch. destruct (code e) as [s|].
  2:{ right. split; [discriminate | reflexivity]. }
  do 13 (try (destruct s as [|[[|] [|] [|] [|] [|] [|] [|] [|]] s];
              try (right; split; [intros [=] | reflexivity]))).
  left. split; reflexivity.
Qed.

Lemma fetch_catch_Error (msg : string) :
  fetch_catch (Error msg) = internal_server_error.
Proof.
  reflexivity.
Qed.

Lemma fetch_catch_status (e : JsError) :
  http_status (fetch_catch e) = 408
  \/ http_status (fetch_catch e) = 502
  \/ http_status (fetch_catch e) = 500.
Proof.
  destruct (fetch_catch_cases e) as [[_ ->] | [_ ->]]; [auto |].
  destruct (response e) as [[status statusText]|]; [| auto].
  destruct (Z.eqb status 0); auto.
Qed.

(* ================================================================= *)
(** * Further properties of the run *)

Lemma transform_from_length `{Host} clock externalRecords : forall k,
  List.length (transform_from clock k externalRecords)
  = List.length externalRecords.
Proof.
  induction externalRecords; intros k; simpl; auto.
Qed.

Lemma updated_table_columns RecordData rows :
  map Id (updated_table RecordData rows) = map Id rows
  /\ map isOpen (updated_table RecordData rows) = map isOpen rows
  /\ map CreatedAt (updated_table RecordData rows) = map CreatedAt rows.
Proof.
  induction rows as [|target rest (IHid & IHopen & IHcreated)]; simpl; auto.
  destruct (update_row_frame RecordData target) as (_ & Hopen & Hid & Hc & _).
  rewrite IHid, IHopen, IHcreated, Hopen, Hid, Hc. auto.
Qed.

Section RunFacts.
Context `{Host}.
Variable world : World.

(** Whatever [updateOpenRecords] throws is a new [Error]: it has no
    [code] and no [response]. *)
Lemma updateOpenRecords_throws_Error records sys e sys' :
  updateOpenRecords world records sys = (inl e, sys') ->
  exists msg, e = Error msg.
Proof.
  destruct records as [[|record rest]|]; cbn [updateOpenRecords ret];
    try discriminate.
  unfold try_catch.
  destruct (bind _ _ sys) as [[e0|r] sys0]; [| discriminate].
  unfold updateOpenRecords_catch, throw.
  destruct (includes _ "RecordDataType");
    [| destruct (includes _ "sp_UpdateOpenRecords")];
    intros [= <- _]; eauto.
Qed.

(** X8.  When the verification passes and the feed answers with a body
    that is not an array, the run throws status 500 with the message
    "Failed to fetch and update records": the exception with status 400
    thrown inside the [try] block is caught by the same function and
    replaced.  Nothing but the catalog queries and the GET has been
    called. *)
Theorem non_array_body_fails_as_500 apiUrl apiHeaders sys v sys1 :
  verifyDatabaseObjects world sys = (inr v, sys1) ->
  issues v = [] ->
  feed world apiUrl (headers_or_empty apiHeaders) = inr NotAnArray ->
  fetchAndUpdateRecords world apiUrl apiHeaders sys
  = (inl internal_server_error, logged sys1 [HttpGet apiUrl]).
Proof.
  intros Hv Hissues Hfeed.
  destruct (fetchAndUpdateRecords_cases world apiUrl apiHeaders sys)
    as (v' & qs & Hv' & _ & ->).
  rewrite Hv in Hv'. injection Hv' as <- ->.
  rewrite Hissues. cbv zeta. rewrite Hfeed, logged_logged. reflexivity.
Qed.

(** X9.  Every exception the run throws has status 408, 502 or 500.  An
    exception other than the one with status 500 and the message "Failed
    to fetch and update records" comes only from a failure of the feed
    itself, and by then no procedure has been called; every failure of
    the store leaves as that one exception, whatever the store's error
    was. *)
Theorem thrown_status_classification apiUrl apiHeaders sys exn sys' :
  fetchAndUpdateRecords world apiUrl apiHeaders sys = (inl exn, sys') ->
  (http_status exn = 408 \/ http_status exn = 502 \/ http_status exn = 500)
  /\ (exn <> internal_server_error ->
      exists e evs,
        feed world apiUrl (headers_or_empty apiHeaders) = inl e
        /\ exn = fetch_catch e
        /\ sys' = logged sys evs
        /\ existsb mutating evs = false).
Proof.
  destruct (fetchAndUpdateRecords_cases world apiUrl apiHeaders sys)
    as (v & qs & _ & Hqs & ->).
  apply queries_not_mutating in Hqs.
  destruct (issues v); [| discriminate].
  cbv zeta.
  destruct (feed world apiUrl (headers_or_empty apiHeaders)) as [e|[|ext]].
  - intros [= <- <-]. split; [apply fetch_catch_status |].
    intros _. exists e, (qs ++ [HttpGet apiUrl]).
    repeat split. rewrite existsb_app, Hqs. reflexivity.
  - intros [= <- <-]. rewrite fetch_catch_Error.
    split; [auto | congruence].
  - destruct (List.length _ =? 0)%nat; [discriminate |].
    destruct (updateOpenRecords world _ _) as [[e|result] sys3] eqn:Hup;
      [| discriminate].
    apply updateOpenRecords_throws_Error in Hup. destruct Hup as [msg ->].
    intros [= <- <-]. rewrite fetch_catch_Error.
    split; [auto | congruence].
Qed.

(** X10.  When the verification passes and the validator accepts none of
    the records of the feed, the run returns [updated = 0] and
    [skipped = fetched], with one error message per record; the procedure
    is not called. *)
Theorem nothing_accepted_nothing_sent apiUrl apiHeaders sys v sys1
        externalRecords :
  verifyDatabaseObjects world sys = (inr v, sys1) ->
  issues v = [] ->
  feed world apiUrl (headers_or_empty apiHeaders)
  = inr (RecordsArray externalRecords) ->
  fst (validateRecords
         (transformExternalData (clock world) externalRecords) []) = [] ->
  exists messages,
    fetchAndUpdateRecords world apiUrl apiHeaders sys
    = (inr {| fetched := Z.of_nat (List.length externalRecords);
              report_updated := Some 0;
              report_skipped := Some (Z.of_nat (List.length externalRecords));
              errors := messages |},
       logged sys1 [HttpGet apiUrl])
    /\ List.length messages = List.length externalRecords.
Proof.
  intros Hv Hissues Hfeed Hnone.
  destruct (fetchAndUpdateRecords_cases world apiUrl apiHeaders sys)
    as (v' & qs & Hv' & _ & ->).
  rewrite Hv in Hv'. injection Hv' as <- ->.
  rewrite Hissues. cbv zeta. rewrite Hfeed, Hnone, logged_logged.
  eexists. split; [reflexivity |].
  unfold validateRecords in *.
  destruct (validate_from_partition
              (transformExternalData (clock world) externalRecords)
              0%nat ([], [])) as (rejections & Hsnd & Hlen).
  rewrite Hsnd. rewrite Hnone in Hlen. cbn in Hlen |- *.
  unfold transformExternalData in Hlen.
  rewrite transform_from_length in Hlen. exact Hlen.
Qed.

(** X11.  In every report of a run whose verification passed, the error
    messages are as many as the records the validator did not accept:
    accepted records and messages together are as many as the records
    fetched. *)
Theorem one_message_per_rejected_record apiUrl apiHeaders sys v sys1
        report sys' :
  verifyDatabaseObjects world sys = (inr v, sys1) ->
  issues v = [] ->
  fetchAndUpdateRecords world apiUrl apiHeaders sys = (inr report, sys') ->
  exists externalRecords,
    feed world apiUrl (headers_or_empty apiHeaders)
    = inr (RecordsArray externalRecords)
    /\ fetched report = Z.of_nat (List.length externalRecords)
    /\ (List.length
          (fst (validateRecords
                  (transformExternalData (clock world) externalRecords) []))
        + List.length (errors report)
        = List.length externalRecords)%nat.
Proof.
  intros Hv Hissues.
  destruct (fetchAndUpdateRecords_cases world apiUrl apiHeaders sys)
    as (v' & qs & Hv' & _ & ->).
  rewrite Hv in Hv'. injection Hv' as <- ->.
  rewrite Hissues. cbv zeta.
  destruct (feed world apiUrl (headers_or_empty apiHeaders)) as [e|[|ext]];
    try discriminate.
  assert (Hcount :
            (List.length
               (fst (validateRecords
                       (transformExternalData (clock world) ext) []))
             + List.length
                 (snd (validateRecords
                         (transformExternalData (clock world) ext) []))
             = List.length ext)%nat).
  { unfold validateRecords.
    destruct (validate_from_partition
                (transformExternalData (clock world) ext) 0%nat ([], []))
      as (rejections & Hsnd & Hlen).
    rewrite Hsnd. cbn in Hlen |- *.
    unfold transformExternalData in Hlen at 2.
    rewrite transform_from_length in Hlen. exact Hlen. }
  intros Hrun. exists ext. split; [reflexivity |].
  destruct (List.length _ =? 0)%nat.
  - injection Hrun as <- _. auto.
  - destruct (updateOpenRecords world _ _) as [[e|result] sys3];
      [discriminate |].
    injection Hrun as <- _. auto.
Qed.

(** X12.  However a run ends, the table has the rows it had: the same
    ids in the same places, with the same [isOpen] flags and the same
    creation times.  The run neither inserts nor deletes a row, and never
    opens or closes one. *)
Theorem run_never_inserts_or_deletes apiUrl apiHeaders sys :
  let sys' := snd (fetchAndUpdateRecords world apiUrl apiHeaders sys) in
  map Id (store sys') = map Id (store sys)
  /\ map isOpen (store sys') = map isOpen (store sys)
  /\ map CreatedAt (store sys') = map CreatedAt (store sys).
Proof.
  cbv zeta.
  destruct (fetchAndUpdateRecords_cases world apiUrl apiHeaders sys)
    as (v & qs & _ & _ & ->).
  destruct (issues v); [| auto].
  cbv zeta.
  destruct (feed world apiUrl (headers_or_empty apiHeaders)) as [e|[|ext]];
    auto.
  destruct (List.length _ =? 0)%nat; [auto |].
  set (sys2 := logged sys (qs ++ [HttpGet apiUrl])).
  pose proof (updateOpenRecords_outcome world
                (Some (fst (validateRecords
                              (transformExternalData (clock world) ext) [])))
                sys2) as Hout.
  destruct (updateOpenRecords world _ sys2) as [[e|result] sys3]; cbn [snd].
  - destruct Hout as [-> _]. auto.
  - destruct Hout as [(_ & -> & _) | (batch & _ & _ & Happlied)]; [auto |].
    destruct Happlied as (rows & RecordData & _ & _ & _ & _ & -> & _).
    apply updated_table_columns.
Qed.

End RunFacts.

(** A feed that times out leaves as status 408. *)
Lemma thrown_status_classification_witness :
  (http_status {| http_message := "API request timeout"; http_status := 408 |}
   = 408
   \/ http_status {| http_message := "API request timeout";
                     http_status := 408 |} = 502
   \/ http_status {| http_message := "API request timeout";
                     http_status := 408 |} = 500)
  /\ ({| http_message := "API request timeout"; http_status := 408 |}
      <> internal_server_error ->
      exists e evs,
        feed timeout_world "https://feed.example/records"
             (headers_or_empty None) = inl e
        /\ {| http_message := "API request timeout"; http_status := 408 |}
           = fetch_catch e
        /\ {| store := example_store;
              calls := verification_queries
                       ++ [HttpGet "https://feed.example/records"] |}
           = logged example_sys evs
        /\ existsb mutating evs = false).
Proof.
  exact (thrown_status_classification
           timeout_world "https://feed.example/records" None example_sys
           {| http_message := "API request timeout"; http_status := 408 |}
           {| store := example_store;
              calls := verification_queries
                       ++ [HttpGet "https://feed.example/records"] |}
           eq_refl).
Defined.

(** A body that is not an array, on a deployed store. *)
Lemma non_array_body_fails_as_500_witness :
  fetchAndUpdateRecords garbled_world "https://feed.example/records" None
                        example_sys
  = (inl internal_server_error,
     logged {| store := example_store; calls := verification_queries |}
            [HttpGet "https://feed.example/records"]).
Proof.
  exact (non_array_body_fails_as_500
           garbled_world "https://feed.example/records" None example_sys
           {| tableTypeExists := true; storedProcExists := true;
              issues := [] |}
           {| store := example_store; calls := verification_queries |}
           eq_refl eq_refl eq_refl).
Defined.

(** A feed of two records, one with id 0 and one with a blank name. *)
Lemma nothing_accepted_nothing_sent_witness :
  exists messages,
    fetchAndUpdateRecords rejecting_world "https://feed.example/records" None
                          example_sys
    = (inr {| fetched := Z.of_nat (List.length rejected_feed);
              report_updated := Some 0;
              report_skipped := Some (Z.of_nat (List.length rejected_feed));
              errors := messages |},
       logged {| store := example_store; calls := verification_queries |}
              [HttpGet "https://feed.example/records"])
    /\ List.length messages = List.length rejected_feed.
Proof.
  exact (nothing_accepted_nothing_sent
           rejecting_world "https://feed.example/records" None example_sys
           {| tableTypeExists := true; storedProcExists := true;
              issues := [] |}
           {| store := example_store; calls := verification_queries |}
           rejected_feed eq_refl eq_refl eq_refl eq_refl).
Defined.


(** Two records fetched, none accepted, two messages. *)
Lemma one_message_per_rejected_record_witness :
  exists externalRecords,
    feed rejecting_world "https://feed.example/records"
         (headers_or_empty None)
    = inr (RecordsArray externalRecords)
    /\ fetched rejecting_report = Z.of_nat (List.length externalRecords)
    /\ (List.length
          (fst (validateRecords
                  (transformExternalData (clock rejecting_world)
                                         externalRecords) []))
        + List.length (errors rejecting_report)
        = List.length externalRecords)%nat.
Proof.
  exact (one_message_per_rejected_record
           rejecting_world "https://feed.example/records" None example_sys
           {| tableTypeExists := true; storedProcExists := true;
              issues := [] |}
           {| store := example_store; calls := verification_queries |}
           rejecting_report
           {| store := example_store;
              calls := verification_queries
                       ++ [HttpGet "https://feed.example/records"] |}
           eq_refl eq_refl eq_refl).
Defined.

(* ================================================================= *)
(** * Further properties of [updateOpenRecords] and of the procedure *)

Section UpdateFacts.
Context `{Host}.
Variable world : World.

Lemma tableRow_checked index record row :
  tableRow world index record = inr row -> row_checked row.
Proof.
  unfold tableRow, row_checked. cbv zeta.
  set (id := parseInt _).
  set (name := trim _). set (value := parseFloat _). set (status := trim _).
  destruct (match id with Some z => Z.leb z 0 | None => false end) eqn:Eid;
    [discriminate |].
  destruct (truthy_string name) eqn:Ename; [| discriminate].
  destruct (isNaN value) eqn:Evalue; [discriminate |].
  destruct (truthy_string status) eqn:Estatus; [| discriminate].
  cbn. intros [= <-]. cbn.
  repeat split; try (apply trim_clean); try assumption.
  - destruct id as [z|]; [| auto]. right. exists z.
    apply Z.leb_gt in Eid. auto.
  - intros E. rewrite E in Ename. discriminate.
  - intros E. rewrite E in Estatus. discriminate.
Qed.

(** X13.  When [updateOpenRecords] has built its table parameter, there
    is one row per record, and every row passed the checks: the id is
    positive or [NaN] (an id that [parseInt] cannot read is not stopped by
    [id <= 0]), name and status are trimmed and not empty, the value is
    not [NaN]. *)
Theorem table_rows_checked records : forall index rows,
  tableRows world index records = inr rows ->
  Forall row_checked rows /\ List.length rows = List.length records.
Proof.
  induction records as [|record rest IH]; intros index rows; simpl.
  - intros [= <-]. split; [constructor | reflexivity].
  - destruct (tableRow world index record) as [e|row] eqn:Hrow;
      [discriminate |].
    destruct (tableRows world (S index) rest) as [e|rows'] eqn:Hrest;
      [discriminate |].
    intros [= <-]. destruct (IH _ _ Hrest) as [Hall Hlen].
    split; [constructor; eauto using tableRow_checked | simpl; congruence].
Qed.

Lemma trim_str_or_blank s :
  all_white s = true -> trim (str_or s "") = "".
Proof.
  intros Hs. unfold str_or. destruct (truthy_string s); [| reflexivity].
  now apply trim_empty_iff.
Qed.

Lemma tableRow_blank index record :
  all_white (RecordData.name record) = true
  \/ all_white (RecordData.status record) = true ->
  exists e, tableRow world index record = inl e.
Proof.
  intros Hblank. unfold tableRow. cbv zeta.
  set (id := parseInt _). set (value := parseFloat _).
  destruct (match id with Some z => Z.leb z 0 | None => false end);
    [eauto |].
  destruct Hblank as [Hn | Hs].
  - rewrite (trim_str_or_blank _ Hn). cbn. eauto.
  - rewrite (trim_str_or_blank _ Hs).
    destruct (truthy_string (trim _)); cbn; [| eauto].
    destruct (isNaN value); cbn; eauto.
Qed.

Lemma tableRows_fails record records :
  In record records ->
  (forall index, exists e, tableRow world index record = inl e) ->
  forall index, exists e, tableRows world index records = inl e.
Proof.
  intros Hin Hfail.
  induction records as [|r rest IH]; intros index; [destruct Hin |].
  simpl. destruct (tableRow world index r) as [e|row] eqn:Hr; [eauto |].
  destruct Hin as [-> | Hin].
  - destruct (Hfail index) as [e He]. congruence.
  - destruct (IH Hin (S index)) as [e ->]. eauto.
Qed.

(** X14.  One record with a blank name or a blank status refuses the
    whole batch: [updateOpenRecords] throws, the table is as it was and no
    call has been made, whatever the other records are. *)
Theorem blank_record_refuses_batch batch record sys :
  In record batch ->
  all_white (RecordData.name record) = true
  \/ all_white (RecordData.status record) = true ->
  exists e, updateOpenRecords world (Some batch) sys = (inl e, sys).
Proof.
  intros Hin Hblank.
  destruct (tableRows_fails record batch Hin
              (fun index => tableRow_blank index record Hblank) 0%nat)
    as [e He].
  destruct batch as [|r rest]; [destruct Hin |].
  cbn [updateOpenRecords]. unfold try_catch, bind, lift. rewrite He.
  destruct (@updateOpenRecords_catch_throws UpdateResult e sys) as [e' ->].
  eauto.
Qed.

(** X15.  The counts [updateOpenRecords] returns are numbers, never
    [NaN]; they add up to the number of records it was given; and
    [updated] lies between 0 and the number of rows of the table. *)
Theorem direct_call_counts records sys result sys' :
  updateOpenRecords world records sys = (inr result, sys') ->
  exists u,
    updated result = Some u
    /\ skipped result
       = Some (Z.of_nat (List.length (match records with
                                      | Some batch => batch
                                      | None => []
                                      end)) - u)
    /\ 0 <= u <= Z.of_nat (List.length (store sys)).
Proof.
  intros Hrun.
  pose proof (updateOpenRecords_outcome world records sys) as Hout.
  rewrite Hrun in Hout.
  destruct Hout as [([-> | ->] & _ & ->) | (batch & -> & _ & Happlied)].
  - exists 0. cbn. repeat split; lia.
  - exists 0. cbn. repeat split; lia.
  - destruct Happlied as (rows & RecordData & _ & _ & _ & _ & _ & _ & Hu & Hs).
    exists (updated_count RecordData (store sys)).
    split; [assumption |]. split; [assumption |].
    apply updated_count_bounds.
Qed.

End UpdateFacts.

(** X16.  The record set the procedure returns has one row, in which
    [UpdatedCount] and [SkippedCount] add up to [TotalInputRecords], the
    number of rows of the batch, and [UpdatedCount] lies between 0 and the
    number of rows of the table. *)
Theorem procedure_statistics fault RecordData rows :
  match fst (sp_UpdateOpenRecords fault RecordData
               {| table := rows; open_tran := [] |}) with
  | inr recordset =>
      exists stats,
        recordset = [stats]
        /\ UpdatedCount stats + SkippedCount stats = TotalInputRecords stats
        /\ TotalInputRecords stats = Z.of_nat (List.length RecordData)
        /\ 0 <= UpdatedCount stats <= Z.of_nat (List.length rows)
  | inl _ => True
  end.
Proof.
  rewrite sp_UpdateOpenRecords_spec.
  destruct (engine_failure fault RecordData rows); cbn [fst]; [exact I |].
  exists (stats_of RecordData rows). cbn.
  pose proof (updated_count_bounds RecordData rows).
  repeat split; lia.
Qed.

Lemma NoDup_map_filter {A B} (f : A -> B) (p : A -> bool) (xs : list A) :
  NoDup (map f xs) -> NoDup (map f (filter p xs)).
Proof.
  induction xs as [|x xs IH]; simpl; [auto |].
  intros Hnd. inversion Hnd as [|? ? Hnotin Hrest]; subst.
  destruct (p x); simpl; [| auto].
  constructor; [| auto].
  intros Hin. apply Hnotin. apply in_map_iff in Hin.
  destruct Hin as (y & Hy & Hin). apply filter_In in Hin.
  apply in_map_iff. exists y. tauto.
Qed.

Lemma updated_count_le_batch RecordData rows :
  NoDup (map Id rows) ->
  updated_count RecordData rows <= Z.of_nat (List.length RecordData).
Proof.
  intros Hnd. unfold updated_count. apply Nat2Z.inj_le.
  rewrite <- (length_map Id), <- (length_map src_Id RecordData).
  apply NoDup_incl_length; [now apply NoDup_map_filter |].
  intros i Hi. apply in_map_iff in Hi. destruct Hi as (target & <- & Hin).
  apply filter_In in Hin. destruct Hin as [_ Hhit].
  unfold update_row, joined in Hhit.
  destruct (isOpen target); [| discriminate].
  destruct (find _ RecordData) as [source|] eqn:Hfind; [| discriminate].
  apply find_some in Hfind. destruct Hfind as [Hin Heq].
  apply Z.eqb_eq in Heq. rewrite Heq. now apply in_map.
Qed.

(** X17.  On a table whose ids are unique, as the primary key makes them,
    the procedure never reports more updated rows than the batch has
    rows, so [SkippedCount] is not negative. *)
Theorem skipped_not_negative fault RecordData rows stats :
  NoDup (map Id rows) ->
  fst (sp_UpdateOpenRecords fault RecordData
         {| table := rows; open_tran := [] |}) = inr [stats] ->
  UpdatedCount stats <= TotalInputRecords stats
  /\ 0 <= SkippedCount stats.
Proof.
  intros Hnd. rewrite sp_UpdateOpenRecords_spec.
  destruct (engine_failure fault RecordData rows); cbn [fst];
    [discriminate |].
  intros [= <-]. cbn.
  pose proof (updated_count_le_batch RecordData rows Hnd). lia.
Qed.

Lemma update_row_again RecordData target :
  update_row RecordData (fst (update_row RecordData target))
  = update_row RecordData target.
Proof.
  unfold update_row, joined.
  destruct (isOpen target) eqn:Hopen; cbn [fst]; [| now rewrite Hopen].
  destruct (find _ RecordData) as [source|] eqn:Hfind; cbn [fst].
  - cbn [set_columns isOpen Id]. rewrite Hopen, Hfind. reflexivity.
  - rewrite Hopen, Hfind. reflexivity.
Qed.

Lemma updated_table_again RecordData rows :
  updated_table RecordData (updated_table RecordData rows)
  = updated_table RecordData rows
  /\ updated_count RecordData (updated_table RecordData rows)
     = updated_count RecordData rows.
Proof.
  induction rows as [|target rest [IHt IHc]]; [split; reflexivity |].
  split.
  - unfold updated_table in *. cbn [map]. rewrite update_row_again.
    f_equal. exact IHt.
  - change (updated_table RecordData (target :: rest))
      with (fst (update_row RecordData target)
              :: updated_table RecordData rest).
    rewrite !updated_count_cons, update_row_again, IHc. reflexivity.
Qed.

Lemma update_from_no_fault RecordData rows : forall index,
  exists n rows', update_from NoFault RecordData index rows = (inr n, rows').
Proof.
  induction rows as [|target rest IH]; intros index; simpl; [eauto |].
  destruct (update_row RecordData target) as [row' hit].
  destruct (IH (S index)) as (n & rest' & ->). eauto.
Qed.

Lemma engine_failure_NoFault RecordData rows :
  engine_failure NoFault RecordData rows = None.
Proof.
  unfold engine_failure.
  destruct (update_from_no_fault RecordData rows 0%nat) as (n & rows' & ->).
  reflexivity.
Qed.


Lemma update_row_may RecordData target :
  engine_may_write RecordData target (fst (update_row RecordData target)).
Proof.
  unfold engine_may_write, update_row, joined.
  destruct (isOpen target); [| reflexivity].
  destruct (find _ RecordData) as [source|] eqn:Hfind; cbn [fst].
  - apply find_some in Hfind. destruct Hfind as [Hin Heq].
    apply Z.eqb_eq in Heq. left. exists source. auto.
  - right. split; [| reflexivity].
    intros source Hin Hid. apply (find_none _ _ Hfind) in Hin.
    rewrite Hid, Z.eqb_refl in Hin. discriminate.
Qed.

Lemma updated_table_may RecordData rows :
  engine_may_update RecordData rows (updated_table RecordData rows).
Proof.
  unfold engine_may_update, updated_table.
  induction rows; simpl; constructor; auto using update_row_may.
Qed.

Lemma NoDup_map_inj {A B} (f : A -> B) (xs : list A) (a b : A) :
  NoDup (map f xs) -> In a xs -> In b xs -> f a = f b -> a = b.
Proof.
  induction xs as [|x xs IH]; simpl; [tauto |].
  intros Hnd Ha Hb Hf. inversion Hnd as [|? ? Hnotin Hrest]; subst.
  destruct Ha as [-> | Ha], Hb as [-> | Hb]; auto.
  - exfalso. apply Hnotin. rewrite Hf. now apply in_map.
  - exfalso. apply Hnotin. rewrite <- Hf. now apply in_map.
Qed.

(** With unique ids in the batch the engine has no choice. *)
Lemma engine_may_write_unique RecordData target new :
  NoDup (map src_Id RecordData) ->
  engine_may_write RecordData target new ->
  new = fst (update_row RecordData target).
Proof.
  intros Hnd. unfold engine_may_write, update_row, joined.
  destruct (isOpen target); [| auto].
  destruct (find _ RecordData) as [found|] eqn:Hfind; cbn [fst].
  - apply find_some in Hfind. destruct Hfind as [Hin' Heq].
    apply Z.eqb_eq in Heq.
    intros [(source & Hin & Hid & ->) | [Hno _]].
    + f_equal. apply (NoDup_map_inj src_Id RecordData); auto. congruence.
    + exfalso. apply (Hno found Hin'). auto.
  - intros [(source & Hin & Hid & _) | [_ ->]]; [| reflexivity].
    exfalso. apply (find_none _ _ Hfind) in Hin.
    rewrite Hid, Z.eqb_refl in Hin. discriminate.
Qed.

Lemma engine_may_update_unique RecordData rows rows' :
  NoDup (map src_Id RecordData) ->
  engine_may_update RecordData rows rows' ->
  rows' = updated_table RecordData rows.
Proof.
  intros Hnd. unfold engine_may_update, updated_table.
  induction 1 as [|target new rest rest' Hw _ IH]; simpl; [reflexivity |].
  f_equal; [| exact IH]. now apply engine_may_write_unique.
Qed.

(** X18.  With a batch whose ids are unique, the procedure is idempotent:
    called a second time with the same batch, on the table the first call
    left, it leaves the same table and returns the same statistics.  The
    table it leaves is then the only one the [UPDATE] admits, so this does
    not depend on which row of the batch the engine uses for a table row:
    a second [UPDATE], by any engine, on the table any engine left,
    changes nothing.  (The ids of the batch are the bound [INT] values;
    two records the validator tells apart may still bind to one id, and
    then the hypothesis does not hold.) *)
Theorem procedure_idempotent RecordData rows :
  NoDup (map src_Id RecordData) ->
  let first := sp_UpdateOpenRecords NoFault RecordData
                 {| table := rows; open_tran := [] |} in
  sp_UpdateOpenRecords NoFault RecordData (snd first) = first
  /\ engine_may_update RecordData rows (table (snd first))
  /\ (forall rows',
         engine_may_update RecordData rows rows' ->
         rows' = table (snd first))
  /\ (forall rows' rows'',
         engine_may_update RecordData rows rows' ->
         engine_may_update RecordData rows' rows'' ->
         rows'' = rows').
Proof.
  intros Hnd. cbv zeta.
  destruct (updated_table_again RecordData rows) as [Ht Hc].
  rewrite sp_UpdateOpenRecords_spec, engine_failure_NoFault. cbn [snd table].
  split; [| split; [| split]].
  - rewrite sp_UpdateOpenRecords_spec, engine_failure_NoFault.
    unfold stats_of. rewrite Ht, Hc. reflexivity.
  - apply updated_table_may.
  - intros rows' Hmay. now apply engine_may_update_unique.
  - intros rows' rows'' H1 H2.
    apply (engine_may_update_unique _ _ _ Hnd) in H1. subst rows'.
    apply (engine_may_update_unique _ _ _ Hnd) in H2. congruence.
Qed.

(** X19.  With a batch whose ids are unique, an open row whose id is in
    the batch takes its name, value, status and update time from the batch
    row with that id, and keeps its id, its flag and its creation time. *)
Theorem update_takes_batch_values RecordData rows :
  NoDup (map src_Id RecordData) ->
  Forall2 (fun old new =>
             forall source,
               In source RecordData -> src_Id source = Id old ->
               isOpen old = true ->
               Name new = src_Name source
               /\ Value new = src_Value source
               /\ Status new = src_Status source
               /\ UpdatedAt new = Some (src_UpdatedAt source)
               /\ Id new = Id old
               /\ isOpen new = isOpen old
               /\ CreatedAt new = CreatedAt old)
          rows (updated_table RecordData rows).
Proof.
  intros Hnd.
  induction rows as [|target rest IH]; simpl; constructor; [| exact IH].
  intros source Hin Hid Hopen.
  assert (Hw : engine_may_write RecordData target (set_columns target source)).
  { unfold engine_may_write. rewrite Hopen. left. exists source. auto. }
  apply (engine_may_write_unique _ _ _ Hnd) in Hw. rewrite <- Hw.
  cbn. auto 10.
Qed.

Lemma last_cons_default {A} (x : A) (xs : list A) (d d' : A) :
  last (x :: xs) d = last (x :: xs) d'.
Proof.
  revert x. induction xs as [|y ys IH]; intros x; [reflexivity |].
  change (last (y :: ys) d = last (y :: ys) d'). apply IH.
Qed.

(** X20.  Called inside a transaction the caller has open, the procedure
    leaves the caller's transaction open when it succeeds; when the engine
    fails, its [ROLLBACK] undoes the caller's transaction too: the table
    is the one the outermost transaction began with, and no transaction
    is left open. *)
Theorem procedure_in_open_transaction fault RecordData session :
  sp_UpdateOpenRecords fault RecordData session
  = match engine_failure fault RecordData (table session) with
    | None =>
        (inr [stats_of RecordData (table session)],
         {| table := updated_table RecordData (table session);
            open_tran := open_tran session |})
    | Some e =>
        (inl e,
         {| table := last (open_tran session) (table session);
            open_tran := [] |})
    end.
Proof.
  destruct session as [rows outer].
  unfold sp_UpdateOpenRecords, engine_failure, TRY_CATCH, sql_bind,
    BEGIN_TRANSACTION, UPDATE_target, COMMIT_TRANSACTION, TRANCOUNT,
    ROLLBACK_TRANSACTION, THROW, sql_ret.
  cbn [table open_tran].
  pose proof (update_from_spec fault RecordData rows 0%nat) as Hspec.
  destruct (update_from fault RecordData 0 rows) as [[e|n] rows'];
    cbn [fst table open_tran].
  - destruct outer as [|l outer]; [reflexivity |].
    cbn. do 2 f_equal. apply (last_cons_default l outer).
  - destruct Hspec as [-> ->]. destruct fault; try reflexivity.
    destruct outer as [|l outer]; [reflexivity |].
    cbn. do 2 f_equal. apply (last_cons_default l outer).
Qed.

(** One valid record gives one checked row. *)
Lemma table_rows_checked_witness :
  Forall row_checked
         [ {| tr_id := Some 1; tr_name := "A"; tr_value := 10%float;
              tr_status := "Active";
              tr_updatedAt := DateAt 1700000000000 |} ]
  /\ List.length
       [ {| tr_id := Some 1; tr_name := "A"; tr_value := 10%float;
            tr_status := "Active";
            tr_updatedAt := DateAt 1700000000000 |} ]
     = List.length [scenario_first].
Proof.
  apply (table_rows_checked example_world [scenario_first] 0%nat).
  vm_compute. reflexivity.
Defined.

(** The second record of the batch has a status of two spaces. *)
Lemma blank_record_refuses_batch_witness :
  exists e,
    updateOpenRecords example_world (Some blank_status_batch) example_sys
    = (inl e, example_sys).
Proof.
  exact (blank_record_refuses_batch example_world blank_status_batch
           {| RecordData.id := Some 2%float;
              RecordData.name := "B";
              RecordData.value := 20%float;
              RecordData.status := "  ";
              RecordData.updatedAt := None |}
           example_sys
           (or_intror (or_introl eq_refl))
           (or_intror eq_refl)).
Defined.

(** One record for the open row with id 1: one row updated, none
    skipped. *)
Lemma direct_call_counts_witness :
  exists u,
    updated {| updated := Some 1; skipped := Some 0 |} = Some u
    /\ skipped {| updated := Some 1; skipped := Some 0 |}
       = Some (Z.of_nat (List.length (match Some [scenario_first] with
                                      | Some batch => batch
                                      | None => []
                                      end)) - u)
    /\ 0 <= u <= Z.of_nat (List.length (store example_sys)).
Proof.
  apply (direct_call_counts example_world (Some [scenario_first]) example_sys
           {| updated := Some 1; skipped := Some 0 |}
           (snd (updateOpenRecords example_world (Some [scenario_first])
                                   example_sys))).
  vm_compute. reflexivity.
Defined.

Lemma example_store_ids_unique : NoDup (map Id example_store).
Proof.
  repeat constructor; simpl; intuition discriminate.
Defined.

(** The example batch on the example table: one row updated, two records
    skipped. *)
Lemma skipped_not_negative_witness :
  UpdatedCount {| UpdatedCount := 1; SkippedCount := 2;
                  TotalInputRecords := 3 |}
  <= TotalInputRecords {| UpdatedCount := 1; SkippedCount := 2;
                          TotalInputRecords := 3 |}
  /\ 0 <= SkippedCount {| UpdatedCount := 1; SkippedCount := 2;
                          TotalInputRecords := 3 |}.
Proof.
  apply (skipped_not_negative NoFault example_batch example_store).
  - exact example_store_ids_unique.
  - vm_compute. reflexivity.
Defined.

Lemma example_batch_ids_unique : NoDup (map src_Id example_batch).
Proof.
  repeat constructor; simpl; intuition discriminate.
Defined.


(** The example batch on the example table. *)
Lemma procedure_idempotent_witness :
  let first := sp_UpdateOpenRecords NoFault example_batch
                 {| table := example_store; open_tran := [] |} in
  sp_UpdateOpenRecords NoFault example_batch (snd first) = first
  /\ engine_may_update example_batch example_store (table (snd first))
  /\ (forall rows',
         engine_may_update example_batch example_store rows' ->
         rows' = table (snd first))
  /\ (forall rows' rows'',
         engine_may_update example_batch example_store rows' ->
         engine_may_update example_batch rows' rows'' ->
         rows'' = rows').
Proof.
  exact (procedure_idempotent example_batch example_store
           example_batch_ids_unique).
Defined.

(** The example batch on the example table. *)
Lemma update_takes_batch_values_witness :
  Forall2 (fun old new =>
             forall source,
               In source example_batch -> src_Id source = Id old ->
               isOpen old = true ->
               Name new = src_Name source
               /\ Value new = src_Value source
               /\ Status new = src_Status source
               /\ UpdatedAt new = Some (src_UpdatedAt source)
               /\ Id new = Id old
               /\ isOpen new = isOpen old
               /\ CreatedAt new = CreatedAt old)
          example_store (updated_table example_batch example_store).
Proof.
  exact (update_takes_batch_values example_batch example_store
           example_batch_ids_unique).
Defined.

(** When two records of the batch share an id, the [UPDATE] admits two
    tables, and a second [UPDATE] may change the table the first one
    left. *)
Example shared_ids_leave_a_choice :
  let first := [set_columns one_open_row
                  {| src_Id := 1; src_Name := "First"; src_Value := 100;
                     src_Status := "Active";
                     src_UpdatedAt := 1700000000000 |}] in
  let second := [set_columns one_open_row
                   {| src_Id := 1; src_Name := "Second"; src_Value := 200;
                      src_Status := "Active";
                      src_UpdatedAt := 1700000000001 |}] in
  engine_may_update shared_id_batch [one_open_row] first
  /\ engine_may_update shared_id_batch first second
  /\ first <> second.
Proof.
  cbv zeta. split; [| split].
  - constructor; [| constructor]. unfold engine_may_write.
    cbn [isOpen one_open_row].
    left. eexists. split; [left; reflexivity |]. split; reflexivity.
  - constructor; [| constructor]. unfold engine_may_write.
    cbn [isOpen one_open_row set_columns].
    left. eexists. split; [right; left; reflexivity |]. split; reflexivity.
  - discriminate.
Qed.

(** Without the primary key the count can exceed the batch: two open rows
    with id 1 and one record for id 1 give [SkippedCount = -1]. *)
Example skipped_negative_without_key :
  fst (sp_UpdateOpenRecords NoFault
         [ {| src_Id := 1; src_Name := "N"; src_Value := 1;
              src_Status := "S"; src_UpdatedAt := 0 |} ]
         {| table :=
              [ {| Id := 1; Name := "a"; Value := 0; Status := "s";
                   isOpen := true; CreatedAt := None; UpdatedAt := None |};
                {| Id := 1; Name := "b"; Value := 0; Status := "s";
                   isOpen := true; CreatedAt := None; UpdatedAt := None |} ];
            open_tran := [] |})
  = inr [ {| UpdatedCount := 2; SkippedCount := -1;
             TotalInputRecords := 1 |} ].
Proof.
  reflexivity.
Qed.

(* ================================================================= *)
(** * Properties of the paginated reads *)

Lemma insert_by_Id_perm r sorted :
  Permutation (insert_by_Id r sorted) (r :: sorted).
Proof.
  induction sorted as [|x rest IH]; simpl; [reflexivity |].
  destruct (Z.leb (Id r) (Id x)); [reflexivity |].
  rewrite IH. apply perm_swap.
Qed.

Lemma ORDER_BY_Id_perm rows : Permutation (ORDER_BY_Id rows) rows.
Proof.
  induction rows as [|r rest IH]; simpl; [reflexivity |].
  rewrite insert_by_Id_perm. now constructor.
Qed.

Lemma insert_by_Id_sorted r sorted :
  StronglySorted by_Id sorted -> StronglySorted by_Id (insert_by_Id r sorted).
Proof.
  induction 1 as [|x rest Hrest IH Hx]; simpl.
  - repeat constructor.
  - destruct (Z.leb (Id r) (Id x)) eqn:E.
    + apply Z.leb_le in E. constructor; [now constructor |].
      constructor; [exact E |].
      eapply Forall_impl; [| exact Hx]. unfold by_Id. intros; lia.
    + apply Z.leb_gt in E. constructor; [exact IH |].
      eapply Permutation_Forall;
        [symmetry; apply insert_by_Id_perm |].
      constructor; [unfold by_Id; lia | exact Hx].
Qed.

Lemma ORDER_BY_Id_sorted rows : StronglySorted by_Id (ORDER_BY_Id rows).
Proof.
  induction rows; simpl; [constructor | now apply insert_by_Id_sorted].
Qed.

Lemma StronglySorted_skipn {A} (R : A -> A -> Prop) n : forall l,
  StronglySorted R l -> StronglySorted R (skipn n l).
Proof.
  induction n as [|n IH]; intros l Hl; [exact Hl |].
  destruct l as [|x l]; [exact Hl |].
  apply IH. now inversion Hl.
Qed.

Lemma StronglySorted_firstn {A} (R : A -> A -> Prop) n : forall l,
  StronglySorted R l -> StronglySorted R (firstn n l).
Proof.
  induction n as [|n IH]; intros l Hl; [constructor |].
  destruct l as [|x l]; [constructor |].
  inversion Hl as [|? ? Hrest Hx]; subst. simpl. constructor; [auto |].
  apply Forall_forall. intros y Hy.
  rewrite Forall_forall in Hx. apply Hx.
  rewrite <- (firstn_skipn n l). apply in_or_app. now left.
Qed.

Lemma In_page {A} (x : A) n k l : In x (firstn n (skipn k l)) -> In x l.
Proof.
  intros Hin.
  rewrite <- (firstn_skipn k l). apply in_or_app. right.
  rewrite <- (firstn_skipn n (skipn k l)). apply in_or_app. now left.
Qed.

(** A page is asked for with success exactly when the page number and the
    page size are positive and the offset fits an [INT]. *)
Lemma paged_succeeds_iff {A} Page PageSize (selected : list A) :
  (exists page, paged Page PageSize selected = inr page)
  <-> 1 <= Page /\ 1 <= PageSize /\ (Page - 1) * PageSize <= INT_MAX.
Proof.
  unfold paged, Offset_of, to_INT, OFFSET_FETCH, INT_MIN, INT_MAX.
  split.
  - intros [page Hpage].
    destruct (Z.leb (- 2 ^ 31) (Page - 1) && Z.leb (Page - 1) (2 ^ 31 - 1))
      eqn:E1; [| discriminate].
    destruct (Z.leb (- 2 ^ 31) ((Page - 1) * PageSize)
              && Z.leb ((Page - 1) * PageSize) (2 ^ 31 - 1))
      eqn:E2; [| discriminate].
    destruct (Z.ltb ((Page - 1) * PageSize) 0) eqn:E3; [discriminate |].
    destruct (Z.leb PageSize 0) eqn:E4; [discriminate |].
    apply andb_prop in E2. destruct E2 as [_ E2].
    apply Z.leb_le in E2. apply Z.ltb_ge in E3. apply Z.leb_gt in E4.
    repeat split; (lia || nia).
  - intros (HP & HS & Hoff).
    assert (0 <= (Page - 1) * PageSize) by nia.
    assert (Page - 1 <= (Page - 1) * PageSize) by nia.
    replace (Z.leb (- 2 ^ 31) (Page - 1) && Z.leb (Page - 1) (2 ^ 31 - 1))
      with true
      by (symmetry; apply andb_true_intro; split; apply Z.leb_le; lia).
    replace (Z.leb (- 2 ^ 31) ((Page - 1) * PageSize)
             && Z.leb ((Page - 1) * PageSize) (2 ^ 31 - 1))
      with true
      by (symmetry; apply andb_true_intro; split; apply Z.leb_le; lia).
    replace (Z.ltb ((Page - 1) * PageSize) 0) with false
      by (symmetry; apply Z.ltb_ge; lia).
    replace (Z.leb PageSize 0) with false
      by (symmetry; apply Z.leb_gt; lia).
    eauto.
Qed.

Lemma paged_value {A} Page PageSize (selected page : list A) :
  paged Page PageSize selected = inr page ->
  page = firstn (Z.to_nat PageSize)
                (skipn (Z.to_nat ((Page - 1) * PageSize)) selected).
Proof.
  unfold paged, Offset_of, to_INT, OFFSET_FETCH.
  destruct (Z.leb INT_MIN (Page - 1) && Z.leb (Page - 1) INT_MAX);
    [| discriminate].
  destruct (Z.leb INT_MIN ((Page - 1) * PageSize)
            && Z.leb ((Page - 1) * PageSize) INT_MAX); [| discriminate].
  destruct (Z.ltb ((Page - 1) * PageSize) 0); [discriminate |].
  destruct (Z.leb PageSize 0); [discriminate |].
  now intros [= <-].
Qed.

(** X21.  [sp_GetOpenRecords] returns a page exactly when the page number
    and the page size are at least 1 and the offset
    [(Page - 1) * PageSize] fits a 32-bit [INT]; page 0, a negative page
    and a page size of 0 are errors. *)
Theorem open_page_succeeds_iff Page PageSize rows :
  (exists recordsets, sp_GetOpenRecords Page PageSize rows = inr recordsets)
  <-> 1 <= Page /\ 1 <= PageSize /\ (Page - 1) * PageSize <= INT_MAX.
Proof.
  rewrite <- (paged_succeeds_iff Page PageSize
                (ORDER_BY_Id (filter isOpen rows))).
  unfold sp_GetOpenRecords.
  destruct (paged Page PageSize (ORDER_BY_Id (filter isOpen rows)))
    as [e|page].
  - split; intros [x Hx]; discriminate.
  - split; eauto.
Qed.

(** X22.  A page of [sp_GetOpenRecords] holds open rows of the table
    only, in ascending [Id] order, at most [PageSize] of them; and the
    total it reports is the number of open rows of the table, whatever the
    page. *)
Theorem open_page_contents Page PageSize rows page total :
  sp_GetOpenRecords Page PageSize rows = inr (page, total) ->
  Forall (fun r => In r rows /\ isOpen r = true) page
  /\ StronglySorted by_Id page
  /\ Z.of_nat (List.length page) <= PageSize
  /\ total = Z.of_nat (List.length (filter isOpen rows)).
Proof.
  unfold sp_GetOpenRecords.
  destruct (paged Page PageSize (ORDER_BY_Id (filter isOpen rows)))
    as [e|page'] eqn:Hpaged; [discriminate |].
  intros [= <- <-].
  assert (Hok : exists p, paged Page PageSize
                            (ORDER_BY_Id (filter isOpen rows)) = inr p)
    by eauto.
  apply paged_succeeds_iff in Hok. destruct Hok as (_ & HS & _).
  apply paged_value in Hpaged. subst page'.
  repeat split.
  - apply Forall_forall. intros r Hr. apply In_page in Hr.
    apply (Permutation_in _ (ORDER_BY_Id_perm _)) in Hr.
    now apply filter_In in Hr.
  - apply StronglySorted_firstn, StronglySorted_skipn, ORDER_BY_Id_sorted.
  - rewrite length_firstn. lia.
Qed.

Lemma firstn_add {A} a b : forall l : list A,
  firstn (a + b) l = firstn a l ++ firstn b (skipn a l).
Proof.
  induction a as [|a IH]; intros l; [reflexivity |].
  destruct l as [|x l]; simpl; [now rewrite firstn_nil | now rewrite IH].
Qed.

Lemma walk_paged_generic {A} (fetch : Z -> Outcome (list A))
      (selected : list A) PageSize :
  1 <= PageSize ->
  (forall Page, 1 <= Page -> (Page - 1) * PageSize <= INT_MAX ->
                fetch Page
                = inr (firstn (Z.to_nat PageSize)
                         (skipn (Z.to_nat ((Page - 1) * PageSize)) selected))) ->
  forall (walk : Z -> nat -> Outcome (list A)),
    (forall first, walk first O = inr []) ->
    (forall first count,
        walk first (S count)
        = match fetch first with
          | inl e => inl e
          | inr page =>
              match walk (first + 1) count with
              | inl e => inl e
              | inr rest => inr (page ++ rest)
              end
          end) ->
    forall count first,
      1 <= first ->
      (first - 1 + Z.of_nat count) * PageSize <= INT_MAX ->
      walk first count
      = inr (firstn (count * Z.to_nat PageSize)
               (skipn (Z.to_nat ((first - 1) * PageSize)) selected)).
Proof.
  intros HS Hfetch walk Hwalk0 HwalkS.
  induction count as [|count IH]; intros first Hfirst Hfit.
  - rewrite Hwalk0. reflexivity.
  - rewrite HwalkS, Hfetch by nia.
    rewrite IH by nia.
    f_equal. cbn [Nat.mul]. rewrite firstn_add. f_equal.
    rewrite skipn_skipn. f_equal. f_equal. nia.
Qed.

Lemma sp_GetOpenRecords_page Page PageSize rows :
  1 <= PageSize -> 1 <= Page -> (Page - 1) * PageSize <= INT_MAX ->
  match sp_GetOpenRecords Page PageSize rows with
  | inl e => inl e
  | inr (page, _) => inr page
  end
  = inr (firstn (Z.to_nat PageSize)
           (skipn (Z.to_nat ((Page - 1) * PageSize))
              (ORDER_BY_Id (filter isOpen rows)))).
Proof.
  intros HS HP Hfit. unfold sp_GetOpenRecords.
  destruct (proj2 (paged_succeeds_iff Page PageSize
                     (ORDER_BY_Id (filter isOpen rows)))
                  (conj HP (conj HS Hfit))) as [page Hpage].
  rewrite Hpage. apply paged_value in Hpage. now subst.
Qed.

Lemma sp_GetRecordsPaged_page Page PageSize rows :
  1 <= PageSize -> 1 <= Page -> (Page - 1) * PageSize <= INT_MAX ->
  match sp_GetRecordsPaged Page PageSize rows with
  | inl e => inl e
  | inr (page, _) => inr page
  end
  = inr (firstn (Z.to_nat PageSize)
           (skipn (Z.to_nat ((Page - 1) * PageSize))
              (map paged_columns (ORDER_BY_Id rows)))).
Proof.
  intros HS HP Hfit. unfold sp_GetRecordsPaged.
  destruct (proj2 (paged_succeeds_iff Page PageSize
                     (map paged_columns (ORDER_BY_Id rows)))
                  (conj HP (conj HS Hfit))) as [page Hpage].
  rewrite Hpage. apply paged_value in Hpage. now subst.
Qed.

(** X23.  Walking the pages 1, 2, ..., [count] of the open records with
    one page size, as long as the pages reach past the last open row,
    returns every open row of the table exactly once, in [Id] order:
    no row is repeated on two pages and none falls between two pages. *)
Theorem walking_open_pages PageSize rows count :
  1 <= PageSize ->
  Z.of_nat count * PageSize <= INT_MAX ->
  Z.of_nat (List.length (filter isOpen rows)) <= Z.of_nat count * PageSize ->
  walk_open_pages PageSize rows 1 count
  = inr (ORDER_BY_Id (filter isOpen rows)).
Proof.
  intros HS Hfit Hreach.
  rewrite (walk_paged_generic
             (fun Page => match sp_GetOpenRecords Page PageSize rows with
                          | inl e => inl e
                          | inr (page, _) => inr page
                          end)
             (ORDER_BY_Id (filter isOpen rows)) PageSize HS
             (fun Page HP Hf => sp_GetOpenRecords_page Page PageSize rows
                                  HS HP Hf)
             (walk_open_pages PageSize rows)); try lia.
  - cbn [skipn Z.to_nat Z.sub Z.mul]. f_equal. apply firstn_all2.
    rewrite (Permutation_length (ORDER_BY_Id_perm _)). nia.
  - reflexivity.
  - intros first c. cbn [walk_open_pages].
    destruct (sp_GetOpenRecords first PageSize rows) as [e|[page total]];
      reflexivity.
Qed.

(** X24.  The same for [sp_GetRecordsPaged]: walking its pages returns the
    six selected columns of every row of the table exactly once, in [Id]
    order, closed rows included. *)
Theorem walking_all_pages PageSize rows count :
  1 <= PageSize ->
  Z.of_nat count * PageSize <= INT_MAX ->
  Z.of_nat (List.length rows) <= Z.of_nat count * PageSize ->
  walk_pages PageSize rows 1 count
  = inr (map paged_columns (ORDER_BY_Id rows)).
Proof.
  intros HS Hfit Hreach.
  rewrite (walk_paged_generic
             (fun Page => match sp_GetRecordsPaged Page PageSize rows with
                          | inl e => inl e
                          | inr (page, _) => inr page
                          end)
             (map paged_columns (ORDER_BY_Id rows)) PageSize HS
             (fun Page HP Hf => sp_GetRecordsPaged_page Page PageSize rows
                                  HS HP Hf)
             (walk_pages PageSize rows)); try lia.
  - cbn [skipn Z.to_nat Z.sub Z.mul]. f_equal. apply firstn_all2.
    rewrite length_map, (Permutation_length (ORDER_BY_Id_perm _)). nia.
  - reflexivity.
  - intros first c. cbn [walk_pages].
    destruct (sp_GetRecordsPaged first PageSize rows) as [e|[page total]];
      reflexivity.
Qed.

(** X25.  [getOpenRecords] makes one call, of [sp_GetOpenRecords], and
    leaves the table as it is.  When it returns, [data] and [total] are
    what the procedure selects for the bound page and page size, and
    [page] and [pageSize] are the arguments, 1 and 100 when left out.
    When it throws, the error is the one the driver, the connection or
    the engine gave, unchanged. *)
Theorem getOpenRecords_outcome bind_Int world page pageSize sys :
  let p := or_default page 1%float in
  let s := or_default pageSize 100%float in
  match getOpenRecords bind_Int world page pageSize sys with
  | (inr r, sys') =>
      sys' = logged sys [Execute "sp_GetOpenRecords"]
      /\ OpenRecordsPage.page r = p
      /\ OpenRecordsPage.pageSize r = s
      /\ exists Page PageSize,
          bind_Int p = inr Page
          /\ bind_Int s = inr PageSize
          /\ exec_fault world = None
          /\ sp_GetOpenRecords Page PageSize (store sys)
             = inr (OpenRecordsPage.data r, OpenRecordsPage.total r)
  | (inl e, sys') =>
      sys' = logged sys [Execute "sp_GetOpenRecords"]
      /\ ((exists msg, bind_Int p = inl msg /\ e = Error msg)
          \/ (exists msg, bind_Int s = inl msg /\ e = Error msg)
          \/ exec_fault world = Some e
          \/ exists Page PageSize,
              bind_Int p = inr Page /\ bind_Int s = inr PageSize
              /\ sp_GetOpenRecords Page PageSize (store sys) = inl e)
  end.
Proof.
  cbv zeta. unfold getOpenRecords, try_catch, bind, emit, input_Int, throw,
    ret, logged.
  cbn [store calls].
  destruct (bind_Int (or_default page 1%float))
    as [msg|Page] eqn:EP; cbv beta iota.
  { split; [reflexivity |]. left. eauto. }
  destruct (bind_Int (or_default pageSize 100%float))
    as [msg|PageSize] eqn:ES; cbv beta iota.
  { split; [reflexivity |]. right. left. eauto. }
  destruct (exec_fault world) as [e|] eqn:EF; cbv beta iota.
  { split; [reflexivity |]. auto. }
  cbn [store].
  destruct (sp_GetOpenRecords Page PageSize (store sys))
    as [e|[data total]] eqn:Hsp; cbv beta iota.
  - split; [reflexivity |]. do 3 right. eauto.
  - cbn [fst snd OpenRecordsPage.data OpenRecordsPage.total
             OpenRecordsPage.page OpenRecordsPage.pageSize].
    repeat split. exists Page, PageSize. auto.
Qed.

(** Page 1 of size 1 of the example table: the open row with the least
    id, and a total of 2. *)
Lemma open_page_contents_witness :
  Forall (fun r => In r example_store /\ isOpen r = true)
         [ {| Id := 1; Name := "Record 1"; Value := 10000;
              Status := "Pending"; isOpen := true; CreatedAt := Some 0;
              UpdatedAt := Some 0 |} ]
  /\ StronglySorted by_Id
       [ {| Id := 1; Name := "Record 1"; Value := 10000;
            Status := "Pending"; isOpen := true; CreatedAt := Some 0;
            UpdatedAt := Some 0 |} ]
  /\ Z.of_nat (List.length
                 [ {| Id := 1; Name := "Record 1"; Value := 10000;
                      Status := "Pending"; isOpen := true;
                      CreatedAt := Some 0; UpdatedAt := Some 0 |} ]) <= 1
  /\ 2 = Z.of_nat (List.length (filter isOpen example_store)).
Proof.
  apply (open_page_contents 1 1 example_store).
  vm_compute. reflexivity.
Defined.

(** Two pages of size 1 reach both open rows of the example table. *)
Lemma walking_open_pages_witness :
  walk_open_pages 1 example_store 1 2
  = inr (ORDER_BY_Id (filter isOpen example_store)).
Proof.
  apply (walking_open_pages 1 example_store 2); vm_compute; congruence.
Defined.

(** Two pages of size 2 reach the three rows of the example table. *)
Lemma walking_all_pages_witness :
  walk_pages 2 example_store 1 2
  = inr (map paged_columns (ORDER_BY_Id example_store)).
Proof.
  apply (walking_all_pages 2 example_store 2); vm_compute; congruence.
Defined.

(** The second page of size 1, asked for with a fractional page number
    that the driver cuts to 2. *)
Example getOpenRecords_example :
  getOpenRecords example_bind_Int example_world (Some 2.5%float)
                 (Some 1%float) example_sys
  = (inr {| OpenRecordsPage.data :=
              [ {| Id := 3; Name := "Record 3"; Value := 30000;
                   Status := "Pending"; isOpen := true;
                   CreatedAt := Some 0; UpdatedAt := None |} ];
            OpenRecordsPage.total := 2;
            OpenRecordsPage.page := 2.5%float;
            OpenRecordsPage.pageSize := 1%float |},
     {| store := example_store; calls := [Execute "sp_GetOpenRecords"] |}).
Proof.
  vm_compute. reflexivity.
Qed.

(** Page 0 is refused by the engine, and the error arrives unchanged. *)
Example getOpenRecords_page_zero :
  fst (getOpenRecords example_bind_Int example_world (Some 0%float) None
                      example_sys)
  = inl (Error "The offset specified in a OFFSET clause may not be negative.").
Proof.
  vm_compute. reflexivity.
Qed.

(* ================================================================= *)
(** * Properties of [sp_GetUpdatableRecords] *)

Lemma insert_by_r_Id_perm u sorted :
  Permutation (insert_by_r_Id u sorted) (u :: sorted).
Proof.
  induction sorted as [|x rest IH]; simpl; [reflexivity |].
  destruct (r_Id_leb (ur_Id u) (ur_Id x)); [reflexivity |].
  rewrite IH. apply perm_swap.
Qed.

Lemma ORDER_BY_r_Id_perm us : Permutation (ORDER_BY_r_Id us) us.
Proof.
  induction us as [|u rest IH]; simpl; [reflexivity |].
  rewrite insert_by_r_Id_perm. now constructor.
Qed.

Lemma r_Id_leb_total a b : r_Id_leb a b = false -> r_Id_leb b a = true.
Proof.
  destruct a, b; simpl; try discriminate; auto.
  intros E. apply Z.leb_gt in E. apply Z.leb_le. lia.
Qed.

Lemma r_Id_leb_trans a b c :
  r_Id_leb a b = true -> r_Id_leb b c = true -> r_Id_leb a c = true.
Proof.
  destruct a, b, c; simpl; try discriminate; auto.
  intros E1 E2. apply Z.leb_le in E1, E2. apply Z.leb_le. lia.
Qed.

Lemma insert_by_r_Id_sorted u sorted :
  StronglySorted by_r_Id sorted ->
  StronglySorted by_r_Id (insert_by_r_Id u sorted).
Proof.
  induction 1 as [|x rest Hrest IH Hx]; simpl.
  - repeat constructor.
  - destruct (r_Id_leb (ur_Id u) (ur_Id x)) eqn:E.
    + constructor; [now constructor |].
      constructor; [exact E |].
      eapply Forall_impl; [| exact Hx].
      intros y Hy. unfold by_r_Id in *. eauto using r_Id_leb_trans.
    + constructor; [exact IH |].
      eapply Permutation_Forall; [symmetry; apply insert_by_r_Id_perm |].
      constructor; [now apply r_Id_leb_total | exact Hx].
Qed.

Lemma ORDER_BY_r_Id_sorted us : StronglySorted by_r_Id (ORDER_BY_r_Id us).
Proof.
  induction us; simpl; [constructor | now apply insert_by_r_Id_sorted].
Qed.

Lemma In_left_join rows rl_Id u :
  In u (left_join rows rl_Id)
  <-> (u = not_found /\ forall r, In r rows -> Id r <> rl_Id)
      \/ (exists r, In r rows /\ Id r = rl_Id /\ u = found r).
Proof.
  unfold left_join.
  destruct (filter (fun r => Z.eqb rl_Id (Id r)) rows) as [|m ms] eqn:Hf.
  - split.
    + intros [<- | []]. left. split; [reflexivity |].
      intros r Hr Hid.
      assert (In r (filter (fun r => Z.eqb rl_Id (Id r)) rows)) as Hin
          by (apply filter_In; split; [assumption | apply Z.eqb_eq; auto]).
      rewrite Hf in Hin. destruct Hin.
    + intros [[-> _] | (r & Hr & Hid & ->)]; [now left |].
      assert (In r (filter (fun r => Z.eqb rl_Id (Id r)) rows)) as Hin
          by (apply filter_In; split; [assumption | apply Z.eqb_eq; auto]).
      rewrite Hf in Hin. destruct Hin.
  - rewrite <- Hf. split.
    + intros Hin. right. apply in_map_iff in Hin.
      destruct Hin as (r & <- & Hr). apply filter_In in Hr.
      destruct Hr as [Hr Hid]. apply Z.eqb_eq in Hid. eauto.
    + intros [[-> Hnone] | (r & Hr & Hid & ->)].
      * exfalso. apply (Hnone m); [| symmetry; apply Z.eqb_eq].
        -- assert (In m (filter (fun r => Z.eqb rl_Id (Id r)) rows)) as Hin
               by (rewrite Hf; now left).
           now apply filter_In in Hin.
        -- assert (In m (filter (fun r => Z.eqb rl_Id (Id r)) rows)) as Hin
               by (rewrite Hf; now left).
           now apply filter_In in Hin.
      * apply in_map, filter_In. split; [assumption |].
        apply Z.eqb_eq. auto.
Qed.

Lemma updated_count_positive source rows :
  0 < updated_count [source] rows
  <-> exists r, In r rows /\ Id r = src_Id source /\ isOpen r = true.
Proof.
  unfold updated_count. split.
  - intros Hpos.
    destruct (filter (fun target => snd (update_row [source] target)) rows)
      as [|r rest] eqn:Hf; [simpl in Hpos; lia |].
    assert (In r (filter (fun target => snd (update_row [source] target)) rows))
      as Hin by (rewrite Hf; now left).
    apply filter_In in Hin. destruct Hin as [Hin Hhit].
    exists r. split; [assumption |].
    unfold update_row, joined in Hhit. simpl in Hhit.
    destruct (isOpen r); [| discriminate].
    destruct (Z.eqb (Id r) (src_Id source)) eqn:E; [| discriminate].
    apply Z.eqb_eq in E. auto.
  - intros (r & Hin & Hid & Hopen).
    assert (In r (filter (fun target => snd (update_row [source] target)) rows))
      as Hf.
    { apply filter_In. split; [assumption |].
      unfold update_row, joined. simpl. rewrite Hopen, Hid, Z.eqb_refl.
      reflexivity. }
    destruct (filter _ rows); [destruct Hf | simpl; lia].
Qed.

Section UpdatableFacts.
Variable CAST_INT : string -> Outcome Z.

(** X26.  [sp_GetUpdatableRecords] predicts [sp_UpdateOpenRecords]: an id
    of the list is reported with the status "Can Update" exactly when an
    update whose batch holds a record with that id writes a row. *)
Theorem updatable_predicts_update RecordIds rows ids :
  RecordIdList CAST_INT RecordIds = inr ids ->
  exists output,
    sp_GetUpdatableRecords CAST_INT RecordIds rows = inr output
    /\ forall source,
        In (src_Id source) ids ->
        ((exists u,
             In u output
             /\ ur_Id u = Some (src_Id source)
             /\ UpdateStatus u = "Can Update")
         <-> 0 < updated_count [source] rows).
Proof.
  intros Hids. unfold sp_GetUpdatableRecords. rewrite Hids.
  eexists. split; [reflexivity |].
  intros source Hin. rewrite updated_count_positive. split.
  - intros (u & Hu & Hid & Hstatus).
    apply (Permutation_in _ (ORDER_BY_r_Id_perm _)) in Hu.
    apply in_flat_map in Hu. destruct Hu as (i & _ & Hu).
    apply In_left_join in Hu.
    destruct Hu as [[-> _] | (r & Hr & _ & ->)]; [discriminate |].
    injection Hid as Hid. exists r. split; [assumption |].
    split; [assumption |].
    cbn in Hstatus. destruct (isOpen r); [reflexivity | discriminate].
  - intros (r & Hr & Hid & Hopen). exists (found r).
    split; [| split].
    + apply (Permutation_in _ (Permutation_sym (ORDER_BY_r_Id_perm _))).
      apply in_flat_map. exists (src_Id source). split; [assumption |].
      apply In_left_join. right. eauto.
    + cbn. now rewrite Hid.
    + cbn. now rewrite Hopen.
Qed.

Lemma filter_by_Id_unique rows rl_Id :
  NoDup (map Id rows) ->
  (List.length (filter (fun r => Z.eqb rl_Id (Id r)) rows) <= 1)%nat.
Proof.
  induction rows as [|r rest IH]; simpl; [lia |].
  intros Hnd. inversion Hnd as [|? ? Hnotin Hrest]; subst.
  destruct (Z.eqb rl_Id (Id r)) eqn:E; [| auto].
  apply Z.eqb_eq in E. simpl.
  destruct (filter (fun r0 => Z.eqb rl_Id (Id r0)) rest) as [|m ms] eqn:Hf;
    [simpl; lia |].
  exfalso. apply Hnotin.
  assert (In m (filter (fun r0 => Z.eqb rl_Id (Id r0)) rest)) as Hin
      by (rewrite Hf; now left).
  apply filter_In in Hin. destruct Hin as [Hin Hm].
  apply Z.eqb_eq in Hm. rewrite <- E, Hm. now apply in_map.
Qed.

Lemma left_join_length rows rl_Id :
  NoDup (map Id rows) -> List.length (left_join rows rl_Id) = 1%nat.
Proof.
  intros Hnd. unfold left_join.
  pose proof (filter_by_Id_unique rows rl_Id Hnd) as Hle.
  destruct (filter (fun r => Z.eqb rl_Id (Id r)) rows) as [|m [|m' ms]];
    simpl in *; try reflexivity; lia.
Qed.

(** X27.  The result of [sp_GetUpdatableRecords] answers for the ids of
    the list and for nothing else.  Every row of it is either the row
    "Record Not Found", with every column [NULL], or the five columns of
    a table row whose id is in the list, with "Can Update" when that row
    is open and "Cannot Update - Record Closed" when it is closed; every
    id of the list has its row; the rows not found come first and the
    others follow in ascending [Id] order; and on a table whose ids are
    unique there are as many rows as ids in the list. *)
Theorem updatable_report RecordIds rows ids :
  RecordIdList CAST_INT RecordIds = inr ids ->
  exists output,
    sp_GetUpdatableRecords CAST_INT RecordIds rows = inr output
    /\ Forall (fun u =>
                 u = not_found
                 \/ exists r,
                     In r rows /\ In (Id r) ids /\ u = found r
                     /\ UpdateStatus u
                        = (if isOpen r then "Can Update"
                           else "Cannot Update - Record Closed"))
              output
    /\ (forall id, In id ids ->
                   (forall r, In r rows -> Id r = id -> In (found r) output)
                   /\ ((forall r, In r rows -> Id r <> id) ->
                       In not_found output))
    /\ StronglySorted by_r_Id output
    /\ (NoDup (map Id rows) -> List.length output = List.length ids).
Proof.
  intros Hids. unfold sp_GetUpdatableRecords. rewrite Hids.
  eexists. split; [reflexivity |].
  split; [| split; [intros id Hid; split | split]].
  - apply Forall_forall. intros u Hu.
    apply (Permutation_in _ (ORDER_BY_r_Id_perm _)) in Hu.
    apply in_flat_map in Hu. destruct Hu as (i & Hi & Hu).
    apply In_left_join in Hu.
    destruct Hu as [[-> _] | (r & Hr & <- & ->)]; [now left |].
    right. exists r. repeat split; auto.
  - intros r Hr Hr_id.
    apply (Permutation_in _ (Permutation_sym (ORDER_BY_r_Id_perm _))).
    apply in_flat_map. exists id. split; [assumption |].
    apply In_left_join. right. eauto.
  - intros Hnone.
    apply (Permutation_in _ (Permutation_sym (ORDER_BY_r_Id_perm _))).
    apply in_flat_map. exists id. split; [assumption |].
    apply In_left_join. left. auto.
  - apply ORDER_BY_r_Id_sorted.
  - intros Hnd. rewrite (Permutation_length (ORDER_BY_r_Id_perm _)).
    clear Hids. induction ids as [|i more IH]; [reflexivity |].
    cbn [flat_map]. rewrite length_app, left_join_length by assumption.
    simpl. now rewrite IH.
Qed.

End UpdatableFacts.

(** The list of the usage note in the source, on the example table. *)
Lemma updatable_predicts_update_witness :
  exists output,
    sp_GetUpdatableRecords example_CAST_INT "1,2,3,4,5" example_store
    = inr output
    /\ forall source,
        In (src_Id source) [1; 2; 3; 4; 5] ->
        ((exists u,
             In u output
             /\ ur_Id u = Some (src_Id source)
             /\ UpdateStatus u = "Can Update")
         <-> 0 < updated_count [source] example_store).
Proof.
  apply (updatable_predicts_update example_CAST_INT "1,2,3,4,5" example_store).
  vm_compute. reflexivity.
Defined.

Lemma updatable_report_witness :
  exists output,
    sp_GetUpdatableRecords example_CAST_INT " 3, 1,,9 " example_store
    = inr output
    /\ Forall (fun u =>
                 u = not_found
                 \/ exists r,
                     In r example_store /\ In (Id r) [3; 1; 9]
                     /\ u = found r
                     /\ UpdateStatus u
                        = (if isOpen r then "Can Update"
                           else "Cannot Update - Record Closed"))
              output
    /\ (forall id, In id [3; 1; 9] ->
                   (forall r, In r example_store -> Id r = id ->
                              In (found r) output)
                   /\ ((forall r, In r example_store -> Id r <> id) ->
                       In not_found output))
    /\ StronglySorted by_r_Id output
    /\ (NoDup (map Id example_store) ->
        List.length output = List.length [3; 1; 9]).
Proof.
  apply (updatable_report example_CAST_INT " 3, 1,,9 " example_store).
  vm_compute. reflexivity.
Defined.

(** The usage note of the source, on the example table: ids 4 and 5 are
    not found and come first, 1 and 3 can be updated, 2 is closed. *)
Example updatable_example :
  option_map (map (fun u => (ur_Id u, UpdateStatus u)))
             (match sp_GetUpdatableRecords example_CAST_INT "1,2,3,4,5"
                                           example_store with
              | inr output => Some output
              | inl _ => None
              end)
  = Some [ (None, "Record Not Found");
           (None, "Record Not Found");
           (Some 1, "Can Update");
           (Some 2, "Cannot Update - Record Closed");
           (Some 3, "Can Update") ].
Proof.
  vm_compute. reflexivity.
Qed.

(* ================================================================= *)
(** * Properties of the earlier revision *)

Section EarlierFacts.
Context `{Host}.
Variable bind_added : Earlier.AddedRow -> string + RecordDataType.
Variable world : World.

Lemma added_rows_length records : forall index,
  List.length (Earlier.added_rows world index records) = List.length records.
Proof.
  induction records; intros index; simpl; auto.
Qed.

Lemma bind_added_rows_length rows : forall RecordData,
  Earlier.bind_added_rows bind_added rows = inr RecordData ->
  List.length RecordData = List.length rows.
Proof.
  induction rows as [|row rest IH]; intros RecordData; simpl.
  - intros [= <-]. reflexivity.
  - destruct (bind_added row); [discriminate |].
    destruct (Earlier.bind_added_rows bind_added rest); [discriminate |].
    intros [= <-]. simpl. f_equal. eauto.
Qed.

(** How a call of the earlier [updateOpenRecords] ends. *)
Lemma earlier_updateOpenRecords_outcome records sys :
  match Earlier.updateOpenRecords bind_added world records sys with
  | (inr counts, sys') =>
      exists RecordData,
        List.length RecordData = List.length records
        /\ sys' = {| store := updated_table RecordData (store sys);
                     calls := calls sys ++ [Execute "sp_UpdateOpenRecords"] |}
        /\ Earlier.updated counts = updated_count RecordData (store sys)
        /\ Earlier.skipped counts
           = Z.of_nat (List.length records)
             - updated_count RecordData (store sys)
  | (inl e, sys') =>
      sys' = logged sys [Execute "sp_UpdateOpenRecords"]
      /\ exists cause,
          message e = ("Failed to update records: " ++ cause)%string
  end.
Proof.
  unfold Earlier.updateOpenRecords, Earlier.execute_sp_UpdateOpenRecords,
    try_catch, bind, emit, lift, throw, ret, logged.
  cbn [store calls].
  destruct (Earlier.bind_added_rows bind_added
              (Earlier.added_rows world 0 records))
    as [e|RecordData] eqn:Hbind; cbv beta iota.
  { split; [reflexivity | eexists; reflexivity]. }
  destruct (exec_fault world) as [e|]; cbv beta iota.
  { split; [reflexivity | eexists; reflexivity]. }
  cbn [store calls]. rewrite sp_UpdateOpenRecords_spec.
  destruct (engine_failure _ _ _) as [e|]; cbv beta iota.
  { cbn [table]. split; [reflexivity | eexists; reflexivity]. }
  cbn [table stats_of UpdatedCount SkippedCount Earlier.updated
             Earlier.skipped].
  exists RecordData.
  apply bind_added_rows_length in Hbind.
  rewrite added_rows_length in Hbind.
  repeat split; auto. now rewrite Hbind.
Qed.

(** X28.  In every report of [processJsonRecords], [updated] and
    [skipped] add up to [processed], which is the number of records it
    was given, and the error messages are as many as the records the
    validator did not accept. *)
Theorem processed_counts_add_up jsonRecords sys report sys' :
  Earlier.processJsonRecords bind_added world jsonRecords sys
  = (inr report, sys') ->
  Earlier.process_updated report + Earlier.process_skipped report
  = Earlier.processed report
  /\ exists records,
      jsonRecords = RecordsArray records
      /\ Earlier.processed report = Z.of_nat (List.length records)
      /\ (List.length
            (fst (validateRecords
                    (transformExternalData (clock world) records) []))
          + List.length (Earlier.process_errors report)
          = List.length records)%nat.
Proof.
  unfold Earlier.processJsonRecords.
  destruct jsonRecords as [|records]; [discriminate |].
  cbv zeta.
  assert (Hcount :
            (List.length
               (fst (validateRecords
                       (transformExternalData (clock world) records) []))
             + List.length
                 (snd (validateRecords
                         (transformExternalData (clock world) records) []))
             = List.length records)%nat).
  { unfold validateRecords.
    destruct (validate_from_partition
                (transformExternalData (clock world) records) 0%nat ([], []))
      as (rejections & Hsnd & Hlen).
    rewrite Hsnd. cbn in Hlen |- *.
    unfold transformExternalData in Hlen at 2.
    rewrite transform_from_length in Hlen. exact Hlen. }
  destruct (validateRecords (transformExternalData (clock world) records) [])
    as [validRecords errors] eqn:Hvr. cbn [fst snd] in Hcount.
  destruct (List.length validRecords =? 0)%nat.
  - intros [= <- _]. cbn. split; [lia |]. exists records.
    rewrite Hvr. auto.
  - pose proof (earlier_updateOpenRecords_outcome validRecords sys) as Hout.
    destruct (Earlier.updateOpenRecords bind_added world validRecords sys)
      as [[e|counts] sys3]; [discriminate |].
    destruct Hout as (RecordData & _ & _ & Hu & Hs).
    intros [= <- _]. cbn. rewrite Hu, Hs.
    split; [lia |]. exists records. rewrite Hvr. auto.
Qed.


(** How a call of the earlier [updateOpenRecords] that fails ends, and
    when it fails. *)
Lemma earlier_updateOpenRecords_failure records sys :
  match earlier_call_failure bind_added world records sys with
  | Some cause =>
      Earlier.updateOpenRecords bind_added world records sys
      = (inl (Error ("Failed to update records: " ++ message cause)),
         logged sys [Execute "sp_UpdateOpenRecords"])
  | None =>
      exists counts,
        fst (Earlier.updateOpenRecords bind_added world records sys)
        = inr counts
  end.
Proof.
  unfold earlier_call_failure, Earlier.updateOpenRecords,
    Earlier.execute_sp_UpdateOpenRecords,
    try_catch, bind, emit, lift, throw, ret, logged.
  cbn [store calls].
  destruct (Earlier.bind_added_rows bind_added
              (Earlier.added_rows world 0 records))
    as [e|RecordData]; cbv beta iota; [reflexivity |].
  destruct (exec_fault world) as [e|]; cbv beta iota; [reflexivity |].
  cbn [store calls]. rewrite sp_UpdateOpenRecords_spec.
  destruct (engine_failure _ _ _) as [e|]; cbv beta iota.
  - reflexivity.
  - eexists. reflexivity.
Qed.

(** X29.  [processJsonRecords] rethrows what it catches as it is.  An
    input that is not an array leaves as the [HttpException] with status
    400, before anything is called.  For an array of records shaped as
    [ExternalApiRecord]: when the validator accepts none, it returns
    without a call; when it accepts some and the call of the procedure
    fails (the driver refuses a row, the call does not reach the
    procedure, or the engine fails inside it), it throws the error of
    [updateOpenRecords], whose message is "Failed to update records: "
    followed by the message of the cause, after that one call and with
    the table as it was; and when the call does not fail, it returns a
    report. *)
Theorem process_failures :
  (forall sys,
      Earlier.processJsonRecords bind_added world NotAnArray sys
      = (inl (Earlier.ThrownHttp
                {| http_message := "Invalid input format - expected array";
                   http_status := 400 |}), sys))
  /\ (forall records sys,
         fst (validateRecords
                (transformExternalData (clock world) records) []) = [] ->
         exists report,
           Earlier.processJsonRecords bind_added world
                                      (RecordsArray records) sys
           = (inr report, sys))
  /\ (forall records sys,
         let validRecords :=
           fst (validateRecords
                  (transformExternalData (clock world) records) []) in
         validRecords <> [] ->
         match earlier_call_failure bind_added world validRecords sys with
         | Some cause =>
             Earlier.processJsonRecords bind_added world
                                        (RecordsArray records) sys
             = (inl (Earlier.ThrownError
                       (Error ("Failed to update records: "
                                 ++ message cause))),
                logged sys [Execute "sp_UpdateOpenRecords"])
         | None =>
             exists report,
               fst (Earlier.processJsonRecords bind_added world
                                               (RecordsArray records) sys)
               = inr report
         end).
Proof.
  split; [reflexivity | split].
  - intros records sys Hnone. unfold Earlier.processJsonRecords. cbv zeta.
    destruct (validateRecords (transformExternalData (clock world) records) [])
      as [validRecords errors]. cbn [fst] in Hnone. subst validRecords.
    cbn [List.length Nat.eqb]. eexists. reflexivity.
  - intros records sys validRecords Hsome. subst validRecords.
    unfold Earlier.processJsonRecords. cbv zeta.
    destruct (validateRecords (transformExternalData (clock world) records) [])
      as [validRecords errors]. cbn [fst] in Hsome |- *.
    destruct validRecords as [|r valid]; [congruence |].
    cbn [List.length Nat.eqb].
    pose proof (earlier_updateOpenRecords_failure (r :: valid) sys) as Hout.
    destruct (earlier_call_failure bind_added world (r :: valid) sys)
      as [cause|].
    + rewrite Hout. reflexivity.
    + destruct Hout as [counts Hc].
      destruct (Earlier.updateOpenRecords bind_added world (r :: valid) sys)
        as [[e|c] sys']; cbn [fst] in Hc; [discriminate |].
      eexists. reflexivity.
Qed.

End EarlierFacts.

(** The example feed, handed over as JSON: four records, three accepted,
    one row updated. *)
Lemma processed_counts_add_up_witness :
  Earlier.process_updated example_process_report
  + Earlier.process_skipped example_process_report
  = Earlier.processed example_process_report
  /\ exists records,
      RecordsArray example_feed = RecordsArray records
      /\ Earlier.processed example_process_report
         = Z.of_nat (List.length records)
      /\ (List.length
            (fst (validateRecords
                    (transformExternalData (clock example_world) records) []))
          + List.length (Earlier.process_errors example_process_report)
          = List.length records)%nat.
Proof.
  apply (processed_counts_add_up example_bind_added example_world
           (RecordsArray example_feed) example_sys example_process_report
           (snd (Earlier.processJsonRecords example_bind_added example_world
                   (RecordsArray example_feed) example_sys))).
  vm_compute. reflexivity.
Defined.

(** A store failure under the earlier revision: the cause is in the
    message, and the table is as it was. *)
Example process_failure_example :
  Earlier.processJsonRecords example_bind_added failing_world
                             (RecordsArray example_feed) example_sys
  = (inl (Earlier.ThrownError
            (Error "Failed to update records: Arithmetic overflow error")),
     {| store := example_store;
        calls := [Execute "sp_UpdateOpenRecords"] |}).
Proof.
  vm_compute. reflexivity.
Qed.
